(** * Noms value-storage core: types, value codec and batch store

    A shallow embedding of the type system ([types/type.go]), of the
    batch-store adaptor ([types/batch_store.go]) and of the value codec as
    it is exercised by the encoding test-suite, together with the
    properties the specification states about them. *)

From Stdlib Require Import ZArith NArith Lia Bool Ascii String List.
From Stdlib Require Import Permutation Sorted.
From Stdlib Require Import Structures.OrderedTypeEx.
From Stdlib Require Import Floats.SpecFloat.
From Stdlib Require Import Strings.Byte.
From stdpp Require Import base option list strings gmap sorting pretty.

Local Open Scope string_scope.
Local Open Scope list_scope.

(** ** Kinds *)

(** The closed enumeration [NomsKind]. *)
Inductive NomsKind : Set :=
  | BoolKind | NumberKind | StringKind | BlobKind | ValueKind
  | ListKind | MapKind | RefKind | SetKind | StructKind
  | TypeKind | CycleKind | UnionKind.

#[global] Instance NomsKind_eq_dec : EqDecision NomsKind.
Proof. solve_decision. Defined.

(** ** Field names

    [fieldNameRe = regexp.MustCompile(`^[a-zA-Z][a-zA-Z0-9_]*$`)].  The
    pattern is kept as a regular expression and matched with Brzozowski
    derivatives; both anchors are present, so [MatchString] is a match of
    the whole string. *)
Module Regexp.

Inductive re : Set :=
  | Empty                       (* matches nothing *)
  | Eps                         (* matches the empty string *)
  | Class (ranges : list (ascii * ascii))
  | Seq (r1 r2 : re)
  | Alt (r1 r2 : re)
  | Star (r : re).

Definition in_range (c : ascii) (r : ascii * ascii) : bool :=
  (N_of_ascii (fst r) <=? N_of_ascii c)%N && (N_of_ascii c <=? N_of_ascii (snd r))%N.

Definition in_class (c : ascii) (ranges : list (ascii * ascii)) : bool :=
  existsb (in_range c) ranges.

Fixpoint nullable (r : re) : bool :=
  match r with
  | Empty => false
  | Eps => true
  | Class _ => false
  | Seq r1 r2 => nullable r1 && nullable r2
  | Alt r1 r2 => nullable r1 || nullable r2
  | Star _ => true
  end.

Fixpoint deriv (c : ascii) (r : re) : re :=
  match r with
  | Empty => Empty
  | Eps => Empty
  | Class rs => if in_class c rs then Eps else Empty
  | Seq r1 r2 =>
      if nullable r1 then Alt (Seq (deriv c r1) r2) (deriv c r2)
      else Seq (deriv c r1) r2
  | Alt r1 r2 => Alt (deriv c r1) (deriv c r2)
  | Star r1 => Seq (deriv c r1) (Star r1)
  end.

(** [MatchString] for a pattern anchored at both ends. *)
Fixpoint MatchString (r : re) (s : string) : bool :=
  match s with
  | EmptyString => nullable r
  | String c s' => MatchString (deriv c r) s'
  end.

End Regexp.

Definition letters : list (ascii * ascii) :=
  [("a", "z"); ("A", "Z")]%char.

Definition word_chars : list (ascii * ascii) :=
  [("a", "z"); ("A", "Z"); ("0", "9"); ("_", "_")]%char.

Definition fieldNameRe : Regexp.re :=
  Regexp.Seq (Regexp.Class letters) (Regexp.Star (Regexp.Class word_chars)).

(** The field-name grammar as the specification words it: one ASCII letter,
    then any number of ASCII letters, digits and underscores. *)
Definition is_letter (c : ascii) : bool :=
  let n := N_of_ascii c in
  ((97 <=? n) && (n <=? 122) || (65 <=? n) && (n <=? 90))%N.

Definition is_digit (c : ascii) : bool :=
  let n := N_of_ascii c in ((48 <=? n) && (n <=? 57))%N.

Definition is_word_char (c : ascii) : bool :=
  is_letter c || is_digit c || (N_of_ascii c =? 95)%N.

Definition field_name_grammar (s : string) : bool :=
  match s with
  | EmptyString => false
  | String c rest => is_letter c && forallb is_word_char (list_ascii_of_string rest)
  end.

(** ** Failures

    [d.Exp.True] and [d.Chk.*] panic; a panic is modelled as an error
    result. *)
Inductive failure : Set :=
  | InvalidFieldName      (* d.Exp.True(fieldNameRe.MatchString(name), ...) *)
  | CheckFailed.          (* d.Chk.Fail / d.Chk.IsType *)

Inductive result (A : Type) : Type :=
  | Ok (a : A)
  | Panic (e : failure).
Arguments Ok {A} a.
Arguments Panic {A} e.

Definition verifyFieldName (name : string) : result unit :=
  if Regexp.MatchString fieldNameRe name then Ok tt else Panic InvalidFieldName.

(** ** Types

    [type Type struct { Desc TypeDesc; ref *ref.Ref }].  A [*Type] is a
    pointer; struct types are made cyclic by storing a pointer to the struct
    type in its own field map, so type objects live in a heap and refer to
    each other by address.  The [ref] field only memoises [Ref()] and is not
    kept. *)
Abbreviation TypePtr := nat (only parsing).

Inductive TypeDesc : Type :=
  | PrimitiveDesc (k : NomsKind)
  | CompoundDesc (k : NomsKind) (ElemTypes : list TypePtr)
  | StructDesc (Name : string) (Fields : gmap string TypePtr).

#[global] Instance TypeDesc_eq_dec : EqDecision TypeDesc.
Proof. solve_decision. Defined.

Abbreviation TypeHeap := (list TypeDesc).

(** [TypeDesc.Kind()] *)
Definition Kind (t : TypeDesc) : NomsKind :=
  match t with
  | PrimitiveDesc k => k
  | CompoundDesc k _ => k
  | StructDesc _ _ => StructKind
  end.

Definition IsOrdered (t : TypeDesc) : bool :=
  match Kind t with
  | NumberKind | StringKind | RefKind => true
  | _ => false
  end.

(** [d.Chk.IsType(StructDesc{}, t.Desc, ...)] then [t.Desc.(StructDesc).Name] *)
Definition Name (t : TypeDesc) : result string :=
  match t with
  | StructDesc name _ => Ok name
  | _ => Panic CheckFailed
  end.

(** Modelled from the spec: [StructDesc.IterFields], which is not among the
    sources.  Fields are visited in the canonical field order; the encodings
    expected by the test-suite list the fields by ascending name, whatever
    the order they were written in. *)
Definition sortedNames (fields : gmap string TypePtr) : list string :=
  merge_sort String.le (map fst (map_to_list fields)).

Definition IterFields (fields : gmap string TypePtr) : list (string * TypePtr) :=
  omap (fun n => pair n <$> fields !! n) (sortedNames fields).

(** *** Package-level singletons, in initialisation order *)
Definition typeForType : TypePtr := 0.
Definition NumberType : TypePtr := 1.
Definition BoolType : TypePtr := 2.
Definition StringType : TypePtr := 3.
Definition BlobType : TypePtr := 4.
Definition TypeType : TypePtr := 5.
Definition ValueType : TypePtr := 6.

Definition init_heap : TypeHeap :=
  [ PrimitiveDesc TypeKind; PrimitiveDesc NumberKind; PrimitiveDesc BoolKind;
    PrimitiveDesc StringKind; PrimitiveDesc BlobKind; PrimitiveDesc TypeKind;
    PrimitiveDesc ValueKind ].

(** [buildType] allocates a fresh type object. *)
Definition buildType (desc : TypeDesc) (h : TypeHeap) : TypePtr * TypeHeap :=
  (length h, h ++ [desc]).

Definition makePrimitiveType (k : NomsKind) (h : TypeHeap) : TypePtr * TypeHeap :=
  buildType (PrimitiveDesc k) h.

Definition MakePrimitiveType (k : NomsKind) : result TypePtr :=
  match k with
  | BoolKind => Ok BoolType
  | NumberKind => Ok NumberType
  | StringKind => Ok StringType
  | BlobKind => Ok BlobType
  | ValueKind => Ok ValueType
  | TypeKind => Ok TypeType
  | _ => Panic CheckFailed
  end.

(** [for fn := range fields { verifyFieldName(fn) }]: the first name that
    does not match panics; which one is met first does not change whether
    the call panics. *)
Fixpoint verifyFieldNames (names : list string) : result unit :=
  match names with
  | [] => Ok tt
  | n :: rest =>
      match verifyFieldName n with
      | Ok _ => verifyFieldNames rest
      | Panic e => Panic e
      end
  end.

Definition MakeStructType (name : string) (fields : gmap string TypePtr)
    (h : TypeHeap) : result (TypePtr * TypeHeap) :=
  match verifyFieldNames (map fst (map_to_list fields)) with
  | Ok _ => Ok (buildType (StructDesc name fields) h)
  | Panic e => Panic e
  end.

Definition MakeListType (elemType : TypePtr) (h : TypeHeap) : TypePtr * TypeHeap :=
  buildType (CompoundDesc ListKind [elemType]) h.

Definition MakeSetType (elemType : TypePtr) (h : TypeHeap) : TypePtr * TypeHeap :=
  buildType (CompoundDesc SetKind [elemType]) h.

Definition MakeMapType (keyType valType : TypePtr) (h : TypeHeap) : TypePtr * TypeHeap :=
  buildType (CompoundDesc MapKind [keyType; valType]) h.

Definition MakeRefType (elemType : TypePtr) (h : TypeHeap) : TypePtr * TypeHeap :=
  buildType (CompoundDesc RefKind [elemType]) h.

(** [structType.desc.fields[name] = t] / [Desc.(StructDesc).Fields[name] = t]:
    the field map of a struct type is shared and updated in place. *)
Definition setField (s : TypePtr) (name : string) (t : TypePtr) (h : TypeHeap) : TypeHeap :=
  match h !! s with
  | Some (StructDesc n fields) => <[s := StructDesc n (<[name := t]> fields)]> h
  | _ => h
  end.

(** ** Values *)

(** A Number is an IEEE-754 double; [spec_float] is the Standard Library's
    specification of them (signed zeros, infinities, NaN, finite numbers). *)
Abbreviation number := spec_float (only parsing).

Definition number_of_Z (z : Z) : number := binary_normalize 53 1024 z 0 false.

#[global] Instance number_eq_dec : EqDecision number.
Proof. solve_decision. Defined.

#[global] Instance byte_eq_dec : EqDecision Byte.byte := Byte.byte_eq_dec.

(** The external (string) form of a content address. *)
Abbreviation Hash := string (only parsing).


(** A collection is its type and its sequence ([List.fromSequence(seq)]): the
    kind of the type tells a List from a Set or a Blob, the sequence is a
    leaf sequence of items or a meta sequence of tuples.  A [MetaTuple] is
    [(ref, value, numLeaves)]; its child is left unresolved. *)
#[local] Unset Elimination Schemes.
Inductive Value : Type :=
  | VBool (b : bool)
  | VNumber (n : number)
  | VString (s : string)
  | VBlob (bytes : list Byte.byte)
  | VLeaf (t : TypePtr) (items : list Value)
  | VMapLeaf (t : TypePtr) (entries : list (Value * Value))
  | VMeta (t : TypePtr) (tuples : list (Value * Value * N))
  | VStruct (t : TypePtr) (data : list (string * Value))
  | VRef (t : TypePtr) (targetHash : Hash) (height : N)
  | VType (t : TypePtr).
#[local] Set Elimination Schemes.

(** [getTypeOfValue] / [v.Type()] *)
Definition typeOf (v : Value) : TypePtr :=
  match v with
  | VBool _ => BoolType
  | VNumber _ => NumberType
  | VString _ => StringType
  | VBlob _ => BlobType
  | VLeaf t _ | VMapLeaf t _ | VMeta t _ | VStruct t _ | VRef t _ _ => t
  | VType _ => typeForType
  end.

(** ** The stream of the test-suite

    [TestWriter] pushes every item written on an array, tagged with its
    width where the item is a number; [TestReader] reads the array back and
    checks the tag of what it reads. *)
Inductive token : Type :=
  | uint8 (v : NomsKind)
  | uint32 (v : N)
  | uint64 (v : N)
  | float64 (v : number)
  | Tbool (v : bool)
  | Tstring (v : string)
  | Tbytes (v : list Byte.byte).

#[global] Instance token_eq_dec : EqDecision token.
Proof. solve_decision. Defined.

Module TestWriter.
Definition t := list token.
Definition write (v : token) (a : t) : t := a ++ [v].
Definition writeBytes (v : list Byte.byte) := write (Tbytes v).
Definition writeUint8 (v : NomsKind) := write (uint8 v).
Definition writeUint32 (v : N) := write (uint32 v).
Definition writeUint64 (v : N) := write (uint64 v).
Definition writeFloat64 (v : number) := write (float64 v).
Definition writeBool (v : bool) := write (Tbool v).
Definition writeString (v : string) := write (Tstring v).
Definition writeHash (h : Hash) := writeString h.
Definition toArray (a : t) : list token := a.
End TestWriter.

Module TestReader.
(** The part of the array not yet read. *)
Definition t := list token.
Definition atEnd (r : t) : bool := match r with [] => true | _ => false end.
Definition read (r : t) : option (token * t) :=
  match r with [] => None | v :: r' => Some (v, r') end.
Definition readBytes (r : t) : option (list Byte.byte * t) :=
  match read r with Some (Tbytes v, r') => Some (v, r') | _ => None end.
Definition readUint8 (r : t) : option (NomsKind * t) :=
  match read r with Some (uint8 v, r') => Some (v, r') | _ => None end.
Definition readUint32 (r : t) : option (N * t) :=
  match read r with Some (uint32 v, r') => Some (v, r') | _ => None end.
Definition readUint64 (r : t) : option (N * t) :=
  match read r with Some (uint64 v, r') => Some (v, r') | _ => None end.
Definition readFloat64 (r : t) : option (number * t) :=
  match read r with Some (float64 v, r') => Some (v, r') | _ => None end.
Definition readBool (r : t) : option (bool * t) :=
  match read r with Some (Tbool v, r') => Some (v, r') | _ => None end.
Definition readString (r : t) : option (string * t) :=
  match read r with Some (Tstring v, r') => Some (v, r') | _ => None end.
Definition readHash (r : t) : option (Hash * t) := readString r.
End TestReader.

(** ** The encoder

    Modelled from the spec: [ValueEncoder], which is not among the sources;
    the grammar is the one of the codec section, in the layout the
    encodings expected by the test-suite show.  A value is written as its
    type followed by its payload; a type is written with the stack of the
    struct types being written around it. *)

Fixpoint indexOf (ps : list TypePtr) (t : TypePtr) : option nat :=
  match ps with
  | [] => None
  | p :: ps' => if decide (p = t) then Some 0 else S <$> indexOf ps' t
  end.

(** What a run of writes leaves in the writer, started empty. *)
Definition written (ws : list (TestWriter.t -> TestWriter.t)) : list token :=
  TestWriter.toArray (fold_left (fun a w => w a) ws []).

Fixpoint writeType (fuel : nat) (h : TypeHeap) (t : TypePtr)
    (parentStructTypes : list TypePtr) {struct fuel} : option (list token) :=
  match fuel with
  | O => None
  | S fuel' =>
      match h !! t with
      | None => None
      | Some (PrimitiveDesc k) => Some (written [TestWriter.writeUint8 k])
      | Some (CompoundDesc k elemTypes) =>
          es ← mapM (fun e => writeType fuel' h e parentStructTypes) elemTypes;
          Some (written
                  (TestWriter.writeUint8 k ::
                   (if decide (k = UnionKind)
                    then [TestWriter.writeUint32 (N.of_nat (length elemTypes))]
                    else []))
                ++ concat es)
      | Some (StructDesc name fields) =>
          match indexOf parentStructTypes t with
          | Some i =>
              Some (written
                      [TestWriter.writeUint8 CycleKind;
                       TestWriter.writeUint32
                         (N.of_nat (length parentStructTypes - 1 - i))])
          | None =>
              fs ← mapM (fun '(n, ft) =>
                           e ← writeType fuel' h ft (parentStructTypes ++ [t]);
                           Some (written [TestWriter.writeString n] ++ e))
                        (IterFields fields);
              Some (written
                      [TestWriter.writeUint8 StructKind;
                       TestWriter.writeString name;
                       TestWriter.writeUint32 (N.of_nat (length (IterFields fields)))]
                    ++ concat fs)
          end
      end
  end.

(** The walk is as deep as the type graph lets it be; on a heap of [n]
    objects whose compound types were built after their element types it is
    never deeper than [(n+1)^2], and a walk that would be deeper does not
    end. *)
Definition typeFuel (h : TypeHeap) : nat := S (length h) * S (length h).

Definition encodeType (h : TypeHeap) (t : TypePtr) : option (list token) :=
  writeType (typeFuel h) h t [].

(** [data[name]] on the object of a struct value. *)
Fixpoint assoc {B : Type} (n : string) (l : list (string * B)) : option B :=
  match l with
  | [] => None
  | (m, b) :: l' => if decide (m = n) then Some b else assoc n l'
  end.

Fixpoint writeValue (h : TypeHeap) (v : Value) {struct v} : option (list token) :=
  hdr ← encodeType h (typeOf v);
  d ← h !! typeOf v;
  body ←
    match Kind d, v with
    | BoolKind, VBool b => Some (written [TestWriter.writeBool b])
    | NumberKind, VNumber n => Some (written [TestWriter.writeFloat64 n])
    | StringKind, VString s => Some (written [TestWriter.writeString s])
    | BlobKind, VBlob bytes =>
        Some (written [TestWriter.writeBool false; TestWriter.writeBytes bytes])
    | BlobKind, VMeta _ tuples
    | ListKind, VMeta _ tuples
    | SetKind, VMeta _ tuples =>
        ts ← mapM (fun '(ref, key, numLeaves) =>
                     a ← writeValue h ref;
                     b ← writeValue h key;
                     Some (a ++ b ++ written [TestWriter.writeUint64 numLeaves]))
                  tuples;
        Some (written [TestWriter.writeBool true;
                       TestWriter.writeUint32 (N.of_nat (length tuples))]
              ++ concat ts)
    | ListKind, VLeaf _ items
    | SetKind, VLeaf _ items =>
        es ← mapM (writeValue h) items;
        Some (written [TestWriter.writeBool false;
                       TestWriter.writeUint32 (N.of_nat (length items))]
              ++ concat es)
    | MapKind, VMapLeaf _ entries =>
        es ← mapM (fun '(k, x) =>
                     a ← writeValue h k; b ← writeValue h x; Some (a ++ b))
                  entries;
        Some (written [TestWriter.writeBool false;
                       TestWriter.writeUint32 (N.of_nat (length entries))]
              ++ concat es)
    | RefKind, VRef _ target height =>
        Some (written [TestWriter.writeHash target; TestWriter.writeUint64 height])
    | StructKind, VStruct _ data =>
        match d with
        | StructDesc _ fields =>
            let written_data := (fun '(n, x) => (n, writeValue h x)) <$> data in
            bs ← mapM (fun n => mjoin (assoc n written_data))
                      (IterFields fields).*1;
            Some (concat bs)
        | _ => None
        end
    | TypeKind, VType t => encodeType h t
    | _, _ => None
    end;
  Some (hdr ++ body).

Definition encodeValue (v : Value) (h : TypeHeap) : option (list token) :=
  writeValue h v.

(** ** The decoder

    Modelled from the spec: [ValueDecoder], which is not among the sources.
    It mirrors the encoder: it reads the type, dispatches on its kind and
    reads the payload.  A struct type is allocated before its fields are
    read and filled in as they are read, so that a [Cycle] marker resolves
    to the enclosing struct type object itself.  Malformed input (wrong or
    missing item, a field name outside the grammar, a field count that the
    fields read do not match) makes the read fail. *)

Abbreviation reading A :=
  (TestReader.t -> TypeHeap -> option (A * TestReader.t * TypeHeap)) (only parsing).

(** [for (let i = 0; i < n; i++) items.push(readOne())] *)
Definition readN {A : Type} (readOne : reading A) : nat -> reading (list A) :=
  fix go (n : nat) (r : TestReader.t) (h : TypeHeap) :=
    match n with
    | O => Some ([], r, h)
    | S n' =>
        '(x, r, h) ← readOne r h;
        '(xs, r, h) ← go n' r h;
        Some (x :: xs, r, h)
    end.

(** [fields[readString()] = readType(parentStructTypes)], [n] times, on the
    field map of the struct type [st]. *)
Definition readFields (readOne : reading TypePtr) (st : TypePtr)
    : nat -> TestReader.t -> TypeHeap -> option (TestReader.t * TypeHeap) :=
  fix go (n : nat) (r : TestReader.t) (h : TypeHeap) :=
    match n with
    | O => Some (r, h)
    | S n' =>
        '(fieldName, r) ← TestReader.readString r;
        match verifyFieldName fieldName with
        | Panic _ => None
        | Ok _ =>
            '(ft, r, h) ← readOne r h;
            go n' r (setField st fieldName ft h)
        end
    end.

Fixpoint readType (fuel : nat) (parentStructTypes : list TypePtr)
    (r : TestReader.t) (h : TypeHeap) {struct fuel}
    : option (TypePtr * TestReader.t * TypeHeap) :=
  match fuel with
  | O => None
  | S fuel' =>
      '(k, r) ← TestReader.readUint8 r;
      match k with
      | BoolKind | NumberKind | StringKind | BlobKind | ValueKind | TypeKind =>
          match MakePrimitiveType k with
          | Ok t => Some (t, r, h)
          | Panic _ => None
          end
      | ListKind | SetKind | RefKind =>
          '(ts, r, h) ← readN (readType fuel' parentStructTypes) 1 r h;
          let '(t, h) := buildType (CompoundDesc k ts) h in
          Some (t, r, h)
      | MapKind =>
          '(ts, r, h) ← readN (readType fuel' parentStructTypes) 2 r h;
          let '(t, h) := buildType (CompoundDesc k ts) h in
          Some (t, r, h)
      | UnionKind =>
          '(len, r) ← TestReader.readUint32 r;
          '(ts, r, h) ← readN (readType fuel' parentStructTypes) (N.to_nat len) r h;
          let '(t, h) := buildType (CompoundDesc UnionKind ts) h in
          Some (t, r, h)
      | StructKind =>
          '(name, r) ← TestReader.readString r;
          '(count, r) ← TestReader.readUint32 r;
          let '(st, h) := buildType (StructDesc name ∅) h in
          '(r, h) ← readFields (readType fuel' (parentStructTypes ++ [st])) st
                               (N.to_nat count) r h;
          match h !! st with
          | Some (StructDesc _ fields) =>
              if decide (size fields = N.to_nat count) then Some (st, r, h) else None
          | _ => None
          end
      | CycleKind =>
          '(i, r) ← TestReader.readUint32 r;
          t ← parentStructTypes !! (length parentStructTypes - 1 - N.to_nat i);
          if decide (N.to_nat i < length parentStructTypes) then Some (t, r, h) else None
      end
  end.

(** One tuple of a meta sequence, one entry of a map, a whole meta
    sequence, given how a value is read. *)
Definition readMetaTuple (readValue : reading Value) : reading (Value * Value * N) :=
  fun r h =>
    '(ref, r, h) ← readValue r h;
    '(key, r, h) ← readValue r h;
    '(numLeaves, r) ← TestReader.readUint64 r;
    Some ((ref, key, numLeaves), r, h).

Definition readEntry (readValue : reading Value) : reading (Value * Value) :=
  fun r h =>
    '(k, r, h) ← readValue r h;
    '(v, r, h) ← readValue r h;
    Some ((k, v), r, h).

Definition readMetaSequence (readValue : reading Value) (t : TypePtr) : reading Value :=
  fun r h =>
    '(len, r) ← TestReader.readUint32 r;
    '(ts, r, h) ← readN (readMetaTuple readValue) (N.to_nat len) r h;
    Some (VMeta t ts, r, h).

Fixpoint readValue (fuel : nat) (r : TestReader.t) (h : TypeHeap) {struct fuel}
    : option (Value * TestReader.t * TypeHeap) :=
  match fuel with
  | O => None
  | S fuel' =>
      '(t, r, h) ← readType fuel' [] r h;
      d ← h !! t;
      match Kind d with
      | BoolKind => '(b, r) ← TestReader.readBool r; Some (VBool b, r, h)
      | NumberKind => '(n, r) ← TestReader.readFloat64 r; Some (VNumber n, r, h)
      | StringKind => '(s, r) ← TestReader.readString r; Some (VString s, r, h)
      | BlobKind =>
          '(isMeta, r) ← TestReader.readBool r;
          if (isMeta : bool) then readMetaSequence (readValue fuel') t r h
          else '(bytes, r) ← TestReader.readBytes r; Some (VBlob bytes, r, h)
      | ListKind | SetKind =>
          '(isMeta, r) ← TestReader.readBool r;
          if (isMeta : bool) then readMetaSequence (readValue fuel') t r h
          else
            '(len, r) ← TestReader.readUint32 r;
            '(items, r, h) ← readN (readValue fuel') (N.to_nat len) r h;
            Some (VLeaf t items, r, h)
      | MapKind =>
          '(isMeta, r) ← TestReader.readBool r;
          if (isMeta : bool) then None
          else
            '(len, r) ← TestReader.readUint32 r;
            '(entries, r, h) ← readN (readEntry (readValue fuel')) (N.to_nat len) r h;
            Some (VMapLeaf t entries, r, h)
      | RefKind =>
          '(target, r) ← TestReader.readHash r;
          '(height, r) ← TestReader.readUint64 r;
          Some (VRef t target height, r, h)
      | StructKind =>
          match d with
          | StructDesc _ fields =>
              let names := (IterFields fields).*1 in
              '(vs, r, h) ← readN (readValue fuel') (length names) r h;
              Some (VStruct t (zip names vs), r, h)
          | _ => None
          end
      | TypeKind => '(ty, r, h) ← readType fuel' [] r h; Some (VType ty, r, h)
      | CycleKind | UnionKind | ValueKind => None
      end
  end.

(** Every nested read takes at least one item off the stream, so the reads
    are never nested deeper than the stream is long. *)
Definition decodeValue (c : list token) (h : TypeHeap) : option (Value * TypeHeap) :=
  '(v, _, h') ← readValue (S (length c)) c h;
  Some (v, h').

(** ** Content addresses, equality and unions *)

(** [func (t *Type) Chunks() (chunks []Ref) { return }] *)
Definition Chunks (t : TypeDesc) : list Value := [].

Definition ChildValues (t : TypeDesc) : list Value :=
  match t with
  | CompoundDesc _ elemTypes => VType <$> elemTypes
  | StructDesc _ fields => (fun '(_, ft) => VType ft) <$> IterFields fields
  | PrimitiveDesc _ => []
  end.

Section ContentAddress.

(** The digest of an encoding ([ref] package) and the order of digests
    ([ref.Ref.Less]) are taken as given. *)
Variable computeHash : list token -> Hash.
Variable Less : Hash -> Hash -> bool.

(** [sort.Sort] is taken as given, with what its documentation promises:
    it permutes the slice, and the result is in ascending order when the
    comparison is a strict weak order. *)
Variable sortSlice : (TypePtr -> TypePtr -> bool) -> list TypePtr -> list TypePtr.

(** Modelled from the spec: [EnsureRef], which is not among the sources.
    The content address of a value is the digest of its canonical
    encoding; there is none when the encoder does not come back. *)
Definition EnsureRef (h : TypeHeap) (v : Value) : option Hash :=
  computeHash <$> encodeValue v h.

(** [func (t *Type) Ref() ref.Ref { return EnsureRef(t.ref, t) }] *)
Definition Ref (h : TypeHeap) (t : TypePtr) : option Hash :=
  EnsureRef h (VType t).

(** [other != nil && t.Ref() == other.Ref()] *)
Definition Equals (h : TypeHeap) (t : TypePtr) (other : option Value) : option bool :=
  match other with
  | None => Some false
  | Some o =>
      a ← Ref h t;
      b ← EnsureRef h o;
      Some (bool_decide (a = b))
  end.

(** [uts[i].Ref().Less(uts[j].Ref())] *)
Definition unionTypes_Less (h : TypeHeap) (ti tj : TypePtr) : bool :=
  match Ref h ti, Ref h tj with
  | Some a, Some b => Less a b
  | _, _ => false
  end.

(** [sort.Sort] compares every element of a slice of two or more, and
    none of a shorter slice; with two or more members the call comes back
    only if every [Ref()] does. *)
Definition MakeUnionType (elemType : list TypePtr) (h : TypeHeap)
    : option (TypePtr * TypeHeap) :=
  if decide (length elemType < 2) then
    Some (buildType (CompoundDesc UnionKind elemType) h)
  else if forallb (fun t => bool_decide (is_Some (Ref h t))) elemType then
    Some (buildType (CompoundDesc UnionKind (sortSlice (unionTypes_Less h) elemType)) h)
  else None.

(** Modelled from the spec: [equals] of [compare.js], which is not among
    the sources.  Equality is structural: booleans, numbers and strings
    are compared as such, the sign of a zero being insignificant, and
    every other value by the content address of its canonical encoding. *)
Definition is_zero (n : number) : bool :=
  match n with S754_zero _ => true | _ => false end.

Definition number_equals (a b : number) : bool :=
  bool_decide (a = b) || is_zero a && is_zero b.

Definition equals (h : TypeHeap) (v1 v2 : Value) : option bool :=
  match v1, v2 with
  | VBool a, VBool b => Some (bool_decide (a = b))
  | VNumber a, VNumber b => Some (number_equals a b)
  | VString a, VString b => Some (bool_decide (a = b))
  | (VBool _ | VNumber _ | VString _), _
  | _, (VBool _ | VNumber _ | VString _) => Some false
  | _, _ =>
      a ← EnsureRef h v1;
      b ← EnsureRef h v2;
      Some (bool_decide (a = b))
  end.

End ContentAddress.

(** [newStruct(name, data)]: the struct type is made from the types of the
    values, and the value keeps the object it was given. *)
Definition newStruct (name : string) (data : list (string * Value)) (h : TypeHeap)
    : result (Value * TypeHeap) :=
  match MakeStructType name (list_to_map ((fun '(n, v) => (n, typeOf v)) <$> data)) h with
  | Ok (t, h') => Ok (VStruct t data, h')
  | Panic e => Panic e
  end.

(** ** Well-formed heaps

    The package singletons are in place; a primitive, compound or union
    description has a kind of its sort and as many element types as its kind
    takes; an element type was built before the compound type it is in (the
    element types are given to the constructor), while the field map of a
    struct type may point anywhere in the heap, also back to the struct type
    itself; field names match the grammar. *)
Definition is_primitive_kind (k : NomsKind) : bool :=
  match k with
  | BoolKind | NumberKind | StringKind | BlobKind | ValueKind | TypeKind => true
  | _ => false
  end.

Definition compound_arity_ok (k : NomsKind) (n : nat) : bool :=
  match k with
  | ListKind | SetKind | RefKind => bool_decide (n = 1)
  | MapKind => bool_decide (n = 2)
  | UnionKind => true
  | _ => false
  end.

Definition wf_desc (h : TypeHeap) (p : TypePtr) (d : TypeDesc) : bool :=
  match d with
  | PrimitiveDesc k => is_primitive_kind k
  | CompoundDesc k elemTypes =>
      compound_arity_ok k (length elemTypes)
      && forallb (fun e => bool_decide (e < p)) elemTypes
  | StructDesc _ fields =>
      forallb (fun '(n, ft) => Regexp.MatchString fieldNameRe n
                                && bool_decide (ft < length h))
              (map_to_list fields)
  end.

Definition wf_heap (h : TypeHeap) : bool :=
  bool_decide (take (length init_heap) h = init_heap)
  && forallb (fun '(p, d) => wf_desc h p d) (imap pair h).

(** ** The batch store

    [chunks.ChunkStore] is an interface of another package: a store is any
    state with the three operations the adaptor calls. *)
Record Chunk : Set := mkChunk { chunk_ref : Hash; chunk_data : list Byte.byte }.

Definition EmptyChunk : Chunk := mkChunk "" [].

Class ChunkStore (S : Type) : Type := {
  cs_Get : Hash -> S -> Chunk;
  cs_Put : Chunk -> S -> S;
  cs_Close : S -> option string * S   (* the error returned, and the store *)
}.

(** [type Hints map[ref.Ref]struct{}] *)
Abbreviation Hints := (gset Hash).

Section BatchStoreAdaptor.
Context {S : Type} `{ChunkStore S}.

Record BatchStoreAdaptor : Type := NewBatchStoreAdaptor { cs : S }.

Definition Get (ref : Hash) (lbs : BatchStoreAdaptor) : Chunk :=
  cs_Get ref (cs lbs).

Definition SchedulePut (c : Chunk) (hints : Hints) (lbs : BatchStoreAdaptor)
    : BatchStoreAdaptor :=
  NewBatchStoreAdaptor (cs_Put c (cs lbs)).

Definition Flush (lbs : BatchStoreAdaptor) : BatchStoreAdaptor := lbs.

Definition Close (lbs : BatchStoreAdaptor) : option string * BatchStoreAdaptor :=
  let lbs := Flush lbs in
  let '(err, s) := cs_Close (cs lbs) in
  (err, NewBatchStoreAdaptor s).

(** A client that schedules chunks one after the other. *)
Definition scheduleAll (puts : list (Chunk * Hints)) (lbs : BatchStoreAdaptor)
    : BatchStoreAdaptor :=
  fold_left (fun l '(c, hints) => SchedulePut c hints l) puts lbs.

End BatchStoreAdaptor.
Arguments BatchStoreAdaptor S : clear implicits.

(** A store that records what it is asked to do: chunks by address, whether
    it was closed, and the calls in the order they came. *)
Inductive store_call : Set :=
  | CallPut (c : Chunk)
  | CallClose.

Record MemoryStore : Type := mkMemoryStore {
  ms_data : gmap Hash Chunk;
  ms_closed : bool;
  ms_calls : list store_call
}.

#[global] Instance MemoryStore_ChunkStore : ChunkStore MemoryStore := {
  cs_Get r s := default EmptyChunk (ms_data s !! r);
  cs_Put c s :=
    mkMemoryStore (<[chunk_ref c := c]> (ms_data s)) (ms_closed s)
                  (ms_calls s ++ [CallPut c]);
  cs_Close s :=
    (None, mkMemoryStore (ms_data s) true (ms_calls s ++ [CallClose]))
}.

Definition emptyStore : MemoryStore := mkMemoryStore ∅ false [].

(** ** Relations between heaps

    [Encodes h ps t x]: the walk of type [t] with the stack [ps] of struct
    types being written comes back with [x]. *)
Definition Encodes (h : TypeHeap) (ps : list TypePtr) (t : TypePtr) (x : list token) : Prop :=
  exists fuel, writeType fuel h t ps = Some x.

Definition is_struct (d : TypeDesc) : Prop :=
  match d with StructDesc _ _ => True | _ => False end.

(** [agree ps h h']: every object of [h] is the same in [h'], except that
    the struct types of [ps] may have had their field map updated. *)
Definition agree (ps : list TypePtr) (h h' : TypeHeap) : Prop :=
  forall p d, h !! p = Some d ->
    h' !! p = Some d
    \/ (p ∈ ps /\ is_struct d /\ exists d', h' !! p = Some d' /\ is_struct d').

(** The stack of a walk: distinct struct types of the heap. *)
Definition stack_ok (h : TypeHeap) (ps : list TypePtr) : Prop :=
  NoDup ps /\ forall p, p ∈ ps -> exists d, h !! p = Some d /\ is_struct d.

(** How many objects of a heap of [n] are not on the stack. *)
Definition free (ps : list TypePtr) (n : nat) : nat :=
  length (filter (fun p => p ∉ ps) (seq 0 n)).

(** What reading back the encoding [x] of a type has to achieve, from any
    well-formed heap: the type read is in the heap, which has only grown,
    and its walk writes [x] again. *)
Definition decodes_type (fuel : nat) (ps : list TypePtr) (x : list token) : Prop :=
  forall h rest, wf_heap h = true -> stack_ok h ps ->
    exists t l,
      readType fuel ps (x ++ rest) h = Some (t, rest, h ++ l)
      /\ wf_heap (h ++ l) = true
      /\ Encodes (h ++ l) ps t x.

(** ** Well-formed values

    A collection, struct or ref carries a type of its kind; a struct value
    has a value for every field of its type; a type value points into the
    heap. *)
Definition is_collection_kind (k : NomsKind) : bool :=
  match k with BlobKind | ListKind | SetKind => true | _ => false end.

Fixpoint wf_value (h : TypeHeap) (v : Value) {struct v} : bool :=
  match v with
  | VBool _ | VNumber _ | VString _ | VBlob _ => true
  | VLeaf t items =>
      match h !! t with
      | Some (CompoundDesc (ListKind | SetKind) _) => forallb (wf_value h) items
      | _ => false
      end
  | VMapLeaf t entries =>
      match h !! t with
      | Some (CompoundDesc MapKind _) =>
          forallb (fun '(k, x) => wf_value h k && wf_value h x) entries
      | _ => false
      end
  | VMeta t tuples =>
      match h !! t with
      | Some d =>
          is_collection_kind (Kind d)
          && forallb (fun '(ref, key, _) => wf_value h ref && wf_value h key) tuples
      | None => false
      end
  | VStruct t data =>
      match h !! t with
      | Some (StructDesc _ fields) =>
          forallb (fun n => bool_decide (is_Some (assoc n data))) (IterFields fields).*1
          && forallb (fun '(_, x) => wf_value h x) data
      | _ => false
      end
  | VRef t _ _ =>
      match h !! t with
      | Some (CompoundDesc RefKind _) => true
      | _ => false
      end
  | VType t => bool_decide (t < length h)
  end.

(** A value is read back as a value of the same sort, and a boolean, number
    or string as itself. *)
Definition is_prim_value (v : Value) : bool :=
  match v with VBool _ | VNumber _ | VString _ => true | _ => false end.

Definition value_tag (v : Value) : nat :=
  match v with
  | VBool _ => 0 | VNumber _ => 1 | VString _ => 2 | VBlob _ => 3
  | VLeaf _ _ => 4 | VMapLeaf _ _ => 5 | VMeta _ _ => 6 | VStruct _ _ => 7
  | VRef _ _ _ => 8 | VType _ => 9
  end.

Definition same_prim (v v2 : Value) : Prop :=
  value_tag v2 = value_tag v /\ (is_prim_value v = true -> v2 = v).

(** What reading back the encoding [x] of the value [v] has to achieve. *)
Definition decodes_value (fuel : nat) (x : list token) (v : Value) : Prop :=
  forall h rest, wf_heap h = true ->
    exists v2 l,
      readValue fuel (x ++ rest) h = Some (v2, rest, h ++ l)
      /\ wf_heap (h ++ l) = true
      /\ writeValue (h ++ l) v2 = Some x
      /\ same_prim v v2.

(** ** The encoder, in parts

    [with_type h t body]: the type [t], then the payload its description
    asks for; one tuple of a meta sequence; one entry of a map. *)
Definition with_type (h : TypeHeap) (t : nat)
    (body : TypeDesc -> option (list token)) : option (list token) :=
  hdr ← encodeType h t; d ← h !! t; b ← body d; Some (hdr ++ b).

Definition writeTuple (h : TypeHeap) (tp : Value * Value * N) : option (list token) :=
  a ← writeValue h tp.1.1; b ← writeValue h tp.1.2; Some (a ++ b ++ [uint64 tp.2]).

Definition writeEntry (h : TypeHeap) (kv : Value * Value) : option (list token) :=
  a ← writeValue h kv.1; b ← writeValue h kv.2; Some (a ++ b).

(** ** Values and types of the test-suites

    [test_heap]: the package singletons and, after them, the types the
    encoding tests build, among them [struct A6 {cs: List<A6>, v: Number}]
    of the JavaScript suite and [RecursiveStruct {self: RecursiveStruct}] of
    the Go suite, both made cyclic by an assignment to the field map. *)
Definition test_heap : TypeHeap :=
  init_heap ++
  [ (* 7 *) CompoundDesc ListKind [NumberType];
    (* 8 *) CompoundDesc RefKind [7];
    (* 9 *) StructDesc "A6" (list_to_map [("v", NumberType); ("cs", 10)]);
    (* 10 *) CompoundDesc ListKind [9];
    (* 11 *) CompoundDesc SetKind [StringType];
    (* 12 *) CompoundDesc UnionKind [];
    (* 13 *) CompoundDesc ListKind [12];
    (* 14 *) StructDesc "S" (list_to_map [("x", NumberType); ("b", BoolType)]);
    (* 15 *) StructDesc "T"
               (list_to_map [("flag", BoolType); ("nums", 7); ("big", 7); ("ref", 8);
                             ("names", 11); ("zero", NumberType); ("rec", 9);
                             ("s", 14)]);
    (* 16 *) StructDesc "RecursiveStruct" (list_to_map [("self", 16)]);
    (* 17 *) StructDesc "MahStruct"
               (list_to_map [("Field1", StringType); ("Field2", BoolType)])
  ].

Definition num (z : Z) : Value := VNumber (number_of_Z z).

Definition neg_zero : Value := VNumber (S754_zero true).

Definition f64 (z : Z) : token := float64 (number_of_Z z).

(** A struct value with a boolean, a leaf list with both zeros and
    [1e18], [1e19], [1e20], a list with a meta sequence of two chunks, a
    ref, a set of strings (empty, ASCII, four-byte UTF-8), a negative zero,
    a value of the recursive struct type, and a nested struct. *)
Definition test_value : Value :=
  VStruct 15
    [ ("flag", VBool true);
      ("nums", VLeaf 7 [num 0; neg_zero; num (10 ^ 18); num (10 ^ 19); num (10 ^ 20);
                        num (-1)]);
      ("big", VMeta 7 [ (VRef 8 "sha1-0000000000000000000000000000000000000001" 1,
                         num 10, 10%N);
                        (VRef 8 "sha1-0000000000000000000000000000000000000002" 1,
                         num 20, 20%N) ]);
      ("ref", VRef 8 "sha1-0123456789abcdef0123456789abcdef01234567" 4);
      ("names", VLeaf 11 [VString ""; VString "foo";
                          VString (String "240" (String "159" (String "146"
                                    (String "169" EmptyString))))]);
      ("zero", neg_zero);
      ("rec", VStruct 9 [("v", num 42); ("cs", VLeaf 13 [])]);
      ("s", VStruct 14 [("x", num 42); ("b", VBool true)]) ].

(** A digest for the examples: the items of the encoding, written out. *)
Definition kind_name (k : NomsKind) : string :=
  match k with
  | BoolKind => "Bool" | NumberKind => "Number" | StringKind => "String"
  | BlobKind => "Blob" | ValueKind => "Value" | ListKind => "List"
  | MapKind => "Map" | RefKind => "Ref" | SetKind => "Set"
  | StructKind => "Struct" | TypeKind => "Type" | CycleKind => "Cycle"
  | UnionKind => "Union"
  end.

Definition token_text (t : token) : string :=
  match t with
  | uint8 k => kind_name k
  | uint32 n => "#" ++ pretty n
  | uint64 n => "##" ++ pretty n
  | float64 _ => "f"
  | Tbool b => if b then "true" else "false"
  | Tstring s => "'" ++ s ++ "'"
  | Tbytes _ => "bytes"
  end.

Definition exampleHash (c : list token) : string :=
  String.concat "," (token_text <$> c).

(** ** What is asked of the order of digests and of [sort.Sort]

    [ref.Ref.Less] is a strict total order.  [sort.Sort] permutes the slice
    and leaves it in ascending order when the comparison is a strict weak
    order on the elements of the slice. *)
Definition strict_total (Less : string -> string -> bool) : Prop :=
  (forall a, Less a a = false)
  /\ (forall a b c, Less a b = true -> Less b c = true -> Less a c = true)
  /\ (forall a b, a <> b -> Less a b = true \/ Less b a = true).

Definition strict_weak_on (less : nat -> nat -> bool) (l : list nat) : Prop :=
  (forall a, a ∈ l -> less a a = false)
  /\ (forall a b c, a ∈ l -> b ∈ l -> c ∈ l ->
        less a b = true -> less b c = true -> less a c = true)
  /\ (forall a b c, a ∈ l -> b ∈ l -> c ∈ l ->
        less a b = false -> less b c = false -> less a c = false).

Definition ascending (less : nat -> nat -> bool) (l : list nat) : Prop :=
  StronglySorted (fun a b => less b a = false) l.

Definition sort_contract
    (sortSlice : (nat -> nat -> bool) -> list nat -> list nat) : Prop :=
  forall less l,
    sortSlice less l ≡ₚ l
    /\ (strict_weak_on less l -> ascending less (sortSlice less l)).

(** An insertion sort, for the examples. *)
Fixpoint insertSorted (less : nat -> nat -> bool) (x : nat) (l : list nat) : list nat :=
  match l with
  | [] => [x]
  | y :: l' => if less x y then x :: y :: l' else y :: insertSorted less x l'
  end.

Definition insertionSort (less : nat -> nat -> bool) (l : list nat) : list nat :=
  foldr (insertSorted less) [] l.

(** The members of a union type. *)
Definition unionMembers (h : TypeHeap) (u : nat) : list nat :=
  match h !! u with
  | Some (CompoundDesc UnionKind members) => members
  | _ => []
  end.

(** The lexicographic order of digests, for the examples. *)
Definition exampleLess (a b : string) : bool :=
  bool_decide (a <> b /\ String.le a b).

(** ** The canonical field order of a struct type

    The names [IterFields] visits, in the order it visits them, and the
    layout of the encoding of a struct value: the struct type with its
    fields in that order, then the values of the fields. *)
Definition fieldNames (h : TypeHeap) (t : TypePtr) : list string :=
  match h !! t with
  | Some (StructDesc _ fields) => (IterFields fields).*1
  | _ => []
  end.

Definition structEncoding (name : string) (order : list string)
    (types values : list (list token)) : list token :=
  [uint8 StructKind; Tstring name; uint32 (N.of_nat (length order))]
  ++ concat (zip_with (fun n e => Tstring n :: e) order types)
  ++ concat values.

(** ** The rest of [type.go] *)

(** [func (t *Type) Type() *Type { return typeForType }] *)
Definition Type_ (t : TypePtr) : TypePtr := typeForType.

(** [MakePrimitiveTypeByString]: a [switch] on the string, [d.Chk.Fail]
    when no case matches. *)
Definition MakePrimitiveTypeByString (p : string) : result TypePtr :=
  if decide (p = "Bool") then Ok BoolType
  else if decide (p = "Number") then Ok NumberType
  else if decide (p = "String") then Ok StringType
  else if decide (p = "Blob") then Ok BlobType
  else if decide (p = "Value") then Ok ValueType
  else if decide (p = "Type") then Ok TypeType
  else Panic CheckFailed.

(** [unionTypes] as a [sort.Interface]: [Len] and [Swap]; an index out of
    range panics. *)
Definition unionTypes_Len (uts : list TypePtr) : nat := length uts.

Definition unionTypes_Swap (uts : list TypePtr) (i j : nat) : option (list TypePtr) :=
  a ← uts !! i; b ← uts !! j; Some (<[j := a]> (<[i := b]> uts)).

(** ** Heaps a program can build

    The heaps reached from the package singletons by the constructors and
    by assignments to the field map of a struct type, as
    [recType.Desc.(StructDesc).Fields["self"] = recType] in the tests.  The
    constructors are given types that exist; an assignment does not go
    through [verifyFieldName], so the name assigned has to be a field name
    for the heap to stay well-formed. *)
Inductive built (computeHash : list token -> Hash) (Less : Hash -> Hash -> bool)
    (sortSlice : (TypePtr -> TypePtr -> bool) -> list TypePtr -> list TypePtr)
    : TypeHeap -> Prop :=
  | built_init : built computeHash Less sortSlice init_heap
  | built_list h e :
      built computeHash Less sortSlice h -> e < length h ->
      built computeHash Less sortSlice (MakeListType e h).2
  | built_set h e :
      built computeHash Less sortSlice h -> e < length h ->
      built computeHash Less sortSlice (MakeSetType e h).2
  | built_map h k v :
      built computeHash Less sortSlice h -> k < length h -> v < length h ->
      built computeHash Less sortSlice (MakeMapType k v h).2
  | built_ref h e :
      built computeHash Less sortSlice h -> e < length h ->
      built computeHash Less sortSlice (MakeRefType e h).2
  | built_struct h name fields t h' :
      built computeHash Less sortSlice h ->
      (forall n p, fields !! n = Some p -> p < length h) ->
      MakeStructType name fields h = Ok (t, h') ->
      built computeHash Less sortSlice h'
  | built_union h elemType t h' :
      built computeHash Less sortSlice h ->
      Forall (fun e => e < length h) elemType ->
      MakeUnionType computeHash Less sortSlice elemType h = Some (t, h') ->
      built computeHash Less sortSlice h'
  | built_setField h s name fields n p :
      built computeHash Less sortSlice h ->
      h !! s = Some (StructDesc name fields) ->
      Regexp.MatchString fieldNameRe n = true -> p < length h ->
      built computeHash Less sortSlice (setField s n p h).

(** ** The reader and the writer, item by item

    The write and the read of the test-suite for an item of each sort: a
    client that writes a list of items and reads them back with the reader
    of the sort it expects. *)
Definition writeItem (v : token) : TestWriter.t -> TestWriter.t :=
  match v with
  | uint8 k => TestWriter.writeUint8 k
  | uint32 n => TestWriter.writeUint32 n
  | uint64 n => TestWriter.writeUint64 n
  | float64 n => TestWriter.writeFloat64 n
  | Tbool b => TestWriter.writeBool b
  | Tstring s => TestWriter.writeString s
  | Tbytes b => TestWriter.writeBytes b
  end.

Definition readItem (expected : token) (r : TestReader.t) : option (token * TestReader.t) :=
  match expected with
  | uint8 _ => '(v, r) ← TestReader.readUint8 r; Some (uint8 v, r)
  | uint32 _ => '(v, r) ← TestReader.readUint32 r; Some (uint32 v, r)
  | uint64 _ => '(v, r) ← TestReader.readUint64 r; Some (uint64 v, r)
  | float64 _ => '(v, r) ← TestReader.readFloat64 r; Some (float64 v, r)
  | Tbool _ => '(v, r) ← TestReader.readBool r; Some (Tbool v, r)
  | Tstring _ => '(v, r) ← TestReader.readString r; Some (Tstring v, r)
  | Tbytes _ => '(v, r) ← TestReader.readBytes r; Some (Tbytes v, r)
  end.

Fixpoint readItems (expected : list token) (r : TestReader.t)
    : option (list token * TestReader.t) :=
  match expected with
  | [] => Some ([], r)
  | e :: rest =>
      '(v, r) ← readItem e r;
      '(vs, r) ← readItems rest r;
      Some (v :: vs, r)
  end.

Definition same_sort (a b : token) : bool :=
  match a, b with
  | uint8 _, uint8 _ | uint32 _, uint32 _ | uint64 _, uint64 _
  | float64 _, float64 _ | Tbool _, Tbool _ | Tstring _, Tstring _
  | Tbytes _, Tbytes _ => true
  | _, _ => false
  end.

(** [assertEncoding(encoding, v)] of the test-suite: the value is written
    and the array written is compared with the one expected; the array
    expected is read and the value read is compared with [v]. *)
Definition assertEncoding (computeHash : list token -> Hash)
    (encoding : list token) (v : Value) (h : TypeHeap) : bool :=
  match encodeValue v h with
  | Some w =>
      bool_decide (encoding = w)
      && match decodeValue encoding h with
         | Some (v2, h') => bool_decide (equals computeHash h' v v2 = Some true)
         | None => false
         end
  | None => false
  end.

(** * Properties *)

(** ** Field names *)

Section FieldNames.
Import Regexp.

Lemma MatchString_Empty s : MatchString Empty s = false.
Proof. induction s; simpl; auto. Qed.

Lemma MatchString_Seq_Empty r s : MatchString (Seq Empty r) s = false.
Proof. induction s; simpl; auto. Qed.

Lemma MatchString_Alt r1 r2 s :
  MatchString (Alt r1 r2) s = MatchString r1 s || MatchString r2 s.
Proof. revert r1 r2; induction s as [|c s IH]; intros; simpl; auto. Qed.

Lemma MatchString_Seq_Eps r s : MatchString (Seq Eps r) s = MatchString r s.
Proof.
  destruct s as [|c s]; simpl; [reflexivity|].
  now rewrite MatchString_Alt, MatchString_Seq_Empty.
Qed.

Lemma MatchString_Star_Class rs s :
  MatchString (Star (Class rs)) s
  = forallb (fun c => in_class c rs) (list_ascii_of_string s).
Proof.
  induction s as [|c s IH]; [reflexivity|].
  cbn [MatchString deriv list_ascii_of_string forallb].
  destruct (in_class c rs); cbn [andb].
  - now rewrite MatchString_Seq_Eps.
  - apply MatchString_Seq_Empty.
Qed.

Ltac class_codes :=
  unfold in_class, in_range, letters, word_chars; cbn [existsb fst snd];
  change (N_of_ascii "a") with 97%N; change (N_of_ascii "z") with 122%N;
  change (N_of_ascii "A") with 65%N; change (N_of_ascii "Z") with 90%N;
  change (N_of_ascii "0") with 48%N; change (N_of_ascii "9") with 57%N;
  change (N_of_ascii "_") with 95%N.

Lemma in_class_letters c : in_class c letters = is_letter c.
Proof. class_codes. unfold is_letter. now rewrite orb_false_r. Qed.

Lemma in_class_word_chars c : in_class c word_chars = is_word_char c.
Proof.
  class_codes. unfold is_word_char, is_letter, is_digit.
  rewrite orb_false_r, !orb_assoc. do 2 f_equal.
  generalize (N_of_ascii c); intros n.
  destruct (N.eqb_spec n 95) as [->|Hne]; [reflexivity|].
  apply andb_false_iff.
  destruct (N.leb_spec 95 n), (N.leb_spec n 95); auto; lia.
Qed.

(** The compiled pattern accepts exactly the names of the grammar. *)
Lemma fieldNameRe_grammar s :
  MatchString fieldNameRe s = field_name_grammar s.
Proof.
  destruct s as [|c s]; [reflexivity|].
  unfold fieldNameRe, field_name_grammar. cbn [MatchString deriv nullable].
  rewrite in_class_letters. destruct (is_letter c); cbn [andb].
  - rewrite MatchString_Seq_Eps, MatchString_Star_Class.
    generalize (list_ascii_of_string s) as l.
    induction l as [|x l IHl]; [reflexivity|].
    cbn [forallb]. now rewrite in_class_word_chars, IHl.
  - apply MatchString_Seq_Empty.
Qed.

End FieldNames.

Lemma verifyFieldNames_forallb names :
  verifyFieldNames names
  = if forallb field_name_grammar names then Ok tt else Panic InvalidFieldName.
Proof.
  induction names as [|n names IH]; simpl; [reflexivity|].
  unfold verifyFieldName. rewrite fieldNameRe_grammar.
  destruct (field_name_grammar n); simpl; auto.
Qed.

Lemma forallb_false_witness {A} (f : A -> bool) (l : list A) :
  forallb f l = false -> exists x, In x l /\ f x = false.
Proof.
  induction l as [|a l IH]; simpl; [done|].
  destruct (f a) eqn:Fa; simpl.
  - intros (x & Hx & Hf)%IH. eauto.
  - eauto.
Qed.

(** C5.  [MakeStructType] panics with [InvalidFieldName] exactly when one of
    the field names it is given is outside the grammar (a letter, then
    letters, digits and underscores), and otherwise builds the type; the
    names of [TestVerifyFieldName] are rejected and accepted as the test
    says. *)
Theorem MakeStructType_field_names (name : string) (fields : gmap string TypePtr)
    (h : TypeHeap) :
  (MakeStructType name fields h = Panic InvalidFieldName
   <-> exists n, is_Some (fields !! n) /\ field_name_grammar n = false)
  /\ (MakeStructType name fields h = Ok (buildType (StructDesc name fields) h)
      <-> forall n, is_Some (fields !! n) -> field_name_grammar n = true)
  /\ Forall (fun n => MakeStructType "S" {[n := StringType]} init_heap
                      = Panic InvalidFieldName)
            [""; " "; " a"; "a "; "0"; "_"; "0a"; "_a"]
  /\ Forall (fun n => MakeStructType "S" {[n := StringType]} init_heap
                      = Ok (buildType (StructDesc "S" {[n := StringType]}) init_heap))
            ["a"; "A"; "a0"; "a_"; "a0_"].
Proof.
  assert (Hall : forallb field_name_grammar (map fst (map_to_list fields)) = true
                 <-> forall n, is_Some (fields !! n) -> field_name_grammar n = true).
  { rewrite forallb_forall. split.
    - intros Hf n [p Hp]. apply Hf. apply in_map_iff. exists (n, p). split; [done|].
      apply list_elem_of_In. now apply elem_of_map_to_list.
    - intros Hf n [[m p] [<- Hin]]%in_map_iff. apply Hf. exists p.
      now apply elem_of_map_to_list, list_elem_of_In. }
  unfold MakeStructType. rewrite verifyFieldNames_forallb.
  match goal with |- context [if ?b then _ else _] => destruct b eqn:E end.
  - pose proof (proj1 Hall eq_refl) as Hok.
    split; [|split; [|split]].
    + split; [intros [=]|]. intros (n & Hn & Hg).
      specialize (Hok n Hn). congruence.
    + split; [done | done].
    + repeat (constructor; [vm_compute; reflexivity|]). constructor.
    + repeat (constructor; [vm_compute; reflexivity|]). constructor.
  - split; [|split; [|split]].
    + split; [intros _|done].
      apply forallb_false_witness in E as (n & [[m p] [<- Hin]]%in_map_iff & Hg).
      exists m. split; [|done]. exists p.
      now apply elem_of_map_to_list, list_elem_of_In.
    + split; [intros [=]|]. intros Hf. now apply Hall in Hf.
    + repeat (constructor; [vm_compute; reflexivity|]). constructor.
    + repeat (constructor; [vm_compute; reflexivity|]). constructor.
Qed.

(** C6.  [IsOrdered] is true exactly for the kinds Number, String and Ref,
    and false for every other kind. *)
Theorem IsOrdered_exactly (t : TypeDesc) :
  (IsOrdered t = true
   <-> Kind t = NumberKind \/ Kind t = StringKind \/ Kind t = RefKind)
  /\ (IsOrdered t = false
      <-> Kind t ∈ [BoolKind; BlobKind; ValueKind; TypeKind; ListKind; SetKind;
                    MapKind; StructKind; CycleKind; UnionKind]).
Proof.
  unfold IsOrdered. rewrite !elem_of_cons, elem_of_nil.
  destruct (Kind t); split; split; intros; try done; try tauto;
    repeat match goal with H : _ \/ _ |- _ => destruct H end; done.
Qed.

(** ** The canonical field order *)

Lemma sortedNames_perm (fields : gmap string TypePtr) :
  sortedNames fields ≡ₚ (map_to_list fields).*1.
Proof. apply merge_sort_Permutation. Qed.

Lemma sortedNames_sorted (fields : gmap string TypePtr) :
  StronglySorted String.le (sortedNames fields).
Proof. apply StronglySorted_merge_sort; apply _. Qed.

Lemma sortedNames_NoDup (fields : gmap string TypePtr) :
  NoDup (sortedNames fields).
Proof. rewrite sortedNames_perm. apply NoDup_fst_map_to_list. Qed.

Lemma elem_of_sortedNames (fields : gmap string TypePtr) n :
  n ∈ sortedNames fields <-> is_Some (fields !! n).
Proof.
  rewrite sortedNames_perm, list_elem_of_fmap. split.
  - intros ([m p] & -> & Hin%elem_of_map_to_list). eauto.
  - intros [p Hp]. exists (n, p). split; [done|]. now apply elem_of_map_to_list.
Qed.

Lemma omap_lookup_names (fields : gmap string TypePtr) (names : list string) :
  (forall n, n ∈ names -> is_Some (fields !! n)) ->
  (omap (fun n => pair n <$> fields !! n) names).*1 = names.
Proof.
  induction names as [|n names IH]; intros Hin; [done|].
  destruct (Hin n) as [p Hp]; [left|].
  cbn [omap list_omap]. rewrite Hp. cbn. f_equal.
  apply IH. intros m Hm. apply Hin. now right.
Qed.

Lemma IterFields_names (fields : gmap string TypePtr) :
  (IterFields fields).*1 = sortedNames fields.
Proof.
  apply omap_lookup_names. intros n. apply elem_of_sortedNames.
Qed.

Lemma elem_of_IterFields (fields : gmap string TypePtr) n p :
  (n, p) ∈ IterFields fields <-> fields !! n = Some p.
Proof.
  unfold IterFields. rewrite list_elem_of_omap. split.
  - intros (m & Hm & Hf). destruct (fields !! m) eqn:E; by simplify_eq/=.
  - intros Hp. exists n. split; [apply elem_of_sortedNames; eauto|].
    now rewrite Hp.
Qed.

Lemma IterFields_length (fields : gmap string TypePtr) :
  length (IterFields fields) = size fields.
Proof.
  rewrite <- (length_fmap fst), IterFields_names, sortedNames_perm.
  now rewrite length_fmap, length_map_to_list.
Qed.

(** C9.  [Equals] against an absent value is [false], whatever the type,
    also for a type whose content address cannot be computed: the address
    is not asked for. *)
Theorem Equals_nil_is_false (computeHash : list token -> Hash) (h : TypeHeap)
    (t : TypePtr) :
  Equals computeHash h t None = Some false.
Proof. reflexivity. Qed.

(** C10.  [Chunks] of a type is empty, whatever its description, and the
    component types are its child values: the element types of a compound
    type in their order, the field types of a struct type, none for a
    primitive type. *)
Theorem Type_Chunks_empty (t : TypeDesc) :
  Chunks t = []
  /\ Forall (fun v => exists p, v = VType p) (ChildValues t)
  /\ match t with
     | PrimitiveDesc _ => ChildValues t = []
     | CompoundDesc _ elemTypes => ChildValues t = VType <$> elemTypes
     | StructDesc _ fields =>
         forall p, VType p ∈ ChildValues t <-> exists n, fields !! n = Some p
     end.
Proof.
  split; [reflexivity|]. split.
  - destruct t as [k|k es|name fields]; cbn [ChildValues].
    + constructor.
    + apply Forall_fmap, Forall_true. intros p. now exists p.
    + apply Forall_fmap, Forall_true. intros [n p]. now exists p.
  - destruct t as [k|k es|name fields]; cbn [ChildValues]; [done..|].
    intros p. rewrite list_elem_of_fmap. split.
    + intros ([n q] & [= ->] & Hin). exists n. now apply elem_of_IterFields.
    + intros [n Hn]. exists (n, p). split; [done|]. now apply elem_of_IterFields.
Qed.

(** C8.  The adaptor's [SchedulePut] is the [Put] of the store behind it,
    whatever the hints; [Flush] changes nothing; [Close] is the [Close] of
    the store; so closing after any run of [SchedulePut] leaves the store as
    the same run of [Put] followed by [Close] leaves it, and a recording
    store has seen every chunk, in order, and then the close. *)
Theorem BatchStoreAdaptor_is_direct {S : Type} `{ChunkStore S}
    (lbs : BatchStoreAdaptor S) (c : Chunk) (hints hints' : Hints)
    (puts : list (Chunk * Hints)) (ms : MemoryStore) :
  SchedulePut c hints lbs = NewBatchStoreAdaptor (cs_Put c (cs lbs))
  /\ SchedulePut c hints lbs = SchedulePut c hints' lbs
  /\ Flush lbs = lbs
  /\ Close lbs = (fst (cs_Close (cs lbs)), NewBatchStoreAdaptor (snd (cs_Close (cs lbs))))
  /\ Close (scheduleAll puts lbs)
     = (let s := fold_left (fun s p => cs_Put (fst p) s) puts (cs lbs) in
        (fst (cs_Close s), NewBatchStoreAdaptor (snd (cs_Close s))))
  /\ (let ms' := cs (snd (Close (scheduleAll puts (NewBatchStoreAdaptor ms)))) in
      ms_calls ms' = ms_calls ms ++ (CallPut <$> puts.*1) ++ [CallClose]
      /\ ms_closed ms' = true).
Proof.
  assert (HClose : forall (T : Type) (HT : ChunkStore T) (l : BatchStoreAdaptor T),
             Close l = (fst (cs_Close (cs l)), NewBatchStoreAdaptor (snd (cs_Close (cs l))))).
  { intros T HT l. unfold Close, Flush. now destruct (cs_Close (cs l)). }
  assert (HAll : forall (T : Type) (HT : ChunkStore T) (ps : list (Chunk * Hints))
                        (l : BatchStoreAdaptor T),
             cs (scheduleAll ps l) = fold_left (fun s p => cs_Put (fst p) s) ps (cs l)).
  { intros T HT ps. unfold scheduleAll.
    induction ps as [|[c0 hs] ps IH]; intros l; [done|].
    cbn [fold_left]. now rewrite IH. }
  split; [done|]. split; [done|]. split; [done|]. split; [apply HClose|].
  split; [cbv zeta; now rewrite HClose, HAll|].
  cbv zeta. rewrite HClose, HAll. cbn [snd cs].
  revert ms. induction puts as [|[c0 hs] puts IH]; intros ms.
  - cbn. done.
  - cbn [fold_left fmap list_fmap fst]. destruct (IH (cs_Put c0 ms)) as [IH1 IH2].
    split; [|exact IH2]. rewrite IH1. cbn. now rewrite <- !app_assoc.
Qed.

(** ** Well-formed heaps, unfolded *)

Lemma wf_heap_lookup h p d :
  wf_heap h = true -> h !! p = Some d -> wf_desc h p d = true.
Proof.
  unfold wf_heap. intros [_ Hall]%andb_true_iff Hp.
  rewrite forallb_forall in Hall. apply (Hall (p, d)).
  apply list_elem_of_In, list_elem_of_lookup. exists p.
  now rewrite list_lookup_imap, Hp.
Qed.

Lemma wf_heap_globals h p d :
  wf_heap h = true -> init_heap !! p = Some d -> h !! p = Some d.
Proof.
  unfold wf_heap. intros [Hg%bool_decide_eq_true _]%andb_true_iff Hp.
  rewrite <- Hg in Hp. apply lookup_take_Some in Hp. tauto.
Qed.

Lemma wf_heap_prim h p k :
  wf_heap h = true -> h !! p = Some (PrimitiveDesc k) -> is_primitive_kind k = true.
Proof. intros Hwf Hp. apply (wf_heap_lookup _ _ _ Hwf Hp). Qed.

Lemma wf_heap_compound h p k es :
  wf_heap h = true -> h !! p = Some (CompoundDesc k es) ->
  compound_arity_ok k (length es) = true /\ Forall (fun e => e < p) es.
Proof.
  intros Hwf Hp. pose proof (wf_heap_lookup _ _ _ Hwf Hp) as Hd.
  cbn [wf_desc] in Hd. apply andb_true_iff in Hd as [Ha Hf]. split; [done|].
  rewrite forallb_forall in Hf. apply Forall_forall. intros e He.
  apply list_elem_of_In, Hf in He. now apply bool_decide_eq_true in He.
Qed.

Lemma wf_heap_struct h p name (fields : gmap string nat) n ft :
  wf_heap h = true -> h !! p = Some (StructDesc name fields) ->
  fields !! n = Some ft ->
  Regexp.MatchString fieldNameRe n = true /\ ft < length h.
Proof.
  intros Hwf Hp Hn. pose proof (wf_heap_lookup _ _ _ Hwf Hp) as Hd.
  cbn [wf_desc] in Hd. rewrite forallb_forall in Hd.
  assert (Hin : In (n, ft) (map_to_list fields))
    by now apply list_elem_of_In, elem_of_map_to_list.
  apply Hd in Hin. cbn in Hin.
  now apply andb_true_iff in Hin as [? ?%bool_decide_eq_true].
Qed.

(** ** The walk of a type *)

Lemma indexOf_Some ps t i :
  indexOf ps t = Some i -> ps !! i = Some t /\ i < length ps.
Proof.
  revert i. induction ps as [|p ps IH]; intros i; cbn; [done|].
  destruct (decide (p = t)) as [->|Hne].
  - intros [= <-]. cbn. split; [done|lia].
  - destruct (indexOf ps t) as [j|]; [|done]. intros [= <-].
    destruct (IH j eq_refl). cbn. split; [done|lia].
Qed.

Lemma indexOf_None ps t : indexOf ps t = None <-> t ∉ ps.
Proof.
  induction ps as [|p ps IH]; cbn.
  - split; [intros _; apply not_elem_of_nil|done].
  - rewrite not_elem_of_cons. destruct (decide (p = t)) as [->|Hne].
    + split; [done|]. intros [? _]. done.
    + destruct (indexOf ps t); cbn.
      * split; [done|]. intros [_ Hn]. now apply IH in Hn.
      * split; [|done]. intros _. split; [done|]. now apply IH.
Qed.

Lemma indexOf_lookup ps t i :
  NoDup ps -> ps !! i = Some t -> indexOf ps t = Some i.
Proof.
  intros Hnd. revert i. induction Hnd as [|p ps Hp Hnd IH]; intros i; [done|].
  destruct i as [|i]; cbn.
  - intros [= ->]. now rewrite decide_True.
  - intros Hi. rewrite decide_False.
    + now rewrite (IH i Hi).
    + intros ->. apply Hp. now apply list_elem_of_lookup_2 in Hi.
Qed.

Lemma writeType_fuel_mono fuel fuel' h t ps x :
  writeType fuel h t ps = Some x -> fuel <= fuel' ->
  writeType fuel' h t ps = Some x.
Proof.
  revert fuel' t ps x. induction fuel as [|fuel IH]; intros fuel' t ps x; [done|].
  intros Hw Hle. destruct fuel' as [|fuel']; [lia|].
  cbn [writeType] in *. destruct (h !! t) as [[k|k es|name fields]|]; try done.
  - destruct (mapM _ es) as [xs|] eqn:E; [|done].
    erewrite mapM_Some_2; [exact Hw|].
    apply mapM_Some_1 in E. eapply Forall2_impl; [exact E|].
    intros e y He. apply IH; [done|lia].
  - destruct (indexOf ps t); [done|].
    destruct (mapM _ (IterFields fields)) as [xs|] eqn:E; [|done].
    erewrite mapM_Some_2; [exact Hw|].
    apply mapM_Some_1 in E. eapply Forall2_impl; [exact E|].
    intros [n ft] y He. cbn in *.
    destruct (writeType fuel h ft (ps ++ [t])) as [e|] eqn:Ee; [|done].
    rewrite (IH fuel' ft (ps ++ [t]) e); [done|done|lia].
Qed.

Lemma Encodes_det h ps t x y :
  Encodes h ps t x -> Encodes h ps t y -> x = y.
Proof.
  intros [f1 H1] [f2 H2].
  apply (writeType_fuel_mono _ (f1 `max` f2)) in H1; [|lia].
  apply (writeType_fuel_mono _ (f1 `max` f2)) in H2; [|lia].
  congruence.
Qed.

Lemma agree_refl ps h : agree ps h h.
Proof. intros p d Hp. now left. Qed.

Lemma agree_weaken ps ps' h h' :
  agree ps h h' -> ps ⊆ ps' -> agree ps' h h'.
Proof.
  intros Ha Hsub p d Hp. destruct (Ha p d Hp) as [?|(? & ? & ?)]; [now left|].
  right. split; [now apply Hsub|done].
Qed.

Lemma agree_trans ps h1 h2 h3 :
  agree ps h1 h2 -> agree ps h2 h3 -> agree ps h1 h3.
Proof.
  intros H12 H23 p d Hp.
  destruct (H12 p d Hp) as [H2|(Hin & Hs & d' & H2 & Hs')].
  - apply (H23 p d H2).
  - right. split; [done|]. split; [done|].
    destruct (H23 p d' H2) as [H3|(_ & _ & d'' & H3 & Hs'')]; eauto.
Qed.

Lemma agree_app ps h l : agree ps h (h ++ l).
Proof. intros p d Hp. left. now apply lookup_app_l_Some. Qed.

Lemma agree_length ps h h' : agree ps h h' -> length h <= length h'.
Proof.
  intros Ha. destruct (decide (length h <= length h')) as [|Hgt]; [done|].
  destruct (lookup_lt_is_Some_2 h (length h')) as [d Hd]; [lia|].
  destruct (Ha _ _ Hd) as [H'|(_ & _ & d' & H' & _)];
    apply lookup_lt_Some in H'; lia.
Qed.

Lemma writeType_frame fuel h h' t ps x :
  writeType fuel h t ps = Some x -> agree ps h h' ->
  writeType fuel h' t ps = Some x.
Proof.
  revert t ps x. induction fuel as [|fuel IH]; intros t ps x; [done|].
  intros Hw Ha. cbn [writeType] in *.
  destruct (h !! t) as [d|] eqn:Ht; [|done].
  destruct (Ha t d Ht) as [->|(Hin & Hs & d' & -> & Hs')].
  - destruct d as [k|k es|name fields]; [done| |].
    + destruct (mapM _ es) as [xs|] eqn:E; [|done].
      erewrite mapM_Some_2; [exact Hw|].
      apply mapM_Some_1 in E. eapply Forall2_impl; [exact E|].
      intros e y He. now apply IH.
    + destruct (indexOf ps t) eqn:Ei; [done|].
      destruct (mapM _ (IterFields fields)) as [xs|] eqn:E; [|done].
      erewrite mapM_Some_2; [exact Hw|].
      apply mapM_Some_1 in E. eapply Forall2_impl; [exact E|].
      intros [n ft] y He. cbn in *.
      destruct (writeType fuel h ft (ps ++ [t])) as [e|] eqn:Ee; [|done].
      rewrite (IH ft (ps ++ [t]) e); [done|done|].
      eapply agree_weaken; [exact Ha|]. intros q Hq. apply elem_of_app. now left.
  - destruct d as [| |name fields]; try done.
    destruct d' as [| |name' fields']; try done.
    destruct (indexOf ps t) eqn:Ei; [done|].
    apply indexOf_None in Ei. done.
Qed.

Lemma Encodes_frame h h' ps t x :
  Encodes h ps t x -> agree ps h h' -> Encodes h' ps t x.
Proof. intros [f Hf] Ha. exists f. eauto using writeType_frame. Qed.

(** *** The walk comes back *)

Lemma free_le ps n : free ps n <= n.
Proof.
  unfold free. etrans; [apply length_filter|]. now rewrite length_seq.
Qed.

Lemma filter_length_lt {A} (P Q : A -> Prop) `{!forall x, Decision (P x)}
    `{!forall x, Decision (Q x)} (l : list A) (a : A) :
  (forall x, Q x -> P x) -> a ∈ l -> P a -> ~ Q a ->
  length (filter Q l) < length (filter P l).
Proof.
  intros HQP Hin HPa HQa.
  assert (Hle : forall k : list A, length (filter Q k) <= length (filter P k)).
  { induction k as [|y k IHk]; [done|]. rewrite !filter_cons.
    destruct (decide (Q y)) as [Hq|Hq].
    - rewrite decide_True by auto. cbn. lia.
    - destruct (decide (P y)); cbn; lia. }
  induction l as [|y l IH]; [by apply elem_of_nil in Hin|].
  rewrite !filter_cons. apply elem_of_cons in Hin as [<-|Hin].
  - rewrite decide_False, decide_True by done. cbn. specialize (Hle l). lia.
  - specialize (IH Hin). destruct (decide (Q y)) as [Hq|Hq].
    + rewrite decide_True by auto. cbn. lia.
    + destruct (decide (P y)); cbn; lia.
Qed.

Lemma free_push ps n t : t < n -> t ∉ ps -> free (ps ++ [t]) n < free ps n.
Proof.
  intros Hlt Hnin. unfold free. apply (filter_length_lt _ _ _ t).
  - intros x Hx Hin. apply Hx, elem_of_app. now left.
  - apply elem_of_seq. lia.
  - done.
  - intros Hx. apply Hx, elem_of_app. right. now apply list_elem_of_singleton.
Qed.

Lemma writeType_terminates h :
  wf_heap h = true ->
  forall fuel t ps, t < length h ->
    free ps (length h) * S (length h) + t < fuel ->
    is_Some (writeType fuel h t ps).
Proof.
  intros Hwf. induction fuel as [|fuel IH]; intros t ps Ht Hm; [lia|].
  cbn [writeType]. destruct (lookup_lt_is_Some_2 h t Ht) as [d Hd]. rewrite Hd.
  destruct d as [k|k es|name fields]; [done| |].
  - destruct (wf_heap_compound _ _ _ _ Hwf Hd) as [_ Hes].
    destruct (mapM (fun e => writeType fuel h e ps) es) as [xs|] eqn:E; [done|].
    apply mapM_None_1, Exists_exists in E as (e & He & Hnone).
    rewrite Forall_forall in Hes. specialize (Hes e He).
    destruct (IH e ps) as [? Hs]; [lia|lia|congruence].
  - destruct (indexOf ps t) eqn:Ei; [done|]. apply indexOf_None in Ei.
    pose proof (free_push ps (length h) t Ht Ei) as Hfree.
    match goal with |- is_Some (mbind _ ?m) => destruct m as [xs|] eqn:E end; [done|].
    apply mapM_None_1, Exists_exists in E as ([n ft] & He & Hnone).
    apply elem_of_IterFields in He.
    destruct (wf_heap_struct _ _ _ _ _ _ Hwf Hd He) as [_ Hft].
    destruct (IH ft (ps ++ [t])) as [e Hs]; [done|nia|].
    cbn in Hnone. now rewrite Hs in Hnone.
Qed.

Lemma encodeType_total h t :
  wf_heap h = true -> t < length h -> is_Some (encodeType h t).
Proof.
  intros Hwf Ht. apply writeType_terminates; [done..|].
  unfold typeFuel. pose proof (free_le [] (length h)). nia.
Qed.

Lemma Encodes_lt h ps t x : Encodes h ps t x -> t < length h.
Proof.
  intros [[|f] Hf]; [done|]. cbn [writeType] in Hf.
  destruct (h !! t) eqn:E; [|done]. now apply lookup_lt_Some in E.
Qed.

Lemma encodeType_Encodes h t x :
  wf_heap h = true -> encodeType h t = Some x <-> Encodes h [] t x.
Proof.
  intros Hwf. split; [intros Hx; now exists (typeFuel h)|]. intros Hx.
  destruct (encodeType_total h t Hwf (Encodes_lt _ _ _ _ Hx)) as [y Hy].
  rewrite Hy. f_equal. eapply Encodes_det; [|exact Hx]. now exists (typeFuel h).
Qed.

(** *** The walk, case by case *)

Lemma Encodes_common_fuel h ps (es : list nat) (xs : list (list token)) :
  Forall2 (Encodes h ps) es xs ->
  exists fuel, Forall2 (fun e x => writeType fuel h e ps = Some x) es xs.
Proof.
  induction 1 as [|e x es xs [f1 Hf1] _ [f2 Hf2]].
  - exists 0. constructor.
  - exists (f1 `max` f2). constructor.
    + eapply writeType_fuel_mono; [exact Hf1|lia].
    + eapply Forall2_impl; [exact Hf2|]. intros a b Hab.
      eapply writeType_fuel_mono; [exact Hab|lia].
Qed.

Lemma Encodes_prim h ps t k :
  h !! t = Some (PrimitiveDesc k) -> Encodes h ps t [uint8 k].
Proof. intros Ht. exists 1. cbn. now rewrite Ht. Qed.

Lemma Encodes_compound h ps t k es xs :
  h !! t = Some (CompoundDesc k es) ->
  Forall2 (Encodes h ps) es xs ->
  Encodes h ps t
    (uint8 k ::
     (if decide (k = UnionKind) then [uint32 (N.of_nat (length es))] else [])
     ++ concat xs).
Proof.
  intros Ht [f Hf]%Encodes_common_fuel. exists (S f). cbn [writeType].
  rewrite Ht. rewrite (mapM_Some_2 _ _ _ Hf). cbn.
  now destruct (decide (k = UnionKind)).
Qed.

Lemma Encodes_cycle h ps t name fields i :
  h !! t = Some (StructDesc name fields) -> indexOf ps t = Some i ->
  Encodes h ps t [uint8 CycleKind; uint32 (N.of_nat (length ps - 1 - i))].
Proof. intros Ht Hi. exists 1. cbn. now rewrite Ht, Hi. Qed.

Lemma Encodes_struct h ps t name fields (es : list (list token)) :
  h !! t = Some (StructDesc name fields) -> t ∉ ps ->
  Forall2 (Encodes h (ps ++ [t])) (IterFields fields).*2 es ->
  Encodes h ps t
    ([uint8 StructKind; Tstring name; uint32 (N.of_nat (length (IterFields fields)))]
     ++ concat (zip_with (fun n e => Tstring n :: e) (IterFields fields).*1 es)).
Proof.
  intros Ht Hnin [f Hf]%Encodes_common_fuel.
  exists (S f). cbn [writeType]. rewrite Ht.
  apply indexOf_None in Hnin. rewrite Hnin.
  erewrite mapM_Some_2; [reflexivity|].
  revert es Hf. induction (IterFields fields) as [|[n ft] l IH]; intros es Hf.
  - apply Forall2_nil_inv_l in Hf as ->. constructor.
  - apply Forall2_cons_inv_l in Hf as (e & es' & Hw & Hf & ->). cbn in *.
    constructor; [|now apply IH]. now rewrite Hw.
Qed.

Lemma writeType_struct_inv fuel h ps t name fields x :
  writeType (S fuel) h t ps = Some x ->
  h !! t = Some (StructDesc name fields) -> t ∉ ps ->
  exists es,
    Forall2 (fun ft e => writeType fuel h ft (ps ++ [t]) = Some e)
            (IterFields fields).*2 es
    /\ x = [uint8 StructKind; Tstring name;
            uint32 (N.of_nat (length (IterFields fields)))]
           ++ concat (zip_with (fun n e => Tstring n :: e) (IterFields fields).*1 es).
Proof.
  intros Hw Ht Hnin. cbn [writeType] in Hw. rewrite Ht in Hw.
  apply indexOf_None in Hnin. rewrite Hnin in Hw.
  match type of Hw with mbind _ ?m = _ => destruct m as [ys|] eqn:E end; [|done].
  injection Hw as <-. apply mapM_Some_1 in E.
  revert ys E. induction (IterFields fields) as [|[n ft] l IH]; intros ys E.
  - apply Forall2_nil_inv_l in E as ->. exists []. split; [constructor|done].
  - apply Forall2_cons_inv_l in E as (y & ys' & Hy & E & ->).
    destruct (IH ys' E) as (es & Hes & Heq). cbn in Hy.
    destruct (writeType fuel h ft (ps ++ [t])) as [e|] eqn:Ee; [|done].
    injection Hy as <-. exists (e :: es). split; [now constructor|].
    cbn in *. now injection Heq as ->.
Qed.

Lemma writeType_compound_inv fuel h ps t k es x :
  writeType (S fuel) h t ps = Some x ->
  h !! t = Some (CompoundDesc k es) ->
  exists xs,
    Forall2 (fun e y => writeType fuel h e ps = Some y) es xs
    /\ x = uint8 k ::
           (if decide (k = UnionKind) then [uint32 (N.of_nat (length es))] else [])
           ++ concat xs.
Proof.
  intros Hw Ht. cbn [writeType] in Hw. rewrite Ht in Hw.
  destruct (mapM _ es) as [xs|] eqn:E; [|done].
  injection Hw as <-. apply mapM_Some_1 in E. exists xs. split; [done|].
  now destruct (decide (k = UnionKind)).
Qed.

(** *** Heaps stay well formed as the decoder builds types *)

Lemma wf_heap_iff h :
  wf_heap h = true
  <-> take (length init_heap) h = init_heap
      /\ forall p d, h !! p = Some d -> wf_desc h p d = true.
Proof.
  split.
  - intros Hwf. split; [|intros p d; now apply wf_heap_lookup].
    unfold wf_heap in Hwf. apply andb_true_iff in Hwf as [Hg _].
    now apply bool_decide_eq_true in Hg.
  - intros [Hg Hall]. unfold wf_heap. apply andb_true_iff. split.
    + now apply bool_decide_eq_true.
    + apply forallb_forall. intros [p d] Hin.
      apply list_elem_of_In, list_elem_of_lookup in Hin as [i Hi].
      rewrite list_lookup_imap in Hi.
      destruct (h !! i) as [d'|] eqn:E; [|done]. cbn in Hi.
      injection Hi as <- <-. now apply Hall.
Qed.

Lemma wf_heap_length h : wf_heap h = true -> length init_heap <= length h.
Proof.
  intros [Hg _]%wf_heap_iff.
  rewrite <- Hg at 1. rewrite length_take. lia.
Qed.

Lemma wf_desc_mono h h' p d :
  length h <= length h' -> wf_desc h p d = true -> wf_desc h' p d = true.
Proof.
  intros Hle. destruct d as [k|k es|name fields]; cbn [wf_desc]; [done..|].
  rewrite !forallb_forall. intros Hf [n ft] Hin. specialize (Hf _ Hin). cbn in *.
  apply andb_true_iff in Hf as [? Hlt%bool_decide_eq_true].
  apply andb_true_iff. split; [done|]. apply bool_decide_eq_true. lia.
Qed.

Lemma wf_heap_app h d :
  wf_heap h = true -> wf_desc (h ++ [d]) (length h) d = true ->
  wf_heap (h ++ [d]) = true.
Proof.
  intros Hwf Hd. pose proof (wf_heap_length h Hwf) as Hlen.
  apply wf_heap_iff in Hwf as [Hg Hall]. apply wf_heap_iff. split.
  - now rewrite take_app_le.
  - intros p d' Hp. apply lookup_app_Some in Hp as [Hp|[Hge Hp]].
    + eapply wf_desc_mono; [|now apply Hall]. rewrite length_app. lia.
    + apply list_lookup_singleton_Some in Hp as [Hz <-].
      replace p with (length h) by lia. done.
Qed.

Lemma struct_not_global h st name fields :
  wf_heap h = true -> h !! st = Some (StructDesc name fields) ->
  length init_heap <= st.
Proof.
  intros Hwf Hst. destruct (decide (length init_heap <= st)) as [|Hlt]; [done|].
  destruct (lookup_lt_is_Some_2 init_heap st) as [d Hd]; [lia|].
  pose proof (wf_heap_globals _ _ _ Hwf Hd) as Hd'.
  rewrite Hst in Hd'. injection Hd' as <-.
  do 7 (destruct st as [|st]; [done|]). cbn in Hlt. lia.
Qed.

Lemma wf_heap_setField h st name fields n ft :
  wf_heap h = true -> h !! st = Some (StructDesc name fields) ->
  Regexp.MatchString fieldNameRe n = true -> ft < length h ->
  wf_heap (setField st n ft h) = true
  /\ setField st n ft h !! st = Some (StructDesc name (<[n := ft]> fields)).
Proof.
  intros Hwf Hst Hn Hft. pose proof (struct_not_global _ _ _ _ Hwf Hst) as Hge.
  unfold setField. rewrite Hst.
  pose proof (lookup_lt_Some _ _ _ Hst) as Hlt.
  split; [|now rewrite list_lookup_insert_eq].
  apply wf_heap_iff in Hwf as [Hg Hall]. apply wf_heap_iff. split.
  - now rewrite take_insert_ge.
  - intros p d Hp. destruct (decide (p = st)) as [->|Hne].
    + rewrite list_lookup_insert_eq in Hp by done. injection Hp as <-.
      cbn [wf_desc]. apply forallb_forall. intros [m t] Hin.
      apply list_elem_of_In, elem_of_map_to_list in Hin. cbn.
      rewrite length_insert. apply lookup_insert_Some in Hin as [[<- <-]|[Hne Hm]].
      * apply andb_true_iff. split; [done|]. now apply bool_decide_eq_true.
      * specialize (Hall _ _ Hst). cbn [wf_desc] in Hall.
        rewrite forallb_forall in Hall. apply (Hall (m, t)).
        now apply list_elem_of_In, elem_of_map_to_list.
    + rewrite list_lookup_insert_ne in Hp by done.
      eapply wf_desc_mono; [|now apply Hall]. now rewrite length_insert.
Qed.

Lemma agree_setField ps h st n ft :
  st ∈ ps -> agree ps h (setField st n ft h).
Proof.
  intros Hin p d Hp. unfold setField.
  destruct (h !! st) as [[| |name fields]|] eqn:Hst; try now left.
  destruct (decide (p = st)) as [->|Hne].
  - right. rewrite Hst in Hp. injection Hp as <-. split; [done|]. split; [done|].
    eexists. rewrite list_lookup_insert_eq by now apply lookup_lt_Some in Hst.
    split; [done|]. done.
  - left. now rewrite list_lookup_insert_ne.
Qed.

Lemma stack_ok_agree ps h h' : stack_ok h ps -> agree ps h h' -> stack_ok h' ps.
Proof.
  intros [Hnd Hst] Ha. split; [done|]. intros p Hp.
  destruct (Hst p Hp) as (d & Hd & Hs).
  destruct (Ha p d Hd) as [?|(_ & _ & d' & ? & ?)]; eauto.
Qed.

Lemma stack_ok_lt h ps p : stack_ok h ps -> p ∈ ps -> p < length h.
Proof.
  intros [_ Hst] Hp. destruct (Hst p Hp) as (d & Hd & _).
  now apply lookup_lt_Some in Hd.
Qed.

Lemma stack_ok_push h ps name :
  stack_ok h ps ->
  stack_ok (h ++ [StructDesc name ∅]) (ps ++ [length h]).
Proof.
  intros Hok. pose proof Hok as [Hnd Hst]. split.
  - apply NoDup_app. split; [done|]. split; [|apply NoDup_singleton].
    intros p Hp ->%list_elem_of_singleton.
    pose proof (stack_ok_lt _ _ _ Hok Hp). lia.
  - intros p [Hp| ->%list_elem_of_singleton]%elem_of_app.
    + destruct (Hst p Hp) as (d & Hd & Hs). exists d. split; [|done].
      now apply lookup_app_l_Some.
    + eexists. split; [apply list_lookup_middle; done|done].
Qed.

(** *** Field maps built field by field *)

Lemma foldl_insert_list_to_map (dl : list (string * nat)) (acc : gmap string nat) :
  NoDup dl.*1 ->
  foldl (fun m p => <[p.1 := p.2]> m) acc dl = list_to_map dl ∪ acc.
Proof.
  revert acc. induction dl as [|[n t] dl IH]; intros acc Hnd; cbn.
  - now rewrite (left_id_L ∅ (∪)).
  - apply NoDup_cons in Hnd as [Hn Hnd]. rewrite IH by done.
    rewrite <- insert_union_l. symmetry. apply insert_union_r.
    now apply not_elem_of_list_to_map_1.
Qed.

Lemma IterFields_list_to_map (dl : list (string * nat)) :
  NoDup dl.*1 -> StronglySorted String.le dl.*1 ->
  IterFields (list_to_map dl) = dl.
Proof.
  intros Hnd Hs.
  assert (Hnames : sortedNames (list_to_map dl) = dl.*1).
  { apply (StronglySorted_unique String.le); [apply sortedNames_sorted|done|].
    rewrite sortedNames_perm. now rewrite map_to_list_to_map. }
  unfold IterFields. rewrite Hnames.
  assert (Hsub : forall p, p ∈ dl -> p ∈ dl) by done.
  revert Hsub. generalize dl at 1 4 5. intros l Hsub.
  induction l as [|[n t] l IH]; [done|]. cbn.
  rewrite (elem_of_list_to_map_1 dl n t) by (try done; apply Hsub; left).
  cbn. f_equal. apply IH. intros p Hp. apply Hsub. now right.
Qed.

(** *** Reading a type back *)

Lemma readN_0 {A} (readOne : TestReader.t -> TypeHeap -> option (A * TestReader.t * TypeHeap)) r h :
  readN readOne 0 r h = Some ([], r, h).
Proof. reflexivity. Qed.

Lemma readN_S {A} (readOne : TestReader.t -> TypeHeap -> option (A * TestReader.t * TypeHeap)) n r h :
  readN readOne (S n) r h =
  '(x, r, h) ← readOne r h; '(xs, r, h) ← readN readOne n r h; Some (x :: xs, r, h).
Proof. reflexivity. Qed.

Lemma length_concat_elem {A} (xs : list (list A)) x :
  x ∈ xs -> length x <= length (concat xs).
Proof.
  induction xs as [|y xs IH]; [by intros ?%elem_of_nil|].
  cbn. rewrite length_app. intros [->|Hin]%elem_of_cons; [lia|].
  specialize (IH Hin). lia.
Qed.

Lemma readN_types fuel ps xs :
  Forall (decodes_type fuel ps) xs ->
  forall h rest, wf_heap h = true -> stack_ok h ps ->
    exists ts l,
      readN (readType fuel ps) (length xs) (concat xs ++ rest) h
      = Some (ts, rest, h ++ l)
      /\ wf_heap (h ++ l) = true
      /\ Forall2 (Encodes (h ++ l) ps) ts xs.
Proof.
  induction 1 as [|x xs Hx _ IH]; intros h rest Hwf Hok.
  - exists [], []. rewrite app_nil_r. split; [done|]. split; [done|constructor].
  - cbn [length concat]. rewrite readN_S, <- app_assoc.
    destruct (Hx h (concat xs ++ rest) Hwf Hok) as (t & la & Hr & Hwfa & Hea).
    rewrite Hr. cbn.
    destruct (IH (h ++ la) rest Hwfa) as (ts & lb & Hrb & Hwfb & Heb).
    { eapply stack_ok_agree; [exact Hok|apply agree_app]. }
    rewrite Hrb. cbn. exists (t :: ts), (la ++ lb). rewrite app_assoc.
    split; [done|]. split; [done|]. constructor; [|done].
    eapply Encodes_frame; [exact Hea|apply agree_app].
Qed.

Lemma readFields_S readOne st n r h :
  readFields readOne st (S n) r h =
  '(fieldName, r) ← TestReader.readString r;
  match verifyFieldName fieldName with
  | Panic _ => None
  | Ok _ => '(ft, r, h) ← readOne r h;
            readFields readOne st n r (setField st fieldName ft h)
  end.
Proof. reflexivity. Qed.

Lemma readFields_types fuel ps st name (names : list string) (es : list (list token)) :
  st ∈ ps ->
  Forall2 (fun n e => Regexp.MatchString fieldNameRe n = true
                      /\ decodes_type fuel ps e) names es ->
  forall h rest fs, wf_heap h = true -> stack_ok h ps ->
    h !! st = Some (StructDesc name fs) ->
    exists ts h',
      readFields (readType fuel ps) st (length names)
        (concat (zip_with (fun n e => Tstring n :: e) names es) ++ rest) h
      = Some (rest, h')
      /\ wf_heap h' = true
      /\ agree ps h h'
      /\ take st h' = take st h
      /\ h' !! st = Some (StructDesc name
                            (foldl (fun m p => <[p.1 := p.2]> m) fs (zip names ts)))
      /\ Forall2 (Encodes h' ps) ts es.
Proof.
  intros Hst. induction 1 as [|n e names es [Hn He] _ IH];
    intros h rest fs Hwf Hok Hh.
  - exists [], h. cbn. split; [done|]. split; [done|].
    split; [apply agree_refl|]. split; [done|]. split; [done|constructor].
  - cbn [length zip_with concat]. rewrite readFields_S. cbn.
    unfold verifyFieldName. rewrite Hn. rewrite <- app_assoc.
    destruct (He h (concat (zip_with (fun n e => Tstring n :: e) names es) ++ rest)
                Hwf Hok) as (t & la & Hr & Hwfa & Hea).
    rewrite Hr. cbn.
    pose proof (lookup_app_l_Some _ la _ _ Hh) as Hha.
    destruct (wf_heap_setField _ _ _ _ n t Hwfa Hha Hn (Encodes_lt _ _ _ _ Hea))
      as [Hwfs Hhs].
    assert (Hags : agree ps h (setField st n t (h ++ la))).
    { eapply agree_trans; [apply agree_app|now apply agree_setField]. }
    destruct (IH (setField st n t (h ++ la)) rest (<[n := t]> fs) Hwfs)
      as (ts & h' & Hrb & Hwfb & Hagb & Htk & Hhb & Heb); [|done|].
    { eapply stack_ok_agree; [exact Hok|done]. }
    rewrite Hrb. exists (t :: ts), h'.
    split; [done|]. split; [done|].
    split; [eapply agree_trans; eauto|].
    split.
    { rewrite Htk. unfold setField. rewrite Hha.
      rewrite take_insert_ge by done.
      apply take_app_le. apply lookup_lt_Some in Hh. lia. }
    split; [done|]. constructor; [|done].
    eapply Encodes_frame; [exact Hea|].
    eapply agree_trans; [|exact Hagb]. now apply agree_setField.
Qed.

Lemma length_concat_zip_with (names : list string) (es : list (list token)) e :
  length names = length es -> e ∈ es ->
  length e < length (concat (zip_with (fun n e => Tstring n :: e) names es)) .
Proof.
  revert names. induction es as [|e' es IH]; intros names Hl Hin;
    [by apply elem_of_nil in Hin|].
  destruct names as [|n names]; [done|]. cbn. rewrite length_app.
  apply elem_of_cons in Hin as [->|Hin]; [lia|].
  specialize (IH names ltac:(cbn in Hl; lia) Hin). lia.
Qed.

Lemma compound_built h ps k ts xs :
  wf_heap h = true -> compound_arity_ok k (length ts) = true ->
  Forall2 (Encodes h ps) ts xs ->
  wf_heap (h ++ [CompoundDesc k ts]) = true
  /\ Encodes (h ++ [CompoundDesc k ts]) ps (length h)
       (uint8 k ::
        (if decide (k = UnionKind) then [uint32 (N.of_nat (length ts))] else [])
        ++ concat xs).
Proof.
  intros Hwf Har Hts. split.
  - apply wf_heap_app; [done|]. cbn [wf_desc]. apply andb_true_iff. split; [done|].
    apply forallb_forall. intros e He. apply bool_decide_eq_true.
    apply list_elem_of_In in He.
    destruct (proj1 (list_elem_of_lookup _ _) He) as [i Hi].
    destruct (Forall2_lookup_l _ _ _ _ _ Hts Hi) as (x & _ & Hx).
    now apply Encodes_lt in Hx.
  - apply Encodes_compound; [now apply list_lookup_middle|].
    eapply Forall2_impl; [exact Hts|]. intros e x He.
    eapply Encodes_frame; [exact He|apply agree_app].
Qed.

Lemma Forall2_and_lr {A B} (P : A -> Prop) (Q : B -> Prop) (R : A -> B -> Prop) l k :
  Forall P l -> Forall Q k -> Forall2 R l k ->
  Forall2 (fun x y => P x /\ Q y /\ R x y) l k.
Proof.
  intros HP HQ HR. induction HR as [|x y l k Hxy _ IH]; [constructor|].
  apply Forall_cons in HP as [Hx HP]. apply Forall_cons in HQ as [Hy HQ].
  constructor; auto.
Qed.

Lemma readType_writeType h :
  wf_heap h = true ->
  forall fuel t ps x, writeType fuel h t ps = Some x ->
  forall fuel2 ps2, length x <= fuel2 -> length ps2 = length ps ->
    decodes_type fuel2 ps2 x.
Proof.
  intros Hwf. induction fuel as [|fuel IH]; intros t ps x Hw fuel2 ps2 Hlen Hps;
    [done|].
  destruct (h !! t) as [d|] eqn:Ht; [|cbn in Hw; now rewrite Ht in Hw].
  destruct d as [k|k es|name fields].
  - cbn [writeType] in Hw. rewrite Ht in Hw. injection Hw as <-.
    destruct fuel2 as [|fuel2]; [cbn in Hlen; lia|].
    pose proof (wf_heap_prim _ _ _ Hwf Ht) as Hk.
    intros h2 rest Hwf2 Hok2.
    destruct k; try done; cbn;
      (eexists _, []; rewrite app_nil_r; split; [reflexivity|]; split; [done|];
       apply Encodes_prim; apply (wf_heap_globals _ _ _ Hwf2); reflexivity).
  - destruct (writeType_compound_inv _ _ _ _ _ _ _ Hw Ht) as (xs & Hxs & ->).
    destruct (wf_heap_compound _ _ _ _ Hwf Ht) as [Har Hes].
    destruct fuel2 as [|fuel2]; [cbn in Hlen; lia|].
    assert (Hdec : Forall (decodes_type fuel2 ps2) xs).
    { apply Forall_forall. intros y Hy.
      destruct (proj1 (list_elem_of_lookup _ _) Hy) as [i Hi].
      destruct (Forall2_lookup_r _ _ _ _ _ Hxs Hi) as (e & _ & He).
      apply (IH e ps y He); [|done].
      pose proof (length_concat_elem _ _ Hy).
      destruct (decide (k = UnionKind)); cbn in Hlen; rewrite ?length_app in Hlen;
        cbn in Hlen; lia. }
    intros h2 rest Hwf2 Hok2.
    destruct (readN_types _ _ _ Hdec h2 rest Hwf2 Hok2) as (ts & l & Hr & Hwfl & Hets).
    pose proof (Forall2_length _ _ _ Hxs) as Hl1.
    pose proof (Forall2_length _ _ _ Hets) as Hl2.
    rewrite Hl1, <- Hl2 in Har.
    destruct (compound_built _ _ _ _ _ Hwfl Har Hets) as [Hwfb Heb].
    exists (length (h2 ++ l)), (l ++ [CompoundDesc k ts]).
    rewrite app_assoc. split; [|split; [done|]].
    + destruct (decide (k = UnionKind)) as [->|Hk].
      * cbn [readType]. cbn [TestReader.readUint8 TestReader.readUint32 TestReader.read app mbind option_bind].
        rewrite Hl1, Nat2N.id, Hr. reflexivity.
      * destruct k; try discriminate Har; try done; cbn in Har;
          apply bool_decide_eq_true in Har; rewrite Hl2 in Har;
          cbn [readType]; cbn [TestReader.readUint8 TestReader.readUint32 TestReader.read app mbind option_bind];
          rewrite <- Har, Hr; reflexivity.
    + rewrite Hl1, <- Hl2. exact Heb.
  - destruct (indexOf ps t) as [i|] eqn:Ei.
    + cbn in Hw. rewrite Ht, Ei in Hw. injection Hw as <-.
      destruct fuel2 as [|fuel2]; [cbn in Hlen; lia|].
      apply indexOf_Some in Ei as [Hi Hlt].
      intros h2 rest Hwf2 Hok2. cbn.
      rewrite Nat2N.id.
      replace (length ps2 - 1 - (length ps - 1 - i)) with i by lia.
      destruct (lookup_lt_is_Some_2 ps2 i) as [t2 Ht2]; [lia|]. rewrite Ht2. cbn.
      rewrite decide_True by lia. exists t2, []. rewrite app_nil_r.
      split; [done|]. split; [done|].
      destruct Hok2 as [Hnd Hst].
      destruct (Hst t2) as (d & Hd & Hs); [eapply list_elem_of_lookup_2; eauto|].
      destruct d; try done.
      replace (length ps - 1 - i) with (length ps2 - 1 - i) by lia.
      eapply Encodes_cycle; [exact Hd | now apply indexOf_lookup].
    + apply indexOf_None in Ei.
      destruct (writeType_struct_inv _ _ _ _ _ _ _ Hw Ht Ei) as (es & Hes & ->).
      destruct fuel2 as [|fuel2]; [cbn in Hlen; lia|].
      intros h2 rest Hwf2 Hok2.
      set (names := (IterFields fields).*1) in *.
      assert (Hln : length names = length es).
      { unfold names. rewrite <- (Forall2_length _ _ _ Hes). now rewrite !length_fmap. }
      assert (Hsorted : StronglySorted String.le names).
      { unfold names. rewrite IterFields_names. apply sortedNames_sorted. }
      assert (Hnd : NoDup names).
      { unfold names. rewrite IterFields_names. apply sortedNames_NoDup. }
      set (st := length h2).
      assert (Hdec : Forall2 (fun n e => Regexp.MatchString fieldNameRe n = true
                                /\ decodes_type fuel2 (ps2 ++ [st]) e) names es).
      { unfold names. apply Forall2_fmap_l. apply Forall2_fmap_l in Hes.
        assert (Hv : Forall (fun nf : string * nat =>
                       Regexp.MatchString fieldNameRe nf.1 = true) (IterFields fields)).
        { apply Forall_forall. intros [n ft] Hin%elem_of_IterFields.
          now destruct (wf_heap_struct _ _ _ _ _ _ Hwf Ht Hin). }
        assert (Hsz : Forall (fun e : list token => length e <= fuel2) es).
        { apply Forall_forall. intros e He.
          pose proof (length_concat_zip_with names es e Hln He) as Hc.
          rewrite length_app in Hlen. cbn in Hlen. fold names in Hlen. lia. }
        pose proof (Forall2_and_lr _ _ _ _ _ Hv Hsz Hes) as Hall.
        eapply Forall2_impl; [exact Hall|]. intros [n ft] e (Hn & Hsize & He).
        split; [done|]. eapply IH; [exact He|done|].
        rewrite !length_app. cbn. lia. }
      destruct (readFields_types fuel2 (ps2 ++ [st]) st name names es
                  ltac:(apply elem_of_app; right; now apply list_elem_of_singleton)
                  Hdec (h2 ++ [StructDesc name ∅]) rest ∅)
        as (ts & h' & Hr & Hwf' & Hag & Htk & Hh' & Hets).
      { now apply wf_heap_app. }
      { now apply stack_ok_push. }
      { now apply list_lookup_middle. }
      pose proof (Forall2_length _ _ _ Hets) as Hlts.
      assert (Hzn : (zip names ts).*1 = names) by (apply fst_zip; lia).
      assert (Hzt : (zip names ts).*2 = ts) by (apply snd_zip; lia).
      rewrite foldl_insert_list_to_map, (right_id_L ∅ (∪)) in Hh' by now rewrite Hzn.
      assert (Hh2 : h' = h2 ++ drop st h').
      { rewrite <- (take_drop st h') at 1. f_equal. rewrite Htk.
        unfold st. now rewrite take_app_length. }
      assert (Hit : IterFields (list_to_map (zip names ts)) = zip names ts).
      { apply IterFields_list_to_map; now rewrite Hzn. }
      exists st, (drop st h'). rewrite <- Hh2. split; [|split; [done|]].
      * cbn [readType]. cbn [TestReader.readUint8 TestReader.readUint32 TestReader.readString TestReader.read app mbind option_bind buildType].
        rewrite Nat2N.id. fold st. unfold names in Hr. rewrite length_fmap in Hr.
        fold names in Hr. rewrite Hr. cbn. rewrite Hh'.
        rewrite decide_True; [done|].
        rewrite map_size_list_to_map by now rewrite Hzn.
        rewrite length_zip_with. unfold names in *. rewrite length_fmap in *. lia.
      * assert (Hnin : st ∉ ps2).
        { intros Hin. pose proof (stack_ok_lt _ _ _ Hok2 Hin). unfold st in *. lia. }
        assert (Hf2 : Forall2 (Encodes h' (ps2 ++ [st]))
                        (IterFields (list_to_map (zip names ts))).*2 es)
          by now rewrite Hit, Hzt.
        pose proof (Encodes_struct h' ps2 st name _ es Hh' Hnin Hf2) as HE.
        rewrite Hit, Hzn in HE.
        replace (length (IterFields fields)) with (length (zip names ts)); [done|].
        rewrite length_zip_with. unfold names in *. rewrite length_fmap in *. lia.
Qed.

(** ** Values *)

Section Value_induction.
Variable P : Value -> Prop.
Hypothesis HBool : forall b, P (VBool b).
Hypothesis HNumber : forall n, P (VNumber n).
Hypothesis HString : forall s, P (VString s).
Hypothesis HBlob : forall bytes, P (VBlob bytes).
Hypothesis HLeaf : forall t items, Forall P items -> P (VLeaf t items).
Hypothesis HMapLeaf : forall t entries,
  Forall (fun kv => P kv.1 /\ P kv.2) entries -> P (VMapLeaf t entries).
Hypothesis HMeta : forall t tuples,
  Forall (fun tp => P tp.1.1 /\ P tp.1.2) tuples -> P (VMeta t tuples).
Hypothesis HStruct : forall t data, Forall (fun nv => P nv.2) data -> P (VStruct t data).
Hypothesis HRef : forall t target height, P (VRef t target height).
Hypothesis HType : forall t, P (VType t).

Fixpoint Value_nested_ind (v : Value) : P v :=
  match v with
  | VBool b => HBool b
  | VNumber n => HNumber n
  | VString s => HString s
  | VBlob bytes => HBlob bytes
  | VLeaf t items =>
      HLeaf t items
        ((fix go (l : list Value) : Forall P l :=
            match l with
            | [] => List.Forall_nil _
            | x :: r => @List.Forall_cons _ P x r (Value_nested_ind x) (go r)
            end) items)
  | VMapLeaf t entries =>
      HMapLeaf t entries
        ((fix go (l : list (Value * Value)) : Forall (fun kv => P kv.1 /\ P kv.2) l :=
            match l with
            | [] => List.Forall_nil _
            | (k, x) :: r =>
                @List.Forall_cons _ (fun kv => P kv.1 /\ P kv.2) (k, x) r
                  (conj (Value_nested_ind k) (Value_nested_ind x)) (go r)
            end) entries)
  | VMeta t tuples =>
      HMeta t tuples
        ((fix go (l : list (Value * Value * N)) : Forall (fun tp => P tp.1.1 /\ P tp.1.2) l :=
            match l with
            | [] => List.Forall_nil _
            | (ref, key, n) :: r =>
                @List.Forall_cons _ (fun tp => P tp.1.1 /\ P tp.1.2) (ref, key, n) r
                  (conj (Value_nested_ind ref) (Value_nested_ind key)) (go r)
            end) tuples)
  | VStruct t data =>
      HStruct t data
        ((fix go (l : list (string * Value)) : Forall (fun nv => P nv.2) l :=
            match l with
            | [] => List.Forall_nil _
            | (n, x) :: r =>
                @List.Forall_cons _ (fun nv => P nv.2) (n, x) r (Value_nested_ind x) (go r)
            end) data)
  | VRef t target height => HRef t target height
  | VType t => HType t
  end.

End Value_induction.

Lemma assoc_fmap {B C} (f : B -> C) n (data : list (string * B)) :
  assoc n ((fun '(m, x) => (m, f x)) <$> data) = f <$> assoc n data.
Proof.
  induction data as [|[m x] data IH]; [done|]. cbn.
  destruct (decide (m = n)); [done|]. exact IH.
Qed.

Lemma assoc_elem {B} n (data : list (string * B)) x :
  assoc n data = Some x -> (n, x) ∈ data.
Proof.
  induction data as [|[m y] data IH]; [done|]. cbn.
  destruct (decide (m = n)) as [->|].
  - intros [= ->]. left.
  - intros H. right. now apply IH.
Qed.

Lemma assoc_zip {B} (names : list string) (vs : list B) i n x :
  NoDup names -> names !! i = Some n -> vs !! i = Some x ->
  assoc n (zip names vs) = Some x.
Proof.
  intros Hnd. revert vs i. induction Hnd as [|m names Hm Hnd IH]; intros vs i; [done|].
  destruct vs as [|y vs]; [by destruct i|]. destruct i as [|i]; cbn.
  - intros [= ->] [= ->]. now rewrite decide_True.
  - intros Hn Hx. rewrite decide_False; [eauto|].
    intros ->. apply Hm. now apply list_elem_of_lookup_2 in Hn.
Qed.

(** The first items of the encoding of a type tell its kind and, for a
    struct type, its name and number of fields. *)
Lemma Encodes_head h t x d :
  wf_heap h = true -> Encodes h [] t x -> h !! t = Some d ->
  match d with
  | StructDesc name fields =>
      exists tl, x = uint8 StructKind :: Tstring name
                     :: uint32 (N.of_nat (length (IterFields fields))) :: tl
  | _ => Kind d <> StructKind /\ exists tl, x = uint8 (Kind d) :: tl
  end.
Proof.
  intros Hwf [[|f] Hf] Ht; [done|].
  destruct d as [k|k es|name fields].
  - pose proof (wf_heap_prim _ _ _ Hwf Ht) as Hk.
    cbn in Hf. rewrite Ht in Hf. injection Hf as <-.
    split; [by destruct k|]. now eexists.
  - destruct (wf_heap_compound _ _ _ _ Hwf Ht) as [Hk _].
    destruct (writeType_compound_inv _ _ _ _ _ _ _ Hf Ht) as (xs & _ & ->).
    split; [destruct k; cbn in *; congruence|]. now eexists.
  - destruct (writeType_struct_inv _ _ _ _ _ _ _ Hf Ht) as (es & _ & ->);
      [apply not_elem_of_nil|]. now eexists.
Qed.

Lemma encodeType_frame h l t x :
  wf_heap h = true -> wf_heap (h ++ l) = true ->
  encodeType h t = Some x -> encodeType (h ++ l) t = Some x.
Proof.
  intros Hwf Hwf' Hx. apply encodeType_Encodes; [done|].
  apply (Encodes_frame h); [now apply encodeType_Encodes|apply agree_app].
Qed.

(** *** The encoder, constructor by constructor *)

Ltac writeValue_eq :=
  intros; unfold with_type; cbn [writeValue typeOf];
  destruct (encodeType _ _); [|reflexivity]; cbn [mbind option_bind];
  match goal with
  | |- context [?h !! ?t] =>
      let d := fresh "d" in
      destruct (h !! t) as [d|]; [|reflexivity]; cbn [mbind option_bind];
      destruct d as [[]|[]|]; reflexivity
  end.

Lemma writeValue_VBool h b :
  writeValue h (VBool b)
  = with_type h BoolType (fun d =>
      match Kind d with BoolKind => Some [Tbool b] | _ => None end).
Proof. writeValue_eq. Qed.

Lemma writeValue_VNumber h n :
  writeValue h (VNumber n)
  = with_type h NumberType (fun d =>
      match Kind d with NumberKind => Some [float64 n] | _ => None end).
Proof. writeValue_eq. Qed.

Lemma writeValue_VString h s :
  writeValue h (VString s)
  = with_type h StringType (fun d =>
      match Kind d with StringKind => Some [Tstring s] | _ => None end).
Proof. writeValue_eq. Qed.

Lemma writeValue_VBlob h bytes :
  writeValue h (VBlob bytes)
  = with_type h BlobType (fun d =>
      match Kind d with
      | BlobKind => Some [Tbool false; Tbytes bytes]
      | _ => None
      end).
Proof. writeValue_eq. Qed.

Lemma writeValue_VLeaf h t items :
  writeValue h (VLeaf t items)
  = with_type h t (fun d =>
      match Kind d with
      | ListKind | SetKind =>
          es ← mapM (writeValue h) items;
          Some ([Tbool false; uint32 (N.of_nat (length items))] ++ concat es)
      | _ => None
      end).
Proof. writeValue_eq. Qed.

Lemma writeValue_VMapLeaf h t entries :
  writeValue h (VMapLeaf t entries)
  = with_type h t (fun d =>
      match Kind d with
      | MapKind =>
          es ← mapM (writeEntry h) entries;
          Some ([Tbool false; uint32 (N.of_nat (length entries))] ++ concat es)
      | _ => None
      end).
Proof.
  assert (mapM (fun '(k, x) => a ← writeValue h k; b ← writeValue h x; Some (a ++ b))
               entries = mapM (writeEntry h) entries) as <-
    by (apply mapM_ext; now intros [k x]).
  writeValue_eq.
Qed.

Lemma writeValue_VMeta h t tuples :
  writeValue h (VMeta t tuples)
  = with_type h t (fun d =>
      match Kind d with
      | BlobKind | ListKind | SetKind =>
          ts ← mapM (writeTuple h) tuples;
          Some ([Tbool true; uint32 (N.of_nat (length tuples))] ++ concat ts)
      | _ => None
      end).
Proof.
  assert (mapM (fun '(ref, key, numLeaves) =>
                  a ← writeValue h ref; b ← writeValue h key;
                  Some (a ++ b ++ written [TestWriter.writeUint64 numLeaves]))
               tuples = mapM (writeTuple h) tuples) as <-
    by (apply mapM_ext; now intros [[r k] n]).
  writeValue_eq.
Qed.

Lemma writeValue_VStruct h t data :
  writeValue h (VStruct t data)
  = with_type h t (fun d =>
      match d with
      | StructDesc _ fields =>
          bs ← mapM (fun n => assoc n data ≫= writeValue h) (IterFields fields).*1;
          Some (concat bs)
      | _ => None
      end).
Proof.
  assert (forall names,
    mapM (fun n => mjoin (assoc n ((fun '(m, x) => (m, writeValue h x)) <$> data))) names
    = mapM (fun n => assoc n data ≫= writeValue h) names) as Hm.
  { intros names. apply mapM_ext. intros n. rewrite assoc_fmap.
    now destruct (assoc n data). }
  unfold with_type. cbn [writeValue typeOf].
  destruct (encodeType h t); [|reflexivity]. cbn [mbind option_bind].
  destruct (h !! t) as [d|]; [|reflexivity]. cbn [mbind option_bind].
  destruct d as [[]|[]|name fields]; try reflexivity. cbn. now rewrite Hm.
Qed.

Lemma writeValue_VRef h t target height :
  writeValue h (VRef t target height)
  = with_type h t (fun d =>
      match Kind d with
      | RefKind => Some [Tstring target; uint64 height]
      | _ => None
      end).
Proof. writeValue_eq. Qed.

Lemma writeValue_VType h t :
  writeValue h (VType t)
  = with_type h typeForType (fun d =>
      match Kind d with TypeKind => encodeType h t | _ => None end).
Proof. writeValue_eq. Qed.

Lemma with_type_Some h t body x :
  with_type h t body = Some x <->
  exists hdr d b, encodeType h t = Some hdr /\ h !! t = Some d
                  /\ body d = Some b /\ x = hdr ++ b.
Proof.
  unfold with_type. split.
  - destruct (encodeType h t) as [hdr|]; [|done]. cbn.
    destruct (h !! t) as [d|]; [|done]. cbn.
    destruct (body d) as [b|] eqn:Hb; [|done]. cbn. intros [= <-].
    now exists hdr, d, b.
  - intros (hdr & d & b & -> & -> & Hb & ->). cbn. now rewrite Hb.
Qed.

(** *** Encodings of values do not change as the heap grows *)

Lemma mapM_impl {A B} (f g : A -> option B) (l : list A) (k : list B) :
  Forall (fun a => forall b, f a = Some b -> g a = Some b) l ->
  mapM f l = Some k -> mapM g l = Some k.
Proof.
  intros Hall Hk. apply mapM_Some_2. apply mapM_Some_1 in Hk.
  induction Hk as [|a b l k Hab _ IH]; [constructor|].
  apply Forall_cons in Hall as [Ha Hall]. constructor; auto.
Qed.

Lemma with_type_frame h l t body body' x :
  wf_heap h = true -> wf_heap (h ++ l) = true ->
  (forall d b, h !! t = Some d -> body d = Some b -> body' d = Some b) ->
  with_type h t body = Some x -> with_type (h ++ l) t body' = Some x.
Proof.
  intros Hwf Hwf' Hb (hdr & d & b & Hh & Hd & Hbd & ->)%with_type_Some.
  apply with_type_Some. exists hdr, d, b.
  split; [now apply encodeType_frame|]. split; [now apply lookup_app_l_Some|].
  split; [now apply Hb|done].
Qed.

Lemma writeValue_frame h l :
  wf_heap h = true -> wf_heap (h ++ l) = true ->
  forall v x, writeValue h v = Some x -> writeValue (h ++ l) v = Some x.
Proof.
  intros Hwf Hwf'.
  induction v as [b|n|s|bytes|t items IH|t entries IH|t tuples IH|t data IH
                  |t target height|t] using Value_nested_ind; intros x.
  - rewrite !writeValue_VBool. now apply with_type_frame.
  - rewrite !writeValue_VNumber. now apply with_type_frame.
  - rewrite !writeValue_VString. now apply with_type_frame.
  - rewrite !writeValue_VBlob. now apply with_type_frame.
  - rewrite !writeValue_VLeaf. apply with_type_frame; [done..|].
    intros d b _. destruct (Kind d); try done.
    all: destruct (mapM (writeValue h) items) as [es|] eqn:E; [|done];
      now rewrite (mapM_impl _ _ _ _ IH E).
  - rewrite !writeValue_VMapLeaf. apply with_type_frame; [done..|].
    intros d b _. destruct (Kind d); try done.
    destruct (mapM (writeEntry h) entries) as [es|] eqn:E; [|done].
    erewrite mapM_impl; [done| |exact E].
    eapply Forall_impl; [exact IH|]. intros [k v] [Hk Hv] y. unfold writeEntry. cbn in *.
    destruct (writeValue h k) as [a|] eqn:Ea; [|done].
    destruct (writeValue h v) as [c|] eqn:Ec; [|done].
    now rewrite (Hk _ eq_refl), (Hv _ eq_refl).
  - rewrite !writeValue_VMeta. apply with_type_frame; [done..|].
    intros d b _.
    assert (Hm : forall ts, mapM (writeTuple h) tuples = Some ts ->
                            mapM (writeTuple (h ++ l)) tuples = Some ts).
    { intros ts E. eapply mapM_impl; [|exact E].
      eapply Forall_impl; [exact IH|]. intros [[r k] n] [Hr Hk] y.
      unfold writeTuple. cbn in *.
      destruct (writeValue h r) as [a|] eqn:Ea; [|done].
      destruct (writeValue h k) as [c|] eqn:Ec; [|done].
      now rewrite (Hr _ eq_refl), (Hk _ eq_refl). }
    destruct (Kind d); try done.
    all: destruct (mapM (writeTuple h) tuples) as [ts|] eqn:E; [|done];
      now rewrite (Hm _ eq_refl).
  - rewrite !writeValue_VStruct. apply with_type_frame; [done..|].
    intros d b _. destruct d as [| |name fields]; try done.
    match goal with |- mbind _ ?m = _ -> _ => destruct m as [bs|] eqn:E end; [|done].
    erewrite mapM_impl; [done| |exact E].
    apply Forall_forall. intros n _ y Hy.
    destruct (assoc n data) as [v|] eqn:Ev; [|done]. cbn in *.
    rewrite Forall_forall in IH. apply (IH (n, v)); [|done].
    now apply assoc_elem.
  - rewrite !writeValue_VRef. now apply with_type_frame.
  - rewrite !writeValue_VType. apply with_type_frame; [done..|].
    intros d b _. destruct (Kind d); try done. now apply encodeType_frame.
Qed.

(** *** Reading a value back *)

Lemma stack_ok_nil h : stack_ok h [].
Proof. split; [constructor|]. intros p Hp. by apply elem_of_nil in Hp. Qed.

Lemma encodeType_global h g k :
  wf_heap h = true -> init_heap !! g = Some (PrimitiveDesc k) ->
  encodeType h g = Some [uint8 k] /\ h !! g = Some (PrimitiveDesc k).
Proof.
  intros Hwf Hg. pose proof (wf_heap_globals _ _ _ Hwf Hg) as Hh.
  split; [|done]. apply encodeType_Encodes; [done|]. now apply Encodes_prim.
Qed.

Lemma read_header h t hdr d :
  wf_heap h = true -> encodeType h t = Some hdr -> h !! t = Some d ->
  forall fuel, length hdr <= fuel -> forall h2 rest, wf_heap h2 = true ->
    exists t2 l d2,
      readType fuel [] (hdr ++ rest) h2 = Some (t2, rest, h2 ++ l)
      /\ wf_heap (h2 ++ l) = true
      /\ encodeType (h2 ++ l) t2 = Some hdr
      /\ (h2 ++ l) !! t2 = Some d2
      /\ Kind d2 = Kind d
      /\ (forall name fields, d = StructDesc name fields ->
          exists name2 fields2, d2 = StructDesc name2 fields2
            /\ length (IterFields fields2) = length (IterFields fields))
      /\ 1 <= length hdr.
Proof.
  intros Hwf Hh Hd fuel Hlen h2 rest Hwf2.
  pose proof (proj1 (encodeType_Encodes _ _ _ Hwf) Hh) as HE.
  destruct (readType_writeType h Hwf _ _ _ _ Hh fuel [] Hlen eq_refl h2 rest Hwf2
              (stack_ok_nil _)) as (t2 & l & Hr & Hwfl & He2).
  destruct (lookup_lt_is_Some_2 (h2 ++ l) t2 (Encodes_lt _ _ _ _ He2)) as [d2 Hd2].
  pose proof (Encodes_head _ _ _ _ Hwf HE Hd) as H1.
  pose proof (Encodes_head _ _ _ _ Hwfl He2 Hd2) as H2.
  exists t2, l, d2.
  split; [done|]. split; [done|]. split; [now apply encodeType_Encodes|].
  split; [done|].
  destruct d as [k|k es|name fields], d2 as [k2|k2 es2|name2 fields2]; cbn in *;
    repeat match goal with
           | H : _ /\ _ |- _ => destruct H
           | H : exists _, _ |- _ => destruct H
           end; subst; simplify_eq/=;
    (split; [congruence|]); (split; [|lia]);
    intros ? ? [=]; subst; eauto.
Qed.

Lemma readN_values {A} (readOne : TestReader.t -> TypeHeap -> option (A * TestReader.t * TypeHeap))
    (enc : TypeHeap -> A -> option (list token)) (xs : list (list token)) :
  (forall h l a x, wf_heap h = true -> wf_heap (h ++ l) = true ->
                   enc h a = Some x -> enc (h ++ l) a = Some x) ->
  Forall (fun x => forall h rest, wf_heap h = true ->
            exists a l, readOne (x ++ rest) h = Some (a, rest, h ++ l)
                        /\ wf_heap (h ++ l) = true /\ enc (h ++ l) a = Some x) xs ->
  forall h rest, wf_heap h = true ->
    exists vs l,
      readN readOne (length xs) (concat xs ++ rest) h = Some (vs, rest, h ++ l)
      /\ wf_heap (h ++ l) = true
      /\ Forall2 (fun a x => enc (h ++ l) a = Some x) vs xs.
Proof.
  intros Hframe. induction 1 as [|x xs Hx _ IH]; intros h rest Hwf.
  - exists [], []. rewrite app_nil_r. split; [done|]. split; [done|constructor].
  - cbn [length concat]. rewrite readN_S, <- app_assoc.
    destruct (Hx h (concat xs ++ rest) Hwf) as (a & la & Hr & Hwfa & Hea).
    rewrite Hr. cbn.
    destruct (IH (h ++ la) rest Hwfa) as (vs & lb & Hrb & Hwfb & Heb).
    rewrite Hrb. cbn. exists (a :: vs), (la ++ lb). rewrite app_assoc.
    split; [done|]. split; [done|]. constructor; [|done].
    now apply Hframe.
Qed.

Lemma with_type_intro h t (body : TypeDesc -> option (list token)) hdr d b :
  encodeType h t = Some hdr -> h !! t = Some d -> body d = Some b ->
  with_type h t body = Some (hdr ++ b).
Proof. intros. apply with_type_Some. now exists hdr, d, b. Qed.

Lemma decodes_value_weaken fuel x v :
  decodes_value fuel x v ->
  forall h rest, wf_heap h = true ->
    exists a l, readValue fuel (x ++ rest) h = Some (a, rest, h ++ l)
                /\ wf_heap (h ++ l) = true /\ writeValue (h ++ l) a = Some x.
Proof.
  intros Hd h rest Hwf. destruct (Hd h rest Hwf) as (v2 & l & ? & ? & ? & _). eauto.
Qed.

Lemma readValue_S fuel r h :
  readValue (S fuel) r h =
  '(t, r, h) ← readType fuel [] r h;
  d ← h !! t;
  match Kind d with
  | BoolKind => '(b, r) ← TestReader.readBool r; Some (VBool b, r, h)
  | NumberKind => '(n, r) ← TestReader.readFloat64 r; Some (VNumber n, r, h)
  | StringKind => '(s, r) ← TestReader.readString r; Some (VString s, r, h)
  | BlobKind =>
      '(isMeta, r) ← TestReader.readBool r;
      if (isMeta : bool) then readMetaSequence (readValue fuel) t r h
      else '(bytes, r) ← TestReader.readBytes r; Some (VBlob bytes, r, h)
  | ListKind | SetKind =>
      '(isMeta, r) ← TestReader.readBool r;
      if (isMeta : bool) then readMetaSequence (readValue fuel) t r h
      else
        '(len, r) ← TestReader.readUint32 r;
        '(items, r, h) ← readN (readValue fuel) (N.to_nat len) r h;
        Some (VLeaf t items, r, h)
  | MapKind =>
      '(isMeta, r) ← TestReader.readBool r;
      if (isMeta : bool) then None
      else
        '(len, r) ← TestReader.readUint32 r;
        '(entries, r, h) ← readN (readEntry (readValue fuel)) (N.to_nat len) r h;
        Some (VMapLeaf t entries, r, h)
  | RefKind =>
      '(target, r) ← TestReader.readHash r;
      '(height, r) ← TestReader.readUint64 r;
      Some (VRef t target height, r, h)
  | StructKind =>
      match d with
      | StructDesc _ fields =>
          let names := (IterFields fields).*1 in
          '(vs, r, h) ← readN (readValue fuel) (length names) r h;
          Some (VStruct t (zip names vs), r, h)
      | _ => None
      end
  | TypeKind => '(ty, r, h) ← readType fuel [] r h; Some (VType ty, r, h)
  | CycleKind | UnionKind | ValueKind => None
  end.
Proof. reflexivity. Qed.

Lemma writeEntry_frame h l :
  wf_heap h = true -> wf_heap (h ++ l) = true ->
  forall kv x, writeEntry h kv = Some x -> writeEntry (h ++ l) kv = Some x.
Proof.
  intros Hwf Hwf' [k v] x. unfold writeEntry. cbn.
  destruct (writeValue h k) as [a|] eqn:Ea; [|done].
  destruct (writeValue h v) as [b|] eqn:Eb; [|done]. cbn. intros [= <-].
  now rewrite (writeValue_frame h l Hwf Hwf' _ _ Ea),
              (writeValue_frame h l Hwf Hwf' _ _ Eb).
Qed.

Lemma writeTuple_frame h l :
  wf_heap h = true -> wf_heap (h ++ l) = true ->
  forall tp x, writeTuple h tp = Some x -> writeTuple (h ++ l) tp = Some x.
Proof.
  intros Hwf Hwf' [[r k] n] x. unfold writeTuple. cbn.
  destruct (writeValue h r) as [a|] eqn:Ea; [|done].
  destruct (writeValue h k) as [b|] eqn:Eb; [|done]. cbn. intros [= <-].
  now rewrite (writeValue_frame h l Hwf Hwf' _ _ Ea),
              (writeValue_frame h l Hwf Hwf' _ _ Eb).
Qed.

Lemma entries_decode h fuel (entries : list (Value * Value)) (es : list (list token)) :
  wf_heap h = true ->
  Forall (fun kv => (forall x, writeValue h kv.1 = Some x ->
                       forall fuel, length x < fuel -> decodes_value fuel x kv.1)
                    /\ (forall x, writeValue h kv.2 = Some x ->
                       forall fuel, length x < fuel -> decodes_value fuel x kv.2))
         entries ->
  Forall2 (fun kv e => writeEntry h kv = Some e) entries es ->
  length (concat es) < fuel ->
  Forall (fun x => forall h rest, wf_heap h = true ->
            exists a l, readEntry (readValue fuel) (x ++ rest) h = Some (a, rest, h ++ l)
                        /\ wf_heap (h ++ l) = true
                        /\ writeEntry (h ++ l) a = Some x) es.
Proof.
  intros Hwf IH Hes. induction Hes as [|[k v] e entries es He _ IHes]; intros Hlen;
    [constructor|].
  apply Forall_cons in IH as [[IHk IHv] IH]. cbn in Hlen. rewrite length_app in Hlen.
  constructor; [|apply IHes; [done|lia]].
  unfold writeEntry in He. cbn in He.
  destruct (writeValue h k) as [a|] eqn:Ea; [|done].
  destruct (writeValue h v) as [b|] eqn:Eb; [|done]. cbn in He. injection He as <-.
  rewrite length_app in Hlen.
  intros h2 rest Hwf2. unfold readEntry. rewrite <- app_assoc.
  destruct (IHk a Ea fuel ltac:(lia) h2 (b ++ rest) Hwf2)
    as (k2 & l1 & Hr1 & Hwf1 & Hw1 & _).
  rewrite Hr1. cbn [mbind option_bind].
  destruct (IHv b Eb fuel ltac:(lia) (h2 ++ l1) rest Hwf1)
    as (v2 & l2 & Hr2 & Hwf2' & Hw2 & _).
  rewrite Hr2. cbn [mbind option_bind].
  exists (k2, v2), (l1 ++ l2). rewrite app_assoc. split; [done|]. split; [done|].
  unfold writeEntry. cbn [fst snd].
  rewrite (writeValue_frame _ l2 Hwf1 Hwf2' _ _ Hw1), Hw2. done.
Qed.

Lemma tuples_decode h fuel (tuples : list (Value * Value * N)) (es : list (list token)) :
  wf_heap h = true ->
  Forall (fun tp => (forall x, writeValue h tp.1.1 = Some x ->
                       forall fuel, length x < fuel -> decodes_value fuel x tp.1.1)
                    /\ (forall x, writeValue h tp.1.2 = Some x ->
                       forall fuel, length x < fuel -> decodes_value fuel x tp.1.2))
         tuples ->
  Forall2 (fun tp e => writeTuple h tp = Some e) tuples es ->
  length (concat es) < fuel ->
  Forall (fun x => forall h rest, wf_heap h = true ->
            exists a l, readMetaTuple (readValue fuel) (x ++ rest) h
                        = Some (a, rest, h ++ l)
                        /\ wf_heap (h ++ l) = true
                        /\ writeTuple (h ++ l) a = Some x) es.
Proof.
  intros Hwf IH Hes. induction Hes as [|[[r k] n] e tuples es He _ IHes]; intros Hlen;
    [constructor|].
  apply Forall_cons in IH as [[IHr IHk] IH]. cbn in Hlen. rewrite length_app in Hlen.
  constructor; [|apply IHes; [done|lia]].
  unfold writeTuple in He. cbn in He.
  destruct (writeValue h r) as [a|] eqn:Ea; [|done].
  destruct (writeValue h k) as [b|] eqn:Eb; [|done]. cbn in He. injection He as <-.
  rewrite !length_app in Hlen.
  intros h2 rest Hwf2. unfold readMetaTuple. rewrite <- !app_assoc.
  destruct (IHr a Ea fuel ltac:(lia) h2 (b ++ [uint64 n] ++ rest) Hwf2)
    as (r2 & l1 & Hr1 & Hwf1 & Hw1 & _).
  rewrite Hr1. cbn [mbind option_bind].
  destruct (IHk b Eb fuel ltac:(lia) (h2 ++ l1) ([uint64 n] ++ rest) Hwf1)
    as (k2 & l2 & Hr2 & Hwf2' & Hw2 & _).
  rewrite Hr2. cbn.
  exists (r2, k2, n), (l1 ++ l2). rewrite app_assoc. split; [done|]. split; [done|].
  unfold writeTuple. cbn [fst snd].
  rewrite (writeValue_frame _ l2 Hwf1 Hwf2' _ _ Hw1), Hw2. done.
Qed.

Lemma items_decode h fuel (items : list Value) (es : list (list token)) :
  Forall (fun v => forall x, writeValue h v = Some x ->
            forall fuel, length x < fuel -> decodes_value fuel x v) items ->
  Forall2 (fun v e => writeValue h v = Some e) items es ->
  length (concat es) < fuel ->
  Forall (fun x => forall h rest, wf_heap h = true ->
            exists a l, readValue fuel (x ++ rest) h = Some (a, rest, h ++ l)
                        /\ wf_heap (h ++ l) = true
                        /\ writeValue (h ++ l) a = Some x) es.
Proof.
  intros IH Hes. induction Hes as [|v e items es He _ IHes]; intros Hlen;
    [constructor|].
  apply Forall_cons in IH as [IHv IH]. cbn in Hlen. rewrite length_app in Hlen.
  constructor; [|apply IHes; [done|lia]].
  apply decodes_value_weaken with v. apply IHv; [done|lia].
Qed.

Lemma struct_values h (data : list (string * Value)) names (bs : list (list token)) :
  Forall2 (fun n b => assoc n data ≫= writeValue h = Some b) names bs ->
  exists vals, Forall2 (fun v b => writeValue h v = Some b) vals bs
               /\ Forall (fun v => exists n, (n, v) ∈ data) vals.
Proof.
  induction 1 as [|n b names bs Hb _ (vals & Hvals & Hin)].
  - exists []. split; constructor.
  - destruct (assoc n data) as [v|] eqn:Ev; [|done]. cbn in Hb.
    exists (v :: vals). split; [now constructor|].
    constructor; [|done]. exists n. now apply assoc_elem.
Qed.

Ltac read_step :=
  cbn [TestReader.readBool TestReader.readUint8 TestReader.readUint32
       TestReader.readUint64 TestReader.readFloat64 TestReader.readString
       TestReader.readBytes TestReader.readHash TestReader.read
       app mbind option_bind].

Lemma readValue_writeValue h :
  wf_heap h = true ->
  forall v x, writeValue h v = Some x ->
  forall fuel, length x < fuel -> decodes_value fuel x v.
Proof.
  intros Hwf.
  induction v as [b|n|s|bytes|t items IH|t entries IH|t tuples IH|t data IH
                  |t target height|t] using Value_nested_ind;
    intros x Hx fuel Hlen h2 rest Hwf2;
    (destruct fuel as [|fuel]; [lia|]); rewrite readValue_S.
  - rewrite writeValue_VBool in Hx.
    apply with_type_Some in Hx as (hdr & d & body & Hh & Hd & Hb & ->).
    destruct (encodeType_global h BoolType BoolKind Hwf eq_refl) as [Hg1 Hg2].
    destruct (encodeType_global h2 BoolType BoolKind Hwf2 eq_refl) as [Hg3 Hg4].
    simplify_eq/=. destruct fuel as [|fuel]; [lia|]. cbn. rewrite Hg4. cbn.
    exists (VBool b), []. rewrite app_nil_r. split; [done|]. split; [done|].
    split; [|done]. rewrite writeValue_VBool.
    now apply (with_type_intro _ _ _ [uint8 BoolKind] (PrimitiveDesc BoolKind) [Tbool b]).
  - rewrite writeValue_VNumber in Hx.
    apply with_type_Some in Hx as (hdr & d & body & Hh & Hd & Hb & ->).
    destruct (encodeType_global h NumberType NumberKind Hwf eq_refl) as [Hg1 Hg2].
    destruct (encodeType_global h2 NumberType NumberKind Hwf2 eq_refl) as [Hg3 Hg4].
    simplify_eq/=. destruct fuel as [|fuel]; [lia|]. cbn. rewrite Hg4. cbn.
    exists (VNumber n), []. rewrite app_nil_r. split; [done|]. split; [done|].
    split; [|done]. rewrite writeValue_VNumber.
    now apply (with_type_intro _ _ _ [uint8 NumberKind] (PrimitiveDesc NumberKind) [float64 n]).
  - rewrite writeValue_VString in Hx.
    apply with_type_Some in Hx as (hdr & d & body & Hh & Hd & Hb & ->).
    destruct (encodeType_global h StringType StringKind Hwf eq_refl) as [Hg1 Hg2].
    destruct (encodeType_global h2 StringType StringKind Hwf2 eq_refl) as [Hg3 Hg4].
    simplify_eq/=. destruct fuel as [|fuel]; [lia|]. cbn. rewrite Hg4. cbn.
    exists (VString s), []. rewrite app_nil_r. split; [done|]. split; [done|].
    split; [|done]. rewrite writeValue_VString.
    now apply (with_type_intro _ _ _ [uint8 StringKind] (PrimitiveDesc StringKind) [Tstring s]).
  - rewrite writeValue_VBlob in Hx.
    apply with_type_Some in Hx as (hdr & d & body & Hh & Hd & Hb & ->).
    destruct (encodeType_global h BlobType BlobKind Hwf eq_refl) as [Hg1 Hg2].
    destruct (encodeType_global h2 BlobType BlobKind Hwf2 eq_refl) as [Hg3 Hg4].
    simplify_eq/=. destruct fuel as [|fuel]; [lia|]. cbn. rewrite Hg4. cbn.
    exists (VBlob bytes), []. rewrite app_nil_r. split; [done|]. split; [done|].
    split; [|done]. rewrite writeValue_VBlob.
    now apply (with_type_intro _ _ _ [uint8 BlobKind] (PrimitiveDesc BlobKind)
                 [Tbool false; Tbytes bytes]).
  - rewrite writeValue_VLeaf in Hx.
    apply with_type_Some in Hx as (hdr & d & body & Hh & Hd & Hb & ->).
    rewrite length_app in Hlen.
    destruct (read_header h t hdr d Hwf Hh Hd fuel ltac:(lia) h2 (body ++ rest) Hwf2)
      as (t2 & l & d2 & Hr & Hwfl & Hh2 & Hd2 & Hk & _ & Hhl).
    rewrite <- app_assoc, Hr. cbn [mbind option_bind]. rewrite Hd2. cbn [mbind option_bind].
    rewrite Hk.
    assert (exists es, mapM (writeValue h) items = Some es
              /\ body = [Tbool false; uint32 (N.of_nat (length items))] ++ concat es
              /\ (Kind d = ListKind \/ Kind d = SetKind)) as (es & Hes & -> & Hkd).
    { destruct (Kind d); try done;
        (destruct (mapM (writeValue h) items) as [es|]; [|done]);
        injection Hb as <-; eauto. }
    apply mapM_Some_1 in Hes. pose proof (Forall2_length _ _ _ Hes) as Hl.
    cbn in Hlen. rewrite ?length_app in Hlen.
    pose proof (items_decode h fuel items es IH Hes ltac:(lia)) as Hdec.
    destruct (readN_values (readValue fuel) writeValue es
                (fun h l a x Hw Hw' => writeValue_frame h l Hw Hw' a x)
                Hdec (h2 ++ l) rest Hwfl) as (vs & l' & Hrn & Hwf' & Hvs).
    pose proof (Forall2_length _ _ _ Hvs) as Hl'.
    exists (VLeaf t2 vs), (l ++ l'). rewrite app_assoc.
    assert (Hread : forall k, k = ListKind \/ k = SetKind ->
      Kind d = k ->
      writeValue ((h2 ++ l) ++ l') (VLeaf t2 vs)
      = Some (hdr ++ [Tbool false; uint32 (N.of_nat (length items))] ++ concat es)).
    { intros k Hk' Hkk. rewrite writeValue_VLeaf. apply with_type_intro with d2.
      - now apply encodeType_frame.
      - now apply lookup_app_l_Some.
      - rewrite Hk, Hkk. rewrite (mapM_Some_2 _ _ _ Hvs). cbn.
        rewrite Hl, <- Hl'. now destruct Hk' as [-> | ->]. }
    split; [|split; [done|split; [|done]]].
    + destruct Hkd as [Hkd|Hkd]; rewrite Hkd; read_step;
        now rewrite Nat2N.id, Hl, Hrn.
    + destruct Hkd; eauto.
  - rewrite writeValue_VMapLeaf in Hx.
    apply with_type_Some in Hx as (hdr & d & body & Hh & Hd & Hb & ->).
    rewrite length_app in Hlen.
    destruct (read_header h t hdr d Hwf Hh Hd fuel ltac:(lia) h2 (body ++ rest) Hwf2)
      as (t2 & l & d2 & Hr & Hwfl & Hh2 & Hd2 & Hk & _ & Hhl).
    rewrite <- app_assoc, Hr. cbn [mbind option_bind]. rewrite Hd2. cbn [mbind option_bind].
    rewrite Hk.
    assert (exists es, mapM (writeEntry h) entries = Some es
              /\ body = [Tbool false; uint32 (N.of_nat (length entries))] ++ concat es
              /\ Kind d = MapKind) as (es & Hes & -> & Hkd).
    { destruct (Kind d); try done;
        (destruct (mapM (writeEntry h) entries) as [es|]; [|done]);
        injection Hb as <-; eauto. }
    apply mapM_Some_1 in Hes. pose proof (Forall2_length _ _ _ Hes) as Hl.
    cbn in Hlen. rewrite ?length_app in Hlen.
    pose proof (entries_decode h fuel entries es Hwf IH Hes ltac:(lia)) as Hdec.
    destruct (readN_values (readEntry (readValue fuel)) writeEntry es
                (fun h l a x Hw Hw' => writeEntry_frame h l Hw Hw' a x)
                Hdec (h2 ++ l) rest Hwfl) as (vs & l' & Hrn & Hwf' & Hvs).
    pose proof (Forall2_length _ _ _ Hvs) as Hl'.
    exists (VMapLeaf t2 vs), (l ++ l'). rewrite app_assoc.
    split; [|split; [done|split; [|done]]].
    + rewrite Hkd; read_step. now rewrite Nat2N.id, Hl, Hrn.
    + rewrite writeValue_VMapLeaf. apply with_type_intro with d2.
      * now apply encodeType_frame.
      * now apply lookup_app_l_Some.
      * rewrite Hk, Hkd. rewrite (mapM_Some_2 _ _ _ Hvs). cbn.
        now rewrite Hl, <- Hl'.
  - rewrite writeValue_VMeta in Hx.
    apply with_type_Some in Hx as (hdr & d & body & Hh & Hd & Hb & ->).
    rewrite length_app in Hlen.
    destruct (read_header h t hdr d Hwf Hh Hd fuel ltac:(lia) h2 (body ++ rest) Hwf2)
      as (t2 & l & d2 & Hr & Hwfl & Hh2 & Hd2 & Hk & _ & Hhl).
    rewrite <- app_assoc, Hr. cbn [mbind option_bind]. rewrite Hd2. cbn [mbind option_bind].
    rewrite Hk.
    assert (exists es, mapM (writeTuple h) tuples = Some es
              /\ body = [Tbool true; uint32 (N.of_nat (length tuples))] ++ concat es
              /\ (Kind d = BlobKind \/ Kind d = ListKind \/ Kind d = SetKind))
      as (es & Hes & -> & Hkd).
    { destruct (Kind d); try done;
        (destruct (mapM (writeTuple h) tuples) as [es|]; [|done]);
        injection Hb as <-; eauto 6. }
    apply mapM_Some_1 in Hes. pose proof (Forall2_length _ _ _ Hes) as Hl.
    cbn in Hlen. rewrite ?length_app in Hlen.
    pose proof (tuples_decode h fuel tuples es Hwf IH Hes ltac:(lia)) as Hdec.
    destruct (readN_values (readMetaTuple (readValue fuel)) writeTuple es
                (fun h l a x Hw Hw' => writeTuple_frame h l Hw Hw' a x)
                Hdec (h2 ++ l) rest Hwfl) as (vs & l' & Hrn & Hwf' & Hvs).
    pose proof (Forall2_length _ _ _ Hvs) as Hl'.
    exists (VMeta t2 vs), (l ++ l'). rewrite app_assoc.
    split; [|split; [done|split; [|done]]].
    + unfold readMetaSequence.
      destruct Hkd as [Hkd|[Hkd|Hkd]]; rewrite Hkd; read_step;
        now rewrite Nat2N.id, Hl, Hrn.
    + rewrite writeValue_VMeta. apply with_type_intro with d2.
      * now apply encodeType_frame.
      * now apply lookup_app_l_Some.
      * rewrite Hk. rewrite (mapM_Some_2 _ _ _ Hvs).
        destruct Hkd as [Hkd|[Hkd|Hkd]]; rewrite Hkd; cbn; now rewrite Hl, <- Hl'.
  - rewrite writeValue_VStruct in Hx.
    apply with_type_Some in Hx as (hdr & d & body & Hh & Hd & Hb & ->).
    destruct d as [| |name fields]; try done.
    match type of Hb with mbind _ ?m = _ => destruct m as [bs|] eqn:E end; [|done].
    injection Hb as <-. rewrite length_app in Hlen.
    destruct (read_header h t hdr _ Hwf Hh Hd fuel ltac:(lia) h2 (concat bs ++ rest) Hwf2)
      as (t2 & l & d2 & Hr & Hwfl & Hh2 & Hd2 & Hk & Hst & Hhl).
    destruct (Hst _ _ eq_refl) as (name2 & fields2 & -> & Hlen2).
    rewrite <- app_assoc, Hr. cbn [mbind option_bind]. rewrite Hd2.
    cbn [mbind option_bind Kind].
    apply mapM_Some_1 in E. pose proof (Forall2_length _ _ _ E) as Hl.
    rewrite length_fmap in Hl.
    destruct (struct_values _ _ _ _ E) as (vals & Hvals & Hin).
    assert (IHvals : Forall (fun v => forall x, writeValue h v = Some x ->
                       forall fuel, length x < fuel -> decodes_value fuel x v) vals).
    { rewrite Forall_forall in IH. eapply Forall_impl; [exact Hin|].
      intros v [n Hn]. apply (IH (n, v) Hn). }
    pose proof (items_decode h fuel vals bs IHvals Hvals ltac:(lia)) as Hdec.
    destruct (readN_values (readValue fuel) writeValue bs
                (fun h l a x Hw Hw' => writeValue_frame h l Hw Hw' a x)
                Hdec (h2 ++ l) rest Hwfl) as (vs & l' & Hrn & Hwf' & Hvs).
    pose proof (Forall2_length _ _ _ Hvs) as Hl'.
    set (names2 := (IterFields fields2).*1).
    assert (Hn2 : length names2 = length bs).
    { unfold names2. rewrite length_fmap. lia. }
    exists (VStruct t2 (zip names2 vs)), (l ++ l'). rewrite app_assoc.
    split; [|split; [done|split; [|done]]].
    + cbv zeta. fold names2. now rewrite Hn2, Hrn.
    + rewrite writeValue_VStruct. apply with_type_intro with (StructDesc name2 fields2).
      * now apply encodeType_frame.
      * now apply lookup_app_l_Some.
      * fold names2. erewrite mapM_Some_2; [done|].
        apply Forall2_same_length_lookup_2; [done|]. intros i n b Hni Hbi.
        destruct (Forall2_lookup_r _ _ _ _ _ Hvs Hbi) as (v & Hvi & Hv).
        rewrite (assoc_zip names2 vs i n v); [done| |done|done].
        unfold names2. rewrite IterFields_names. apply sortedNames_NoDup.
  - rewrite writeValue_VRef in Hx.
    apply with_type_Some in Hx as (hdr & d & body & Hh & Hd & Hb & ->).
    rewrite length_app in Hlen.
    destruct (read_header h t hdr d Hwf Hh Hd fuel ltac:(lia) h2 (body ++ rest) Hwf2)
      as (t2 & l & d2 & Hr & Hwfl & Hh2 & Hd2 & Hk & _ & Hhl).
    rewrite <- app_assoc, Hr. cbn [mbind option_bind]. rewrite Hd2. cbn [mbind option_bind].
    rewrite Hk. destruct (Kind d) eqn:Hkd; try done. injection Hb as <-.
    read_step. exists (VRef t2 target height), l.
    split; [done|]. split; [done|]. split; [|done].
    rewrite writeValue_VRef. apply with_type_intro with d2; [done..|].
    now rewrite Hk.
  - rewrite writeValue_VType in Hx.
    apply with_type_Some in Hx as (hdr & d & body & Hh & Hd & Hb & ->).
    destruct (encodeType_global h typeForType TypeKind Hwf eq_refl) as [Hg1 Hg2].
    destruct (encodeType_global h2 TypeType TypeKind Hwf2 eq_refl) as [Hg3 Hg4].
    simplify_eq/=.
    assert (Hrt : readType fuel [] (uint8 TypeKind :: body ++ rest) h2
                  = Some (TypeType, body ++ rest, h2))
      by (destruct fuel; [lia|reflexivity]).
    rewrite Hrt. cbn [mbind option_bind]. rewrite Hg4. cbn [mbind option_bind Kind].
    destruct (lookup_lt_is_Some_2 h t) as [dt Hdt].
    { apply (Encodes_lt h [] t body). now apply encodeType_Encodes. }
    destruct (read_header h t body dt Hwf Hb Hdt fuel ltac:(lia) h2 rest Hwf2)
      as (t2 & l & d2 & Hr & Hwfl & Hh2 & Hd2 & Hk & _ & Hhl).
    rewrite Hr. cbn [mbind option_bind]. exists (VType t2), l.
    split; [done|]. split; [done|]. split; [|done].
    rewrite writeValue_VType.
    destruct (encodeType_global (h2 ++ l) typeForType TypeKind Hwfl eq_refl) as [Hg5 Hg6].
    now apply (with_type_intro _ _ _ [uint8 TypeKind] (PrimitiveDesc TypeKind) body).
Qed.

(** *** Well-formed values have an encoding *)

Lemma with_type_is_Some h t body :
  wf_heap h = true -> t < length h ->
  (forall d, h !! t = Some d -> is_Some (body d)) ->
  is_Some (with_type h t body).
Proof.
  intros Hwf Ht Hb. destruct (encodeType_total h t Hwf Ht) as [hdr Hh].
  destruct (lookup_lt_is_Some_2 h t Ht) as [d Hd].
  destruct (Hb d Hd) as [b Hbd]. exists (hdr ++ b).
  now apply with_type_intro with d.
Qed.

Lemma global_lt h g d :
  wf_heap h = true -> init_heap !! g = Some d -> g < length h.
Proof.
  intros Hwf Hg. apply (wf_heap_globals _ _ _ Hwf) in Hg.
  now apply lookup_lt_Some in Hg.
Qed.

Lemma writeValue_total h :
  wf_heap h = true ->
  forall v, wf_value h v = true -> is_Some (writeValue h v).
Proof.
  intros Hwf.
  induction v as [b|n|s|bytes|t items IH|t entries IH|t tuples IH|t data IH
                  |t target height|t] using Value_nested_ind; intros Hv.
  - rewrite writeValue_VBool. apply with_type_is_Some; [done|now eapply global_lt|].
    intros d Hd. rewrite (wf_heap_globals h BoolType _ Hwf eq_refl) in Hd.
    now injection Hd as <-.
  - rewrite writeValue_VNumber. apply with_type_is_Some; [done|now eapply global_lt|].
    intros d Hd. rewrite (wf_heap_globals h NumberType _ Hwf eq_refl) in Hd.
    now injection Hd as <-.
  - rewrite writeValue_VString. apply with_type_is_Some; [done|now eapply global_lt|].
    intros d Hd. rewrite (wf_heap_globals h StringType _ Hwf eq_refl) in Hd.
    now injection Hd as <-.
  - rewrite writeValue_VBlob. apply with_type_is_Some; [done|now eapply global_lt|].
    intros d Hd. rewrite (wf_heap_globals h BlobType _ Hwf eq_refl) in Hd.
    now injection Hd as <-.
  - rewrite writeValue_VLeaf. cbn [wf_value] in Hv.
    destruct (h !! t) as [d|] eqn:Hd; [|done].
    apply with_type_is_Some; [done|now apply lookup_lt_Some in Hd|].
    intros d' Hd'; rewrite Hd in Hd'; injection Hd' as <-.
    assert (is_Some (mapM (writeValue h) items)) as [es Hes].
    { apply mapM_is_Some. destruct d as [|[] ?|]; try done.
      all: rewrite forallb_forall in Hv; rewrite Forall_forall in IH;
        apply Forall_forall; intros x Hx; apply IH; [done|];
        now apply Hv, list_elem_of_In. }
    rewrite Hes. destruct d as [|[] ?|]; try done.
  - rewrite writeValue_VMapLeaf. cbn [wf_value] in Hv.
    destruct (h !! t) as [d|] eqn:Hd; [|done].
    apply with_type_is_Some; [done|now apply lookup_lt_Some in Hd|].
    intros d' Hd'; rewrite Hd in Hd'; injection Hd' as <-. destruct d as [|[] ?|]; try done.
    assert (is_Some (mapM (writeEntry h) entries)) as [es Hes].
    { apply mapM_is_Some. rewrite forallb_forall in Hv. rewrite Forall_forall in IH.
      apply Forall_forall. intros [k x] Hx. destruct (IH _ Hx) as [IHk IHx].
      apply list_elem_of_In, Hv, andb_true_iff in Hx as [Hk Hx'].
      destruct (IHk Hk) as [a Ha], (IHx Hx') as [c Hc].
      unfold writeEntry. cbn in *. rewrite Ha, Hc. done. }
    cbn. rewrite Hes. done.
  - rewrite writeValue_VMeta. cbn [wf_value] in Hv.
    destruct (h !! t) as [d|] eqn:Hd; [|done].
    apply andb_true_iff in Hv as [Hk Hv].
    apply with_type_is_Some; [done|now apply lookup_lt_Some in Hd|].
    intros d' Hd'; rewrite Hd in Hd'; injection Hd' as <-.
    assert (is_Some (mapM (writeTuple h) tuples)) as [es Hes].
    { apply mapM_is_Some. rewrite forallb_forall in Hv. rewrite Forall_forall in IH.
      apply Forall_forall. intros [[r k] n] Hx. destruct (IH _ Hx) as [IHr IHk].
      apply list_elem_of_In, Hv, andb_true_iff in Hx as [Hr' Hk'].
      destruct (IHr Hr') as [a Ha], (IHk Hk') as [c Hc].
      unfold writeTuple. cbn in *. rewrite Ha, Hc. done. }
    rewrite Hes. destruct (Kind d); done.
  - rewrite writeValue_VStruct. cbn [wf_value] in Hv.
    destruct (h !! t) as [d|] eqn:Hd; [|done].
    destruct d as [| |name fields]; try done.
    apply andb_true_iff in Hv as [Hnames Hv].
    apply with_type_is_Some; [done|now apply lookup_lt_Some in Hd|].
    intros d' Hd'; rewrite Hd in Hd'; injection Hd' as <-.
    match goal with |- is_Some (mbind _ ?m) => assert (is_Some m) as [bs ->] end;
      [|done].
    apply mapM_is_Some. rewrite forallb_forall in Hnames, Hv.
    rewrite Forall_forall in IH. apply Forall_forall. intros n Hn.
    apply list_elem_of_In, Hnames, bool_decide_eq_true in Hn as [x Hx].
    cbn. rewrite Hx. cbn. apply assoc_elem in Hx.
    apply (IH (n, x) Hx). apply list_elem_of_In in Hx. now apply (Hv (n, x)).
  - rewrite writeValue_VRef. cbn [wf_value] in Hv.
    destruct (h !! t) as [d|] eqn:Hd; [|done].
    apply with_type_is_Some; [done|now apply lookup_lt_Some in Hd|].
    intros d' Hd'; rewrite Hd in Hd'; injection Hd' as <-. destruct d as [|[] ?|]; done.
  - rewrite writeValue_VType. cbn [wf_value] in Hv. apply bool_decide_eq_true in Hv.
    apply with_type_is_Some; [done|now eapply global_lt|].
    intros d Hd. rewrite (wf_heap_globals h typeForType _ Hwf eq_refl) in Hd.
    injection Hd as <-. now apply encodeType_total.
Qed.

(** ** Encoding then decoding *)

Lemma decodeValue_encodeValue h v c :
  wf_heap h = true -> encodeValue v h = Some c ->
  exists v' l,
    decodeValue c h = Some (v', h ++ l)
    /\ wf_heap (h ++ l) = true
    /\ encodeValue v (h ++ l) = Some c
    /\ encodeValue v' (h ++ l) = Some c
    /\ same_prim v v'.
Proof.
  intros Hwf Hc.
  destruct (readValue_writeValue h Hwf v c Hc (S (length c)) ltac:(lia) h [] Hwf)
    as (v' & l & Hr & Hwf' & Hw & Hs).
  exists v', l. unfold decodeValue. rewrite app_nil_r in Hr. rewrite Hr. cbn.
  split; [done|]. split; [done|]. split; [|done].
  now apply writeValue_frame.
Qed.

Lemma equals_same_encoding (computeHash : list token -> string) h v v' c :
  same_prim v v' -> encodeValue v h = Some c -> encodeValue v' h = Some c ->
  equals computeHash h v v' = Some true.
Proof.
  intros [Htag Hprim] Hc Hc'.
  destruct v; cbn in Hprim;
    try (rewrite (Hprim eq_refl); cbn; unfold number_equals;
         now rewrite ?bool_decide_eq_true_2);
    destruct v'; try discriminate Htag;
    cbn [equals]; unfold EnsureRef; rewrite Hc, Hc'; cbn;
    now rewrite bool_decide_eq_true_2.
Qed.





(** ** The encodings the test-suites expect *)

(** [test('struct')]: [newStruct('S', {x: 42, b: true})]. *)
Example test_struct :
  encodeValue (VStruct 14 [("x", num 42); ("b", VBool true)]) test_heap
  = Some [uint8 StructKind; Tstring "S"; uint32 2;
          Tstring "b"; uint8 BoolKind; Tstring "x"; uint8 NumberKind;
          uint8 BoolKind; Tbool true; uint8 NumberKind; f64 42].
Proof. vm_compute. reflexivity. Qed.

(** [test('recursive struct')]: [struct A6 {cs: List<A6>, v: Number}]. *)
Example test_recursive_struct :
  encodeValue (VStruct 9 [("v", num 42); ("cs", VLeaf 13 [])]) test_heap
  = Some [uint8 StructKind; Tstring "A6"; uint32 2;
          Tstring "cs"; uint8 ListKind; uint8 CycleKind; uint32 0;
          Tstring "v"; uint8 NumberKind;
          uint8 ListKind; uint8 UnionKind; uint32 0; Tbool false; uint32 0;
          uint8 NumberKind; f64 42].
Proof. vm_compute. reflexivity. Qed.

(** [test('primitives')], [test('list')], [test('ref')], [test('types')]. *)
Example test_primitives :
  encodeValue (VBool true) test_heap = Some [uint8 BoolKind; Tbool true]
  /\ encodeValue (num 0) test_heap = Some [uint8 NumberKind; f64 0]
  /\ encodeValue (num (10 ^ 18)) test_heap = Some [uint8 NumberKind; f64 1000000000000000000]
  /\ encodeValue (VString "hi") test_heap = Some [uint8 StringKind; Tstring "hi"]
  /\ encodeValue (VLeaf 7 [num 0; num 1; num 2; num 3]) test_heap
     = Some [uint8 ListKind; uint8 NumberKind; Tbool false; uint32 4;
             uint8 NumberKind; f64 0; uint8 NumberKind; f64 1;
             uint8 NumberKind; f64 2; uint8 NumberKind; f64 3]
  /\ encodeValue (VType 7) test_heap = Some [uint8 TypeKind; uint8 ListKind; uint8 NumberKind]
  /\ encodeValue (VLeaf 13 []) test_heap
     = Some [uint8 ListKind; uint8 UnionKind; uint32 0; Tbool false; uint32 0].
Proof. vm_compute. repeat split; reflexivity. Qed.

(** [TestTypes]: the recursive type of the Go suite is written and read
    back to a type that [Equals] holds of. *)
Example test_TestTypes_recType :
  encodeValue (VType 16) test_heap
  = Some [uint8 TypeKind; uint8 StructKind; Tstring "RecursiveStruct"; uint32 1;
          Tstring "self"; uint8 CycleKind; uint32 0]
  /\ (c ← encodeValue (VType 16) test_heap;
      '(v, h') ← decodeValue c test_heap;
      Equals exampleHash h' 16 (Some v)) = Some true.
Proof. vm_compute. split; reflexivity. Qed.

(** ** Equality of types *)

Lemma indexOf_fresh (n t : nat) ps1 ps2 :
  t < n -> Forall2 (fun a b => a = b \/ (n <= a /\ n <= b)) ps1 ps2 ->
  indexOf ps1 t = indexOf ps2 t.
Proof.
  intros Ht. induction 1 as [|a b ps1 ps2 Hab _ IH]; [done|]. cbn.
  destruct Hab as [->|[Ha Hb]].
  - destruct (decide (b = t)); [done|]. now rewrite IH.
  - rewrite !decide_False by lia. now rewrite IH.
Qed.

(** Struct types on the stack that are not part of the heap [h] do not
    matter to the walk of a type of [h]. *)
Lemma writeType_fresh_stack h l :
  wf_heap h = true ->
  forall fuel t ps1 ps2, t < length h ->
    Forall2 (fun a b => a = b \/ (length h <= a /\ length h <= b)) ps1 ps2 ->
    writeType fuel (h ++ l) t ps1 = writeType fuel (h ++ l) t ps2.
Proof.
  intros Hwf. induction fuel as [|fuel IH]; intros t ps1 ps2 Ht Hps; [done|].
  cbn [writeType]. destruct (lookup_lt_is_Some_2 h t Ht) as [d Hd].
  rewrite (lookup_app_l_Some _ l _ _ Hd).
  destruct d as [k|k es|name fields]; [done| |].
  - destruct (wf_heap_compound _ _ _ _ Hwf Hd) as [_ Hes].
    erewrite Forall_mapM_ext; [reflexivity|].
    eapply Forall_impl; [exact Hes|]. intros e He. cbn beta in He.
    apply IH; [lia|done].
  - rewrite (indexOf_fresh (length h) t ps1 ps2 Ht Hps).
    rewrite (Forall2_length _ _ _ Hps).
    destruct (indexOf ps2 t); [done|].
    erewrite Forall_mapM_ext; [reflexivity|].
    apply Forall_forall. intros [n ft] Hin%elem_of_IterFields.
    destruct (wf_heap_struct _ _ _ _ _ _ Hwf Hd Hin) as [_ Hft].
    rewrite (IH ft (ps1 ++ [t]) (ps2 ++ [t])); [done|done|].
    apply Forall2_app; [done|]. constructor; [now left|constructor].
Qed.

Lemma MakeStructType_Ok name (fields : gmap string nat) h s h' :
  MakeStructType name fields h = Ok (s, h') ->
  s = length h /\ h' = h ++ [StructDesc name fields]
  /\ forall n p, fields !! n = Some p -> Regexp.MatchString fieldNameRe n = true.
Proof.
  unfold MakeStructType. rewrite verifyFieldNames_forallb.
  destruct (forallb _ _) eqn:E; [|done]. intros [= <- <-].
  split; [done|]. split; [done|]. intros n p Hn. rewrite fieldNameRe_grammar.
  rewrite forallb_forall in E. apply E. apply in_map_iff. exists (n, p).
  split; [done|]. now apply list_elem_of_In, elem_of_map_to_list.
Qed.

Lemma wf_heap_struct_app h name (fields : gmap string nat) :
  wf_heap h = true ->
  (forall n p, fields !! n = Some p ->
     Regexp.MatchString fieldNameRe n = true /\ p < length h) ->
  wf_heap (h ++ [StructDesc name fields]) = true.
Proof.
  intros Hwf Hf. apply wf_heap_app; [done|]. cbn [wf_desc].
  apply forallb_forall. intros [n p] Hin%list_elem_of_In%elem_of_map_to_list.
  destruct (Hf n p Hin). apply andb_true_iff. split; [done|].
  apply bool_decide_eq_true. rewrite length_app. lia.
Qed.

Lemma encodeType_VType h t c :
  wf_heap h = true ->
  encodeValue (VType t) h = Some c <->
  exists body, encodeType h t = Some body /\ c = uint8 TypeKind :: body.
Proof.
  intros Hwf. unfold encodeValue. rewrite writeValue_VType, with_type_Some.
  destruct (encodeType_global h typeForType TypeKind Hwf eq_refl) as [Hg1 Hg2].
  split.
  - intros (hdr & d & b & Hh & Hd & Hb & ->). simplify_eq/=. eauto.
  - intros (body & Hb & ->). exists [uint8 TypeKind], (PrimitiveDesc TypeKind), body.
    done.
Qed.

Lemma Forall2_Encodes_det h ps (ts : list nat) (xs ys : list (list token)) :
  Forall2 (Encodes h ps) ts xs -> Forall2 (Encodes h ps) ts ys -> xs = ys.
Proof.
  intros Hx. revert ys. induction Hx as [|t x ts xs Htx _ IH]; intros ys Hy.
  - now apply Forall2_nil_inv_l in Hy.
  - apply Forall2_cons_inv_l in Hy as (y & ys' & Hty & Hy & ->).
    f_equal; [eapply Encodes_det; eauto|auto].
Qed.

(** Two struct types built one after the other from the same field map
    have the same encoding but for their names. *)
Lemma twin_structs h name name' (fields : gmap string nat) :
  wf_heap h = true ->
  (forall n p, fields !! n = Some p ->
     Regexp.MatchString fieldNameRe n = true /\ p < length h) ->
  let h2 := h ++ [StructDesc name fields; StructDesc name' fields] in
  wf_heap h2 = true
  /\ exists es,
       encodeType h2 (length h)
       = Some ([uint8 StructKind; Tstring name;
                uint32 (N.of_nat (length (IterFields fields)))] ++ es)
       /\ encodeType h2 (S (length h))
          = Some ([uint8 StructKind; Tstring name';
                   uint32 (N.of_nat (length (IterFields fields)))] ++ es).
Proof.
  intros Hwf Hf h2.
  assert (Hwf1 : wf_heap (h ++ [StructDesc name fields]) = true)
    by now apply wf_heap_struct_app.
  assert (Hh2 : h2 = (h ++ [StructDesc name fields]) ++ [StructDesc name' fields])
    by (unfold h2; now rewrite <- app_assoc).
  assert (Hwf2 : wf_heap h2 = true).
  { rewrite Hh2. apply wf_heap_struct_app; [done|].
    intros n p Hn. destruct (Hf n p Hn). split; [done|]. rewrite length_app. lia. }
  split; [done|].
  assert (Hd1 : h2 !! length h = Some (StructDesc name fields))
    by (unfold h2; now rewrite list_lookup_middle).
  assert (Hd2 : h2 !! S (length h) = Some (StructDesc name' fields)).
  { rewrite Hh2. apply list_lookup_middle. rewrite length_app. cbn. lia. }
  destruct (encodeType_total h2 (length h) Hwf2) as [x1 Hx1];
    [unfold h2; rewrite length_app; cbn; lia|].
  destruct (encodeType_total h2 (S (length h)) Hwf2) as [x2 Hx2];
    [unfold h2; rewrite length_app; cbn; lia|].
  rewrite Hx1, Hx2.
  apply (encodeType_Encodes _ _ _ Hwf2) in Hx1 as [[|f1] Hw1]; [done|].
  apply (encodeType_Encodes _ _ _ Hwf2) in Hx2 as [[|f2] Hw2]; [done|].
  destruct (writeType_struct_inv _ _ _ _ _ _ _ Hw1 Hd1 (not_elem_of_nil _))
    as (es1 & He1 & ->).
  destruct (writeType_struct_inv _ _ _ _ _ _ _ Hw2 Hd2 (not_elem_of_nil _))
    as (es2 & He2 & ->).
  assert (es1 = es2) as <-.
  { apply (Forall2_Encodes_det h2 [length h] (IterFields fields).*2).
    - eapply Forall2_impl; [exact He1|]. intros ft e He. now exists f1.
    - apply Forall2_fmap_l. apply Forall2_fmap_l in He2.
      apply Forall2_same_length_lookup_2; [now apply Forall2_length in He2|].
      intros i [n ft] e Hi Hei.
      pose proof (Forall2_lookup_lr _ _ _ _ _ _ He2 Hi Hei) as He. cbn in *.
      apply list_elem_of_lookup_2, elem_of_IterFields in Hi.
      destruct (Hf n ft Hi) as [_ Hft]. exists f2.
      unfold h2 in *. rewrite <- He.
      apply writeType_fresh_stack; [done|done|].
      constructor; [right; lia|constructor]. }
  eexists. split; reflexivity.
Qed.

(** C4.  For two types of a well-formed heap, [Equals] holds exactly when
    their content addresses are equal.  Two struct types built one after
    the other with the same name and field map are equal; built with
    different names they are not, unless their two encodings collide under
    the digest. *)
Theorem Type_Equals_iff_same_address (computeHash : list token -> string)
    (h : TypeHeap) (t u : nat) :
  wf_heap h = true -> t < length h -> u < length h ->
  (exists a b,
     Ref computeHash h t = Some a /\ Ref computeHash h u = Some b
     /\ Equals computeHash h t (Some (VType u)) = Some (bool_decide (a = b)))
  /\ (Equals computeHash h t (Some (VType u)) = Some true
      <-> Ref computeHash h t = Ref computeHash h u)
  /\ (forall name (fields : gmap string nat) s1 h1 s2 h2,
        (forall n p, fields !! n = Some p -> p < length h) ->
        MakeStructType name fields h = Ok (s1, h1) ->
        MakeStructType name fields h1 = Ok (s2, h2) ->
        s1 <> s2 /\ Equals computeHash h2 s1 (Some (VType s2)) = Some true)
  /\ (forall name name' (fields : gmap string nat) s1 h1 s2 h2,
        (forall n p, fields !! n = Some p -> p < length h) ->
        name <> name' ->
        MakeStructType name fields h = Ok (s1, h1) ->
        MakeStructType name' fields h1 = Ok (s2, h2) ->
        (forall c1 c2, encodeValue (VType s1) h2 = Some c1 ->
                       encodeValue (VType s2) h2 = Some c2 ->
                       computeHash c1 = computeHash c2 -> c1 = c2) ->
        Equals computeHash h2 s1 (Some (VType s2)) = Some false).
Proof.
  intros Hwf Ht Hu.
  destruct (writeValue_total h Hwf (VType t)) as [ct Hct];
    [now apply bool_decide_eq_true|].
  destruct (writeValue_total h Hwf (VType u)) as [cu Hcu];
    [now apply bool_decide_eq_true|].
  assert (HR : Ref computeHash h t = Some (computeHash ct)
               /\ Ref computeHash h u = Some (computeHash cu)).
  { unfold Ref, EnsureRef, encodeValue. now rewrite Hct, Hcu. }
  destruct HR as [HRt HRu].
  assert (HE : Equals computeHash h t (Some (VType u))
               = Some (bool_decide (computeHash ct = computeHash cu))).
  { unfold Equals. fold (Ref computeHash h u). now rewrite HRt, HRu. }
  split; [eauto|]. split.
  { rewrite HE, HRt, HRu. split.
    - intros [= Hb%bool_decide_eq_true]. now f_equal.
    - intros [= Hb]. now rewrite bool_decide_eq_true_2. }
  assert (Htwin : forall name name' (fields : gmap string nat) s1 h1 s2 h2,
    (forall n p, fields !! n = Some p -> p < length h) ->
    MakeStructType name fields h = Ok (s1, h1) ->
    MakeStructType name' fields h1 = Ok (s2, h2) ->
    s1 <> s2 /\ wf_heap h2 = true /\ exists es len,
      encodeValue (VType s1) h2
      = Some (uint8 TypeKind :: [uint8 StructKind; Tstring name; len] ++ es)
      /\ encodeValue (VType s2) h2
         = Some (uint8 TypeKind :: [uint8 StructKind; Tstring name'; len] ++ es)).
  { intros name name' fields s1 h1 s2 h2 Hp H1 H2.
    apply MakeStructType_Ok in H1 as (-> & -> & Hn1).
    apply MakeStructType_Ok in H2 as (-> & -> & _).
    rewrite length_app. cbn. split; [lia|].
    destruct (twin_structs h name name' fields Hwf) as (Hwf2 & es & He1 & He2).
    { intros n p Hn. split; [eapply Hn1|eapply Hp]; eauto. }
    rewrite <- app_assoc. cbn [app]. split; [done|].
    exists es, (uint32 (N.of_nat (length (IterFields fields)))). split.
    - apply encodeType_VType; [done|]. eauto.
    - apply encodeType_VType; [done|]. replace (length h + 1) with (S (length h)) by lia.
      eauto. }
  split.
  - intros name fields s1 h1 s2 h2 Hp H1 H2.
    destruct (Htwin _ _ _ _ _ _ _ Hp H1 H2) as (Hne & _ & es & len & He1 & He2).
    split; [done|]. unfold Equals, Ref, EnsureRef. rewrite He1, He2. cbn.
    now rewrite bool_decide_eq_true_2.
  - intros name name' fields s1 h1 s2 h2 Hp Hnn H1 H2 Hcf.
    destruct (Htwin _ _ _ _ _ _ _ Hp H1 H2) as (Hne & _ & es & len & He1 & He2).
    unfold Equals, Ref, EnsureRef. rewrite He1, He2. cbn.
    rewrite bool_decide_eq_false_2; [done|]. intros Heq.
    specialize (Hcf _ _ He1 He2 Heq). now injection Hcf.
Qed.

Lemma Type_Equals_iff_same_address_witness :
  wf_heap test_heap = true /\ 14 < length test_heap /\ 17 < length test_heap
  /\ (Equals exampleHash test_heap 14 (Some (VType 17)) = Some true
      <-> Ref exampleHash test_heap 14 = Ref exampleHash test_heap 17)
  /\ (forall s1 h1 s2 h2,
        MakeStructType "S" {["x" := NumberType]} test_heap = Ok (s1, h1) ->
        MakeStructType "S" {["x" := NumberType]} h1 = Ok (s2, h2) ->
        s1 <> s2 /\ Equals exampleHash h2 s1 (Some (VType s2)) = Some true).
Proof.
  assert (Hwf : wf_heap test_heap = true) by (vm_compute; reflexivity).
  assert (H14 : 14 < length test_heap) by (vm_compute; lia).
  assert (H17 : 17 < length test_heap) by (vm_compute; lia).
  destruct (Type_Equals_iff_same_address exampleHash test_heap 14 17 Hwf H14 H17)
    as (_ & Hiff & Hsame & _).
  split; [done|]. split; [done|]. split; [done|]. split; [exact Hiff|].
  intros s1 h1 s2 h2. apply Hsame.
  intros n p [<- <-]%lookup_singleton_Some. vm_compute. lia.
Defined.

(** ** Union types *)

Lemma insertSorted_perm less x l : insertSorted less x l ≡ₚ x :: l.
Proof.
  induction l as [|y l IH]; [done|]. cbn. destruct (less x y); [done|].
  rewrite IH. apply Permutation_swap.
Qed.

Lemma insertionSort_perm less l : insertionSort less l ≡ₚ l.
Proof.
  induction l as [|x l IH]; [done|]. cbn.
  now rewrite insertSorted_perm, IH.
Qed.

Lemma insertSorted_ascending less (dom : list nat) x l :
  strict_weak_on less dom -> x ∈ dom -> (forall y, y ∈ l -> y ∈ dom) ->
  ascending less l -> ascending less (insertSorted less x l).
Proof.
  intros (Hirr & Htr & Hneg) Hx Hl Hs. unfold ascending in *.
  induction Hs as [|y l Hs IH Hy]; cbn.
  - repeat constructor.
  - assert (Hyd : y ∈ dom) by (apply Hl; left).
    assert (Hld : forall z, z ∈ l -> z ∈ dom) by (intros z Hz; apply Hl; now right).
    destruct (less x y) eqn:Exy.
    + constructor; [now constructor|].
      assert (Hyx : less y x = false).
      { destruct (less y x) eqn:Eyx; [|done].
        rewrite <- (Hirr x Hx). symmetry. now apply (Htr x y x). }
      constructor; [done|].
      rewrite Forall_forall in Hy |- *. intros z Hz.
      apply (Hneg z y x); auto.
    + constructor; [now apply IH|].
      rewrite Forall_forall in Hy |- *. intros z Hz.
      rewrite insertSorted_perm in Hz. apply elem_of_cons in Hz as [->|Hz]; auto.
Qed.

Lemma insertionSort_ascending less (dom k : list nat) :
  strict_weak_on less dom -> (forall y, y ∈ k -> y ∈ dom) ->
  ascending less (insertionSort less k).
Proof.
  intros Hsw. induction k as [|x k IH]; intros Hk; [constructor|].
  change (insertionSort less (x :: k))
    with (insertSorted less x (insertionSort less k)).
  apply (insertSorted_ascending less dom); [done|apply Hk; left| |].
  - intros y Hy. rewrite insertionSort_perm in Hy. apply Hk. now right.
  - apply IH. intros y Hy. apply Hk. now right.
Qed.

Lemma insertionSort_contract : sort_contract insertionSort.
Proof.
  intros less l. split; [apply insertionSort_perm|]. intros Hsw.
  now apply (insertionSort_ascending less l).
Qed.

Lemma StronglySorted_restrict {A} (R R' : A -> A -> Prop) (P : A -> Prop) l :
  StronglySorted R l -> Forall P l ->
  (forall a b, P a -> P b -> R a b -> R' a b) ->
  StronglySorted R' l.
Proof.
  intros Hs HP Himp. induction Hs as [|x l Hs IH Hx]; [constructor|].
  apply Forall_cons in HP as [Px HP]. constructor; [auto|].
  rewrite Forall_forall in Hx, HP |- *. intros y Hy. apply Himp; auto.
Qed.

Section Unions.
Variable computeHash : list token -> string.
Variable Less : string -> string -> bool.
Variable sortSlice : (nat -> nat -> bool) -> list nat -> list nat.
Hypothesis Less_total : strict_total Less.
Hypothesis sort_ok : sort_contract sortSlice.

Lemma Ref_defined h t :
  wf_heap h = true -> t < length h ->
  exists c, encodeType h t = Some c
            /\ Ref computeHash h t = Some (computeHash (uint8 TypeKind :: c)).
Proof.
  intros Hwf Ht. destruct (encodeType_total h t Hwf Ht) as [c Hc].
  exists c. split; [done|]. unfold Ref, EnsureRef.
  now rewrite (proj2 (encodeType_VType h t _ Hwf) (ex_intro _ c (conj Hc eq_refl))).
Qed.

Lemma Ref_frame h l t :
  wf_heap h = true -> wf_heap (h ++ l) = true -> t < length h ->
  Ref computeHash (h ++ l) t = Ref computeHash h t.
Proof.
  intros Hwf Hwf' Ht. destruct (Ref_defined h t Hwf Ht) as (c & Hc & ->).
  unfold Ref, EnsureRef.
  rewrite (proj2 (encodeType_VType (h ++ l) t _ Hwf')
                 (ex_intro _ c (conj (encodeType_frame _ _ _ _ Hwf Hwf' Hc) eq_refl))).
  done.
Qed.

Lemma unionTypes_Less_strict_weak h l :
  wf_heap h = true -> Forall (fun t => t < length h) l ->
  strict_weak_on (unionTypes_Less computeHash Less h) l.
Proof.
  intros Hwf Hl. destruct Less_total as (Hirr & Htr & Htot).
  rewrite Forall_forall in Hl.
  assert (Hdef : forall a, a ∈ l -> exists r, Ref computeHash h a = Some r).
  { intros a Ha. destruct (Ref_defined h a Hwf (Hl a Ha)) as (c & _ & ->). eauto. }
  unfold unionTypes_Less. split; [|split].
  - intros a [r ->]%Hdef. apply Hirr.
  - intros a b c [ra ->]%Hdef [rb ->]%Hdef [rc ->]%Hdef. apply Htr.
  - intros a b c [ra ->]%Hdef [rb ->]%Hdef [rc ->]%Hdef Hab Hbc.
    destruct (Less ra rc) eqn:Hac; [|done].
    destruct (decide (ra = rb)) as [->|Hne]; [congruence|].
    destruct (Htot ra rb Hne) as [H|H]; [congruence|].
    rewrite <- Hbc. symmetry. now apply (Htr rb ra rc).
Qed.

Lemma MakeUnionType_members h elems :
  wf_heap h = true -> Forall (fun t => t < length h) elems ->
  exists members,
    MakeUnionType computeHash Less sortSlice elems h
    = Some (length h, h ++ [CompoundDesc UnionKind members])
    /\ members ≡ₚ elems
    /\ ascending (unionTypes_Less computeHash Less h) members.
Proof.
  intros Hwf Hl. unfold MakeUnionType, buildType.
  destruct (decide (length elems < 2)) as [Hshort|Hlong].
  - exists elems. split; [done|]. split; [done|]. unfold ascending.
    destruct elems as [|a [|b l]]; cbn in Hshort; [constructor| |lia].
    repeat constructor.
  - destruct (sort_ok (unionTypes_Less computeHash Less h) elems) as [Hp Hs].
    replace (forallb _ elems) with true.
    + eexists. split; [done|]. split; [done|].
      apply Hs. now apply unionTypes_Less_strict_weak.
    + symmetry. apply forallb_forall. intros t Ht%list_elem_of_In.
      rewrite Forall_forall in Hl.
      destruct (Ref_defined h t Hwf (Hl t Ht)) as (c & _ & ->).
      apply bool_decide_eq_true. eauto.
Qed.

Lemma ascending_unique h (m1 m2 : list nat) :
  wf_heap h = true -> Forall (fun t => t < length h) m1 -> m1 ≡ₚ m2 ->
  ascending (unionTypes_Less computeHash Less h) m1 ->
  ascending (unionTypes_Less computeHash Less h) m2 ->
  Forall2 (fun a b => Ref computeHash h a = Ref computeHash h b) m1 m2.
Proof.
  intros Hwf Hl Hp H1 H2. destruct Less_total as (Hirr & Htr & Htot).
  assert (Hl2 : Forall (fun t => t < length h) m2) by now rewrite <- Hp.
  set (P := fun t => is_Some (Ref computeHash h t)).
  set (R := fun a b : option string =>
              match a, b with Some x, Some y => Less y x = false | _, _ => False end).
  assert (HP : forall m, Forall (fun t => t < length h) m -> Forall P m).
  { intros m Hm. eapply Forall_impl; [exact Hm|]. intros t Ht.
    destruct (Ref_defined h t Hwf Ht) as (c & _ & Hr). unfold P. eauto. }
  assert (HR : forall m, Forall (fun t => t < length h) m ->
                 ascending (unionTypes_Less computeHash Less h) m ->
                 StronglySorted R (Ref computeHash h <$> m)).
  { intros m Hm Hs. apply (StronglySorted_fmap _ (fun a b => R (Ref computeHash h a) (Ref computeHash h b))); [done|].
    apply (StronglySorted_restrict _ _ P _ Hs (HP m Hm)).
    intros a b [ra Ha] [rb Hb]. unfold unionTypes_Less, R. now rewrite Ha, Hb. }
  assert (Hanti : AntiSymm eq R).
  { intros [x|] [y|]; cbn; try done. intros Hyx Hxy. f_equal.
    destruct (decide (x = y)) as [|Hne]; [done|].
    destruct (Htot x y Hne); congruence. }
  apply (proj1 (Forall2_fmap (Ref computeHash h) (Ref computeHash h) eq m1 m2)).
  apply list_eq_Forall2.
  apply (StronglySorted_unique R); [now apply HR|now apply HR|].
  now apply fmap_Permutation.
Qed.

Lemma union_encoding h u members xs :
  wf_heap h = true -> h !! u = Some (CompoundDesc UnionKind members) ->
  Forall2 (fun m x => encodeType h m = Some x) members xs ->
  encodeType h u
  = Some (uint8 UnionKind :: uint32 (N.of_nat (length members)) :: concat xs).
Proof.
  intros Hwf Hu Hxs. apply encodeType_Encodes; [done|].
  apply (Encodes_compound h [] u UnionKind members xs Hu).
  eapply Forall2_impl; [exact Hxs|]. intros m x Hm. now apply encodeType_Encodes.
Qed.

Lemma unions_Equal h (m1 m2 : list nat) :
  wf_heap h = true ->
  Forall (fun t => t < length h) m1 -> Forall (fun t => t < length h) m2 ->
  Forall2 (fun a b => encodeType h a = encodeType h b) m1 m2 ->
  let h2 := h ++ [CompoundDesc UnionKind m1; CompoundDesc UnionKind m2] in
  wf_heap h2 = true
  /\ Equals computeHash h2 (length h) (Some (VType (S (length h)))) = Some true.
Proof.
  intros Hwf Hl1 Hl2 Henc h2.
  assert (Hd : forall m p, Forall (fun t => t < length h) m -> length h <= p ->
            wf_desc (h ++ [CompoundDesc UnionKind m]) p (CompoundDesc UnionKind m) = true).
  { intros m p Hm Hp. cbn. apply forallb_forall. intros t Ht%list_elem_of_In.
    rewrite Forall_forall in Hm. apply bool_decide_eq_true. specialize (Hm t Ht). lia. }
  assert (Hwf1 : wf_heap (h ++ [CompoundDesc UnionKind m1]) = true).
  { apply wf_heap_app; [done|]. now apply Hd. }
  assert (Hh2 : h2 = (h ++ [CompoundDesc UnionKind m1]) ++ [CompoundDesc UnionKind m2]).
  { unfold h2. now rewrite <- app_assoc. }
  assert (Hwf2 : wf_heap h2 = true).
  { rewrite Hh2. apply wf_heap_app; [done|]. rewrite length_app. cbn.
    replace (length h + 1) with (S (length h)) by lia.
    cbn. apply forallb_forall. intros t Ht%list_elem_of_In.
    rewrite Forall_forall in Hl2. apply bool_decide_eq_true. specialize (Hl2 t Ht). lia. }
  split; [done|].
  assert (Hxs : forall m, Forall (fun t => t < length h) m ->
            exists xs, Forall2 (fun t x => encodeType h t = Some x) m xs).
  { induction m as [|t m IH]; intros Hm; [exists []; constructor|].
    apply Forall_cons in Hm as [Ht Hm]. destruct (IH Hm) as [xs Hxs].
    destruct (encodeType_total h t Hwf Ht) as [x Hx]. exists (x :: xs). now constructor. }
  destruct (Hxs m1 Hl1) as [xs1 H1]. destruct (Hxs m2 Hl2) as [xs2 H2].
  assert (Exs : xs1 = xs2).
  { clear -Henc H1 H2. revert xs1 xs2 H1 H2.
    induction Henc as [|a b m1 m2 Hab Henc IH]; intros xs1 xs2 H1 H2.
    - inversion H1; inversion H2; done.
    - inversion H1 as [|? x1 ? r1 Hx1 Hr1]; inversion H2 as [|? x2 ? r2 Hx2 Hr2]; subst.
      f_equal; [congruence|now apply IH]. }
  subst xs2.
  assert (Hup : forall m, Forall2 (fun t x => encodeType h t = Some x) m xs1 ->
                 Forall2 (fun t x => encodeType h2 t = Some x) m xs1).
  { intros m Hm. eapply Forall2_impl; [exact Hm|]. intros t x Hx.
    now apply (encodeType_frame h [CompoundDesc UnionKind m1; CompoundDesc UnionKind m2]). }
  assert (E1 : encodeType h2 (length h)
               = Some (uint8 UnionKind :: uint32 (N.of_nat (length m1)) :: concat xs1)).
  { apply union_encoding; [done| |now apply Hup].
    unfold h2. now rewrite lookup_app_r, Nat.sub_diag by lia. }
  assert (E2 : encodeType h2 (S (length h))
               = Some (uint8 UnionKind :: uint32 (N.of_nat (length m2)) :: concat xs1)).
  { apply union_encoding; [done| |now apply Hup].
    unfold h2. rewrite lookup_app_r by lia.
    now replace (S (length h) - length h) with 1 by lia. }
  assert (Elen : length m1 = length m2) by (eapply Forall2_length; exact Henc).
  unfold Equals, Ref, EnsureRef.
  rewrite (proj2 (encodeType_VType h2 _ _ Hwf2) (ex_intro _ _ (conj E1 eq_refl))).
  rewrite (proj2 (encodeType_VType h2 _ _ Hwf2) (ex_intro _ _ (conj E2 eq_refl))).
  cbn. rewrite Elen. now rewrite bool_decide_eq_true_2.
Qed.

End Unions.

Lemma exampleLess_total : strict_total exampleLess.
Proof.
  unfold exampleLess. split; [|split].
  - intros a. apply bool_decide_eq_false. now intros [? _].
  - intros a b c [Hab Lab]%bool_decide_eq_true [Hbc Lbc]%bool_decide_eq_true.
    apply bool_decide_eq_true. split; [|now transitivity b].
    intros ->. apply Hab. now apply (anti_symm String.le).
  - intros a b Hne. destruct (total String.le a b).
    + left. now apply bool_decide_eq_true.
    + right. apply bool_decide_eq_true. split; [congruence|done].
Qed.

Lemma unionMembers_built h members :
  unionMembers (h ++ [CompoundDesc UnionKind members]) (length h) = members.
Proof.
  unfold unionMembers. now rewrite lookup_app_r, Nat.sub_diag by lia.
Qed.




(** ** The canonical field order *)

(** A struct type at the bottom of the stack that is not part of the heap
    [h] does not matter to the walk of a type of [h]: the depth of a cycle
    is counted from the top. *)
Lemma writeType_fresh_bottom h l q :
  wf_heap h = true -> length h <= q ->
  forall fuel t ps, t < length h ->
    writeType fuel (h ++ l) t (q :: ps) = writeType fuel (h ++ l) t ps.
Proof.
  intros Hwf Hq. induction fuel as [|fuel IH]; intros t ps Ht; [done|].
  cbn [writeType]. destruct (lookup_lt_is_Some_2 h t Ht) as [d Hd].
  rewrite (lookup_app_l_Some _ l _ _ Hd).
  destruct d as [k|k es|name fields]; [done| |].
  - destruct (wf_heap_compound _ _ _ _ Hwf Hd) as [_ Hes].
    erewrite Forall_mapM_ext; [reflexivity|].
    eapply Forall_impl; [exact Hes|]. intros e He. cbn beta in He.
    apply IH. lia.
  - cbn [indexOf]. rewrite decide_False by lia.
    destruct (indexOf ps t) as [i|] eqn:Ei; cbn [fmap option_fmap option_map].
    + apply indexOf_Some in Ei as [_ Hi].
      cbn [length].
      now replace (S (length ps) - 1 - S i) with (length ps - 1 - i) by lia.
    + erewrite Forall_mapM_ext; [reflexivity|].
      apply Forall_forall. intros [n ft] Hin%elem_of_IterFields.
      destruct (wf_heap_struct _ _ _ _ _ _ Hwf Hd Hin) as [_ Hft].
      now rewrite <- app_comm_cons, IH.
Qed.

(** The encodings of types are prefix-free: the decoder reads one of them
    off the front of a stream in one way only. *)
Lemma fields_prefix_free fuel ps h :
  wf_heap h = true -> stack_ok h ps ->
  forall (names names2 : list string) (es es2 : list (list token)) rest rest2,
    length names = length es -> length names2 = length es2 ->
    length names = length names2 ->
    Forall (decodes_type fuel ps) es -> Forall (decodes_type fuel ps) es2 ->
    concat (zip_with (fun n e => Tstring n :: e) names es) ++ rest
    = concat (zip_with (fun n e => Tstring n :: e) names2 es2) ++ rest2 ->
    names = names2 /\ es = es2 /\ rest = rest2.
Proof.
  intros Hwf Hst. induction names as [|n names IH];
    intros [|n2 names2] [|e es] [|e2 es2] rest rest2 L1 L2 L3 He He2 Heq;
    try discriminate; [done|].
  apply Forall_cons in He as [Hd He]. apply Forall_cons in He2 as [Hd2 He2].
  cbn in Heq. injection Heq as -> Heq. rewrite <- !app_assoc in Heq.
  match type of Heq with
  | _ ++ ?R = _ ++ ?R2 =>
      destruct (Hd h R Hwf Hst) as (t & l & Hr & _);
      destruct (Hd2 h R2 Hwf Hst) as (t2 & l2 & Hr2 & _)
  end.
  rewrite Heq, Hr2 in Hr. injection Hr as _ Htail _.
  rewrite Htail in Heq. apply app_inv_tail in Heq as ->.
  destruct (IH names2 es es2 rest rest2) as (-> & -> & ->); auto.
Qed.

(** Two struct types with the same encoding have the same name and the same
    field names, in the same order. *)
Lemma same_struct_encoding h t name fields h2 t2 name2 fields2 x :
  wf_heap h = true -> wf_heap h2 = true ->
  h !! t = Some (StructDesc name fields) ->
  h2 !! t2 = Some (StructDesc name2 fields2) ->
  encodeType h t = Some x -> encodeType h2 t2 = Some x ->
  name2 = name /\ (IterFields fields2).*1 = (IterFields fields).*1.
Proof.
  intros Hwf Hwf2 Hd Hd2 Hx Hx2. unfold encodeType in Hx, Hx2.
  destruct (typeFuel h) as [|f]; [done|]. destruct (typeFuel h2) as [|f2]; [done|].
  destruct (writeType_struct_inv _ _ _ _ _ _ _ Hx Hd (not_elem_of_nil _))
    as (es & Hes & ->).
  destruct (writeType_struct_inv _ _ _ _ _ _ _ Hx2 Hd2 (not_elem_of_nil _))
    as (es2 & Hes2 & Heq).
  injection Heq as <- Hn Heq. apply Nat2N.inj in Hn. split; [done|].
  pose proof (Forall2_length _ _ _ Hes) as L1.
  pose proof (Forall2_length _ _ _ Hes2) as L2.
  rewrite length_fmap in L1, L2.
  set (F := length (concat es) + length (concat es2)).
  assert (Hst : stack_ok h [t]).
  { split; [apply NoDup_singleton|]. intros p ->%list_elem_of_singleton.
    now exists (StructDesc name fields). }
  assert (D1 : Forall (decodes_type F [t]) es).
  { apply Forall_forall. intros e He.
    destruct (proj1 (list_elem_of_lookup _ _) He) as [i Hi].
    destruct (Forall2_lookup_r _ _ _ _ _ Hes Hi) as (ft & _ & Hw).
    apply (readType_writeType h Hwf _ _ _ _ Hw); [|done].
    pose proof (length_concat_elem es e He). unfold F. lia. }
  assert (D2 : Forall (decodes_type F [t]) es2).
  { apply Forall_forall. intros e He.
    destruct (proj1 (list_elem_of_lookup _ _) He) as [i Hi].
    destruct (Forall2_lookup_r _ _ _ _ _ Hes2 Hi) as (ft & _ & Hw).
    apply (readType_writeType h2 Hwf2 _ _ _ _ Hw); [|done].
    pose proof (length_concat_elem es2 e He). unfold F. lia. }
  destruct (fields_prefix_free F [t] h Hwf Hst
              (IterFields fields).*1 (IterFields fields2).*1 es es2 [] [])
    as (E & _); rewrite ?length_fmap, ?app_nil_r; auto; lia.
Qed.

Lemma assoc_list_to_map {B} n (l : list (string * B)) :
  assoc n l = (list_to_map l : gmap string B) !! n.
Proof.
  induction l as [|[m b] l IH]; [done|]. cbn.
  destruct (decide (m = n)) as [->|Hne].
  - now rewrite lookup_insert_eq.
  - now rewrite lookup_insert_ne.
Qed.

Lemma assoc_perm {B} n (l l' : list (string * B)) :
  NoDup l.*1 -> l ≡ₚ l' -> assoc n l = assoc n l'.
Proof.
  intros Hnd Hp. rewrite !assoc_list_to_map.
  now rewrite (list_to_map_proper l l' Hnd Hp).
Qed.

Lemma typeOf_lt h v :
  wf_heap h = true -> wf_value h v = true -> typeOf v < length h.
Proof.
  intros Hwf Hv.
  destruct v as [b|n|s|bytes|t items|t entries|t tuples|t data|t target height|t];
    cbn [typeOf wf_value] in *;
    try (eapply global_lt; [exact Hwf|reflexivity]);
    destruct (h !! t) eqn:Hd; try done; now apply lookup_lt_Some in Hd.
Qed.

Lemma decodeValue_struct h t name fields data c :
  wf_heap h = true -> h !! t = Some (StructDesc name fields) ->
  encodeValue (VStruct t data) h = Some c ->
  exists t2 fields2 vs l,
    decodeValue c h = Some (VStruct t2 (zip (IterFields fields).*1 vs), h ++ l)
    /\ length vs = length (IterFields fields)
    /\ wf_heap (h ++ l) = true
    /\ (h ++ l) !! t2 = Some (StructDesc name fields2)
    /\ (IterFields fields2).*1 = (IterFields fields).*1.
Proof.
  intros Hwf Hd Hx. unfold encodeValue in Hx. rewrite writeValue_VStruct in Hx.
  apply with_type_Some in Hx as (hdr & d & body & Hh & Hd' & Hb & ->).
  rewrite Hd in Hd'. injection Hd' as <-.
  match type of Hb with mbind _ ?m = _ => destruct m as [bs|] eqn:E end; [|done].
  injection Hb as <-.
  set (fuel := length (hdr ++ concat bs)).
  assert (Hfuel : fuel = length hdr + length (concat bs)) by apply length_app.
  destruct (read_header h t hdr _ Hwf Hh Hd fuel ltac:(lia) h (concat bs ++ []) Hwf)
    as (t2 & l & d2 & Hr & Hwfl & Hh2 & Hd2 & Hk & Hst & Hhl).
  destruct (Hst _ _ eq_refl) as (name2 & fields2 & -> & Hlen2).
  destruct (same_struct_encoding h t name fields (h ++ l) t2 name2 fields2 hdr
              Hwf Hwfl Hd Hd2 Hh Hh2) as [-> Hnames].
  apply mapM_Some_1 in E. pose proof (Forall2_length _ _ _ E) as Hl.
  rewrite length_fmap in Hl.
  destruct (struct_values _ _ _ _ E) as (vals & Hvals & Hin).
  assert (IHvals : Forall (fun v => forall x, writeValue h v = Some x ->
                     forall fuel, length x < fuel -> decodes_value fuel x v) vals).
  { apply Forall_forall. intros v _. now apply readValue_writeValue. }
  pose proof (items_decode h fuel vals bs IHvals Hvals ltac:(lia)) as Hdec.
  destruct (readN_values (readValue fuel) writeValue bs
              (fun h l a x Hw Hw' => writeValue_frame h l Hw Hw' a x)
              Hdec (h ++ l) [] Hwfl) as (vs & l' & Hrn & Hwf' & Hvs).
  pose proof (Forall2_length _ _ _ Hvs) as Hl'.
  exists t2, fields2, vs, (l ++ l'). rewrite app_assoc.
  split; [|split; [lia|split; [done|split; [now apply lookup_app_l_Some|done]]]].
  unfold decodeValue. fold fuel. rewrite readValue_S.
  rewrite <- (app_nil_r (concat bs)) at 1. rewrite Hr. cbn [mbind option_bind].
  rewrite Hd2. cbn [mbind option_bind Kind]. cbv zeta.
  rewrite Hnames, length_fmap, Hl, Hrn. done.
Qed.

Lemma fst_typeOf (data : list (string * Value)) :
  ((fun '(n, v) => (n, typeOf v)) <$> data).*1 = data.*1.
Proof. induction data as [|[n v] data IH]; [done|]. cbn. now rewrite IH. Qed.

Lemma newStruct_fields n (data : list (string * Value)) :
  (list_to_map ((fun '(n, v) => (n, typeOf v)) <$> data) : gmap string nat) !! n
  = typeOf <$> assoc n data.
Proof. now rewrite <- assoc_list_to_map, assoc_fmap. Qed.

Lemma newStruct_order (data : list (string * Value)) :
  NoDup data.*1 ->
  sortedNames (list_to_map ((fun '(n, v) => (n, typeOf v)) <$> data))
  = merge_sort String.le data.*1.
Proof.
  intros Hnd. apply (StronglySorted_unique String.le).
  - apply sortedNames_sorted.
  - apply StronglySorted_merge_sort; apply _.
  - rewrite sortedNames_perm, merge_sort_Permutation.
    rewrite map_to_list_to_map by now rewrite fst_typeOf.
    now rewrite fst_typeOf.
Qed.

Lemma Forall_is_Some_Forall2 {A B} (f : A -> option B) (l : list A) :
  Forall (fun a => is_Some (f a)) l ->
  exists k, Forall2 (fun a b => f a = Some b) l k.
Proof.
  intros Hl. destruct (proj2 (mapM_is_Some f l) Hl) as [k Hk].
  exists k. now apply mapM_Some_1.
Qed.




(** * More of the package *)

(** ** Primitive types *)

(** X1.  [MakePrimitiveType(k)] returns the package singleton of kind [k]
    for the six primitive kinds, never the type of types [typeForType], and
    fails its check for every other kind; the singleton is there in every
    well-formed heap. *)
Theorem MakePrimitiveType_kinds (k : NomsKind) (h : TypeHeap) :
  wf_heap h = true ->
  match MakePrimitiveType k with
  | Ok t => is_primitive_kind k = true /\ t <> typeForType
            /\ h !! t = Some (PrimitiveDesc k)
  | Panic e => is_primitive_kind k = false /\ e = CheckFailed
  end.
Proof.
  intros Hwf. destruct k; cbn; (split; [reflexivity|]); try reflexivity;
    (split; [discriminate|]); now apply wf_heap_globals.
Qed.

Lemma MakePrimitiveType_kinds_witness :
  wf_heap test_heap = true
  /\ match MakePrimitiveType BlobKind with
     | Ok t => is_primitive_kind BlobKind = true /\ t <> typeForType
               /\ test_heap !! t = Some (PrimitiveDesc BlobKind)
     | Panic e => is_primitive_kind BlobKind = false /\ e = CheckFailed
     end.
Proof.
  assert (Hwf : wf_heap test_heap = true) by (vm_compute; reflexivity).
  split; [exact Hwf|]. exact (MakePrimitiveType_kinds BlobKind test_heap Hwf).
Defined.

(** X2.  [MakePrimitiveTypeByString(p)] returns a singleton exactly for the
    six names [Bool], [Number], [String], [Blob], [Value] and [Type], the
    one [MakePrimitiveType] returns for the kind of that name, and fails its
    check for any other string. *)
Theorem MakePrimitiveTypeByString_names (p : string) :
  match MakePrimitiveTypeByString p with
  | Ok t =>
      exists k, (p, k) ∈ [("Bool", BoolKind); ("Number", NumberKind);
                          ("String", StringKind); ("Blob", BlobKind);
                          ("Value", ValueKind); ("Type", TypeKind)]
                /\ MakePrimitiveType k = Ok t
                /\ init_heap !! t = Some (PrimitiveDesc k)
  | Panic e =>
      e = CheckFailed
      /\ p ∉ ["Bool"; "Number"; "String"; "Blob"; "Value"; "Type"]
  end.
Proof.
  unfold MakePrimitiveTypeByString.
  destruct (decide (p = "Bool")) as [Hp|H1].
  { subst p. exists BoolKind. split; [|done].
    apply list_elem_of_In. cbn. auto 10. }
  destruct (decide (p = "Number")) as [Hp|H2].
  { subst p. exists NumberKind. split; [|done].
    apply list_elem_of_In. cbn. auto 10. }
  destruct (decide (p = "String")) as [Hp|H3].
  { subst p. exists StringKind. split; [|done].
    apply list_elem_of_In. cbn. auto 10. }
  destruct (decide (p = "Blob")) as [Hp|H4].
  { subst p. exists BlobKind. split; [|done].
    apply list_elem_of_In. cbn. auto 10. }
  destruct (decide (p = "Value")) as [Hp|H5].
  { subst p. exists ValueKind. split; [|done].
    apply list_elem_of_In. cbn. auto 10. }
  destruct (decide (p = "Type")) as [Hp|H6].
  { subst p. exists TypeKind. split; [|done].
    apply list_elem_of_In. cbn. auto 10. }
  split; [done|]. intros Hin%list_elem_of_In. cbn in Hin. intuition congruence.
Qed.

(** ** Struct types *)



(** ** Constructors and accessors *)

(** X4.  [MakeListType], [MakeSetType], [MakeMapType] and [MakeRefType]
    allocate a new type object and leave the others as they are; the new
    type has the kind of its constructor, its child values are the
    arguments in their order, [Name] fails its check on it, and it is
    ordered only if it is a ref type. *)
Theorem compound_constructors (h : TypeHeap) (e k v : nat) :
  let made (kind : NomsKind) (args : list nat) (r : nat * TypeHeap) :=
    r.1 = length h /\ h !! r.1 = None
    /\ (forall p d, h !! p = Some d -> r.2 !! p = Some d)
    /\ length r.2 = S (length h)
    /\ exists d, r.2 !! r.1 = Some d /\ Kind d = kind
                 /\ ChildValues d = VType <$> args
                 /\ Name d = Panic CheckFailed
                 /\ IsOrdered d = bool_decide (kind = RefKind) in
  made ListKind [e] (MakeListType e h)
  /\ made SetKind [e] (MakeSetType e h)
  /\ made MapKind [k; v] (MakeMapType k v h)
  /\ made RefKind [e] (MakeRefType e h).
Proof.
  assert (Hb : forall kind args,
            (buildType (CompoundDesc kind args) h).1 = length h
            /\ h !! (buildType (CompoundDesc kind args) h).1 = None
            /\ (forall p d, h !! p = Some d ->
                  (buildType (CompoundDesc kind args) h).2 !! p = Some d)
            /\ length (buildType (CompoundDesc kind args) h).2 = S (length h)
            /\ (buildType (CompoundDesc kind args) h).2
                 !! (buildType (CompoundDesc kind args) h).1
               = Some (CompoundDesc kind args)).
  { intros kind args. cbn. split; [done|]. split; [now apply lookup_ge_None_2|].
    split; [intros p d Hp; now apply lookup_app_l_Some|].
    split; [rewrite length_app; cbn; lia|]. now rewrite list_lookup_middle. }
  cbv zeta. unfold MakeListType, MakeSetType, MakeMapType, MakeRefType.
  repeat split; try apply Hb; eexists; (split; [apply Hb|]); done.
Qed.

(** X5.  The type [MakeStructType] returns is a new object of kind Struct
    with the name given, it is not ordered, and its child values are the
    types of the fields, one for each field; every field name has passed
    [verifyFieldName]. *)
Theorem MakeStructType_accessors (name : string) (fields : gmap string nat)
    (h : TypeHeap) (t : nat) (h' : TypeHeap) :
  MakeStructType name fields h = Ok (t, h') ->
  t = length h /\ h !! t = None
  /\ (forall p d, h !! p = Some d -> h' !! p = Some d)
  /\ (forall n p, fields !! n = Some p -> verifyFieldName n = Ok tt)
  /\ exists d, h' !! t = Some d /\ Kind d = StructKind /\ Name d = Ok name
               /\ IsOrdered d = false
               /\ length (ChildValues d) = size fields
               /\ forall p, VType p ∈ ChildValues d <-> exists n, fields !! n = Some p.
Proof.
  intros Hmk. destruct (MakeStructType_Ok _ _ _ _ _ Hmk) as (-> & -> & Hvalid).
  split; [done|]. split; [now apply lookup_ge_None_2|].
  split; [intros p d Hp; now apply lookup_app_l_Some|].
  split. { intros n p Hn. unfold verifyFieldName. now rewrite (Hvalid n p Hn). }
  exists (StructDesc name fields). rewrite list_lookup_middle by done.
  split; [done|]. split; [done|]. split; [done|]. split; [done|].
  cbn [ChildValues]. split; [now rewrite length_fmap, IterFields_length|].
  intros p. rewrite list_elem_of_fmap. split.
  - intros ([n q] & [= ->] & Hin). exists n. now apply elem_of_IterFields.
  - intros [n Hn]. exists (n, p). split; [done|]. now apply elem_of_IterFields.
Qed.

Lemma MakeStructType_accessors_witness :
  let fields : gmap string nat := {["Field1" := StringType; "Field2" := BoolType]} in
  let h' := init_heap ++ [StructDesc "MahStruct" fields] in
  MakeStructType "MahStruct" fields init_heap = Ok (7, h')
  /\ exists d, h' !! 7 = Some d /\ Kind d = StructKind /\ Name d = Ok "MahStruct"
               /\ IsOrdered d = false
               /\ length (ChildValues d) = size fields
               /\ forall p, VType p ∈ ChildValues d <-> exists n, fields !! n = Some p.
Proof.
  intros fields h'.
  assert (Hmk : MakeStructType "MahStruct" fields init_heap = Ok (7, h'))
    by (vm_compute; reflexivity).
  split; [exact Hmk|].
  exact (proj2 (proj2 (proj2 (proj2
           (MakeStructType_accessors "MahStruct" fields init_heap 7 h' Hmk))))).
Defined.

(** ** [unionTypes] as a [sort.Interface] *)

Lemma Swap_index_inj (i j : nat) :
  Inj (=) (=) (fun k => if decide (k = i) then j else if decide (k = j) then i else k).
Proof. intros a b. cbv beta. repeat case_decide; lia. Qed.

(** X6.  [unionTypes] gives [sort.Sort] what it asks for.  On the types of
    a well-formed heap [Less] is a strict weak order: irreflexive,
    asymmetric, transitive, and two types neither of which is less than the
    other have the same content address.  [Swap] with both indices in range
    exchanges the two elements and no other, keeps the length, is undone by
    the same [Swap] and leaves a permutation; with an index out of range it
    panics. *)
Theorem unionTypes_sort_Interface (computeHash : list token -> string)
    (Less : string -> string -> bool) (h : TypeHeap) (uts : list nat) :
  strict_total Less -> wf_heap h = true -> Forall (fun t => t < length h) uts ->
  (forall a, a ∈ uts -> unionTypes_Less computeHash Less h a a = false)
  /\ (forall a b, a ∈ uts -> b ∈ uts ->
        unionTypes_Less computeHash Less h a b = true ->
        unionTypes_Less computeHash Less h b a = false)
  /\ (forall a b c, a ∈ uts -> b ∈ uts -> c ∈ uts ->
        unionTypes_Less computeHash Less h a b = true ->
        unionTypes_Less computeHash Less h b c = true ->
        unionTypes_Less computeHash Less h a c = true)
  /\ (forall a b, a ∈ uts -> b ∈ uts ->
        unionTypes_Less computeHash Less h a b = false ->
        unionTypes_Less computeHash Less h b a = false ->
        Ref computeHash h a = Ref computeHash h b)
  /\ (forall i j, i < unionTypes_Len uts -> j < unionTypes_Len uts ->
        exists uts', unionTypes_Swap uts i j = Some uts'
          /\ uts' !! i = uts !! j /\ uts' !! j = uts !! i
          /\ (forall k, k <> i -> k <> j -> uts' !! k = uts !! k)
          /\ unionTypes_Len uts' = unionTypes_Len uts
          /\ uts' ≡ₚ uts
          /\ unionTypes_Swap uts' i j = Some uts)
  /\ (forall i j, ~ (i < unionTypes_Len uts /\ j < unionTypes_Len uts) ->
        unionTypes_Swap uts i j = None).
Proof.
  intros Htot Hwf Hl.
  destruct (unionTypes_Less_strict_weak computeHash Less Htot h uts Hwf Hl)
    as (Hirr & Htr & _).
  destruct Htot as (Lirr & Ltr & Ltot).
  assert (Hdef : forall a, a ∈ uts -> exists r, Ref computeHash h a = Some r).
  { intros a Ha. rewrite Forall_forall in Hl.
    destruct (Ref_defined computeHash h a Hwf (Hl a Ha)) as (c & _ & Hr). eauto. }
  split; [exact Hirr|]. split; [|split; [exact Htr|split; [|split]]].
  - intros a b Ha Hb Hab.
    destruct (unionTypes_Less computeHash Less h b a) eqn:Hba; [|done].
    rewrite <- (Hirr a Ha). symmetry. now apply (Htr a b a).
  - intros a b [ra Ha]%Hdef [rb Hb]%Hdef. unfold unionTypes_Less.
    rewrite Ha, Hb. intros Hab Hba. f_equal.
    destruct (decide (ra = rb)) as [|Hne]; [done|].
    destruct (Ltot ra rb Hne); congruence.
  - unfold unionTypes_Len, unionTypes_Swap. intros i j Hi Hj.
    destruct (lookup_lt_is_Some_2 uts i Hi) as [a Ha].
    destruct (lookup_lt_is_Some_2 uts j Hj) as [b Hb].
    rewrite Ha, Hb. cbn [mbind option_bind].
    set (uts' := <[j := a]> (<[i := b]> uts)).
    assert (Hlen : length uts' = length uts)
      by (unfold uts'; now rewrite !length_insert).
    assert (Hlook : forall k, uts' !! k
              = uts !! (if decide (k = i) then j else if decide (k = j) then i else k)).
    { intros k. unfold uts'. destruct (decide (k = j)) as [->|Hkj].
      - rewrite list_lookup_insert_eq by (rewrite length_insert; lia).
        destruct (decide (j = i)) as [->|]; congruence.
      - rewrite list_lookup_insert_ne by done.
        destruct (decide (k = i)) as [->|Hki].
        + now rewrite list_lookup_insert_eq by lia.
        + now rewrite list_lookup_insert_ne by done. }
    assert (Hi' : uts' !! i = Some b).
    { rewrite Hlook, (decide_True (P := i = i)) by done. exact Hb. }
    assert (Hj' : uts' !! j = Some a).
    { rewrite Hlook. destruct (decide (j = i)) as [->|]; [congruence|].
      now rewrite (decide_True (P := j = j)) by done. }
    exists uts'. split; [done|].
    split; [congruence|]. split; [congruence|].
    split. { intros k Hki Hkj. rewrite Hlook. now rewrite !decide_False by done. }
    split; [done|]. split.
    + apply Permutation_inj. split; [done|].
      exists (fun k => if decide (k = i) then j else if decide (k = j) then i else k).
      split; [apply Swap_index_inj|exact Hlook].
    + rewrite Hi', Hj'. cbn [mbind option_bind]. f_equal.
      apply list_eq. intros k. destruct (decide (k = j)) as [->|Hkj].
      * rewrite list_lookup_insert_eq by (rewrite length_insert; lia). done.
      * rewrite list_lookup_insert_ne by done.
        destruct (decide (k = i)) as [->|Hki].
        -- rewrite list_lookup_insert_eq by lia. done.
        -- rewrite list_lookup_insert_ne by done. rewrite Hlook.
           now rewrite !decide_False by done.
  - unfold unionTypes_Len, unionTypes_Swap. intros i j Hij.
    destruct (uts !! i) as [a|] eqn:Ha; [|done].
    destruct (uts !! j) as [b|] eqn:Hb; [|done].
    apply lookup_lt_Some in Ha, Hb. lia.
Qed.

Lemma unionTypes_sort_Interface_witness :
  strict_total exampleLess /\ wf_heap test_heap = true
  /\ Forall (fun t => t < length test_heap) [StringType; 9; BoolType]
  /\ (forall a b, a ∈ [StringType; 9; BoolType] -> b ∈ [StringType; 9; BoolType] ->
        unionTypes_Less exampleHash exampleLess test_heap a b = false ->
        unionTypes_Less exampleHash exampleLess test_heap b a = false ->
        Ref exampleHash test_heap a = Ref exampleHash test_heap b)
  /\ unionTypes_Swap [StringType; 9; BoolType] 3 0 = None.
Proof.
  assert (Hwf : wf_heap test_heap = true) by (vm_compute; reflexivity).
  assert (Hl : Forall (fun t => t < length test_heap) [StringType; 9; BoolType]).
  { repeat constructor; vm_compute; lia. }
  split; [exact exampleLess_total|]. split; [exact Hwf|]. split; [exact Hl|].
  destruct (unionTypes_sort_Interface exampleHash exampleLess test_heap
              [StringType; 9; BoolType] exampleLess_total Hwf Hl)
    as (_ & _ & _ & Hinc & _ & Hout).
  split; [exact Hinc|]. apply Hout. cbn. lia.
Defined.

(** ** Heaps a program can build *)

Lemma wf_heap_compound_app h k (es : list nat) :
  wf_heap h = true -> compound_arity_ok k (length es) = true ->
  Forall (fun e => e < length h) es ->
  wf_heap (h ++ [CompoundDesc k es]) = true.
Proof.
  intros Hwf Hk Hes. apply wf_heap_app; [done|]. cbn [wf_desc].
  rewrite Hk. cbn. apply forallb_forall. intros e He%list_elem_of_In.
  rewrite Forall_forall in Hes. apply bool_decide_eq_true. now apply Hes.
Qed.

(** X7.  Every heap a program can build is well-formed, with a sort that
    returns a permutation of what it is given: whatever the constructors
    were called with and whichever fields were assigned afterwards, every
    type of the heap has an encoding, so [Ref()] returns on it, and the type
    equals itself. *)
Theorem built_heaps_are_well_formed (computeHash : list token -> string)
    (Less : string -> string -> bool)
    (sortSlice : (nat -> nat -> bool) -> list nat -> list nat) (h : TypeHeap) :
  (forall less l, sortSlice less l ≡ₚ l) ->
  built computeHash Less sortSlice h ->
  wf_heap h = true
  /\ forall t, t < length h ->
       is_Some (encodeType h t)
       /\ is_Some (Ref computeHash h t)
       /\ Equals computeHash h t (Some (VType t)) = Some true.
Proof.
  intros Hperm Hb.
  assert (Hwf : wf_heap h = true).
  { induction Hb as [|h e _ IH He|h e _ IH He|h k v _ IH Hk Hv|h e _ IH He
                     |h name fields t h' _ IH Hf Hmk
                     |h elemType t h' _ IH Hel Hmk
                     |h s name fields n p _ IH Hs Hn Hp].
    - vm_compute. reflexivity.
    - apply wf_heap_compound_app; [done|done|]. now repeat constructor.
    - apply wf_heap_compound_app; [done|done|]. now repeat constructor.
    - apply wf_heap_compound_app; [done|done|]. now repeat constructor.
    - apply wf_heap_compound_app; [done|done|]. now repeat constructor.
    - destruct (MakeStructType_Ok _ _ _ _ _ Hmk) as (-> & -> & Hvalid).
      apply wf_heap_struct_app; [done|]. intros n p Hnp. split; eauto.
    - unfold MakeUnionType, buildType in Hmk.
      destruct (decide (length elemType < 2)).
      + injection Hmk as <- <-. now apply wf_heap_compound_app.
      + destruct (forallb _ elemType); [|done]. injection Hmk as <- <-.
        apply wf_heap_compound_app; [done|done|]. now rewrite Hperm.
    - now apply (wf_heap_setField h s name fields n p). }
  split; [exact Hwf|]. intros t Ht.
  destruct (Ref_defined computeHash h t Hwf Ht) as (c & Hc & Hr).
  split; [now exists c|]. split; [rewrite Hr; eauto|].
  unfold Equals. fold (Ref computeHash h t). rewrite Hr. cbn.
  now rewrite bool_decide_eq_true_2.
Qed.

Lemma built_heaps_are_well_formed_witness :
  let h1 := init_heap ++ [CompoundDesc ListKind [NumberType]] in
  let h2 := h1 ++ [StructDesc "RecursiveStruct" {["self" := 7]}] in
  let h3 := setField 8 "self" 8 h2 in
  (forall less l, insertionSort less l ≡ₚ l)
  /\ built exampleHash exampleLess insertionSort h3
  /\ h3 !! 8 = Some (StructDesc "RecursiveStruct" {["self" := 8]})
  /\ wf_heap h3 = true
  /\ is_Some (encodeType h3 8)
  /\ Equals exampleHash h3 8 (Some (VType 8)) = Some true.
Proof.
  intros h1 h2 h3.
  assert (Hb : built exampleHash exampleLess insertionSort h3).
  { apply (built_setField _ _ _ h2 8 "RecursiveStruct" {["self" := 7]} "self" 8).
    - apply (built_struct _ _ _ h1 "RecursiveStruct" {["self" := 7]} 8 h2).
      + apply (built_list _ _ _ init_heap NumberType); [apply built_init|].
        vm_compute. lia.
      + intros n p Hn. apply lookup_singleton_Some in Hn as [_ <-].
        vm_compute. lia.
      + vm_compute. reflexivity.
    - reflexivity.
    - vm_compute. reflexivity.
    - vm_compute. lia. }
  split; [exact insertionSort_perm|]. split; [exact Hb|].
  split; [vm_compute; reflexivity|].
  destruct (built_heaps_are_well_formed exampleHash exampleLess insertionSort h3
              insertionSort_perm Hb) as [Hwf Hall].
  split; [exact Hwf|].
  destruct (Hall 8 ltac:(vm_compute; lia)) as (He & _ & Heq).
  split; [exact He|exact Heq].
Defined.

(** ** Recursive struct types *)

Lemma concat_elem_split {A} (xs : list (list A)) x :
  x ∈ xs -> exists pre post, concat xs = pre ++ x ++ post.
Proof.
  intros (l1 & l2 & ->)%list_elem_of_split.
  exists (concat l1), (concat l2). now rewrite concat_app.
Qed.



(** ** Equality of types *)

(** X9.  On the types of a well-formed heap [Equals] always returns, and
    it is an equivalence: every type equals itself, also a recursive one,
    and [Equals] is symmetric and transitive. *)
Theorem Type_Equals_is_an_equivalence (computeHash : list token -> string)
    (h : TypeHeap) (t u w : nat) :
  wf_heap h = true -> t < length h -> u < length h -> w < length h ->
  is_Some (Equals computeHash h t (Some (VType u)))
  /\ Equals computeHash h t (Some (VType t)) = Some true
  /\ Equals computeHash h t (Some (VType u)) = Equals computeHash h u (Some (VType t))
  /\ (Equals computeHash h t (Some (VType u)) = Some true ->
      Equals computeHash h u (Some (VType w)) = Some true ->
      Equals computeHash h t (Some (VType w)) = Some true).
Proof.
  intros Hwf Ht Hu Hw.
  destruct (Ref_defined computeHash h t Hwf Ht) as (ct & _ & Rt).
  destruct (Ref_defined computeHash h u Hwf Hu) as (cu & _ & Ru).
  destruct (Ref_defined computeHash h w Hwf Hw) as (cw & _ & Rw).
  unfold Equals. fold (Ref computeHash h t) (Ref computeHash h u) (Ref computeHash h w).
  rewrite Rt, Ru, Rw. cbn. split; [eauto|].
  split; [now rewrite bool_decide_eq_true_2|].
  split. { f_equal. apply bool_decide_ext. split; congruence. }
  intros [= E1%bool_decide_eq_true] [= E2%bool_decide_eq_true].
  f_equal. apply bool_decide_eq_true. congruence.
Qed.

Lemma Type_Equals_is_an_equivalence_witness :
  wf_heap test_heap = true /\ 16 < length test_heap /\ 9 < length test_heap
  /\ 10 < length test_heap
  /\ Equals exampleHash test_heap 16 (Some (VType 16)) = Some true
  /\ Equals exampleHash test_heap 16 (Some (VType 9))
     = Equals exampleHash test_heap 9 (Some (VType 16)).
Proof.
  assert (Hwf : wf_heap test_heap = true) by (vm_compute; reflexivity).
  assert (H16 : 16 < length test_heap) by (vm_compute; lia).
  assert (H9 : 9 < length test_heap) by (vm_compute; lia).
  assert (H10 : 10 < length test_heap) by (vm_compute; lia).
  split; [exact Hwf|]. split; [exact H16|]. split; [exact H9|]. split; [exact H10|].
  destruct (Type_Equals_is_an_equivalence exampleHash test_heap 16 9 10 Hwf H16 H9 H10)
    as (_ & Hrefl & Hsym & _).
  split; [exact Hrefl|exact Hsym].
Defined.

Lemma compound_encoding h u k (es : list nat) (xs : list (list token)) :
  wf_heap h = true -> h !! u = Some (CompoundDesc k es) ->
  Forall2 (fun m x => encodeType h m = Some x) es xs ->
  encodeType h u
  = Some (uint8 k ::
          (if decide (k = UnionKind) then [uint32 (N.of_nat (length es))] else [])
          ++ concat xs).
Proof.
  intros Hwf Hu Hxs. apply encodeType_Encodes; [done|].
  apply (Encodes_compound h [] u k es xs Hu).
  eapply Forall2_impl; [exact Hxs|]. intros m x Hm. now apply encodeType_Encodes.
Qed.

Lemma compound_twins (computeHash : list token -> string) h k k' (es : list nat) :
  wf_heap h = true -> compound_arity_ok k (length es) = true ->
  compound_arity_ok k' (length es) = true ->
  Forall (fun e => e < length h) es ->
  let h2 := h ++ [CompoundDesc k es; CompoundDesc k' es] in
  wf_heap h2 = true
  /\ exists c c',
       encodeType h2 (length h) = Some (uint8 k :: c)
       /\ encodeType h2 (S (length h)) = Some (uint8 k' :: c')
       /\ (k = k' -> c = c').
Proof.
  intros Hwf Hk Hk' Hes h2.
  assert (Hwf1 : wf_heap (h ++ [CompoundDesc k es]) = true)
    by now apply wf_heap_compound_app.
  assert (Hh2 : h2 = (h ++ [CompoundDesc k es]) ++ [CompoundDesc k' es])
    by (unfold h2; now rewrite <- app_assoc).
  assert (Hwf2 : wf_heap h2 = true).
  { rewrite Hh2. apply wf_heap_compound_app; [done|done|].
    eapply Forall_impl; [exact Hes|]. intros e He. rewrite length_app. cbn in *. lia. }
  split; [done|].
  destruct (Forall_is_Some_Forall2 (fun e => encodeType h2 e) es) as [xs Hxs].
  { eapply Forall_impl; [exact Hes|]. intros e He. cbn beta in *.
    destruct (encodeType_total h e Hwf He) as [x Hx]. exists x.
    now apply (encodeType_frame h [CompoundDesc k es; CompoundDesc k' es]). }
  eexists _, _. split; [|split].
  - apply (compound_encoding h2 _ k es xs); [done| |done].
    unfold h2. now rewrite lookup_app_r, Nat.sub_diag by lia.
  - apply (compound_encoding h2 _ k' es xs); [done| |done].
    unfold h2. rewrite lookup_app_r by lia.
    now replace (S (length h) - length h) with 1 by lia.
  - now intros <-.
Qed.

(** X10.  A compound type is equal to any other made in the same way: two
    calls of [MakeListType], [MakeSetType], [MakeMapType] or [MakeRefType]
    with the same arguments return two objects that are [Equals]; a list
    type and a set type of the same element type have different
    encodings. *)
Theorem compound_types_equal_by_structure (computeHash : list token -> string)
    (h : TypeHeap) (e k v : nat) :
  wf_heap h = true -> e < length h -> k < length h -> v < length h ->
  let twice (mk : TypeHeap -> nat * TypeHeap) :=
    (mk h).1 <> (mk (mk h).2).1
    /\ Equals computeHash (mk (mk h).2).2 (mk h).1
         (Some (VType (mk (mk h).2).1)) = Some true in
  twice (MakeListType e) /\ twice (MakeSetType e)
  /\ twice (MakeMapType k v) /\ twice (MakeRefType e)
  /\ (let h2 := (MakeSetType e (MakeListType e h).2).2 in
      is_Some (encodeType h2 (MakeListType e h).1)
      /\ encodeType h2 (MakeListType e h).1
         <> encodeType h2 (MakeSetType e (MakeListType e h).2).1).
Proof.
  intros Hwf He Hk Hv.
  assert (Htw : forall kind es, compound_arity_ok kind (length es) = true ->
            Forall (fun e => e < length h) es ->
            length h <> length (h ++ [CompoundDesc kind es])
            /\ Equals computeHash ((h ++ [CompoundDesc kind es]) ++ [CompoundDesc kind es])
                 (length h) (Some (VType (length (h ++ [CompoundDesc kind es]))))
               = Some true).
  { intros kind es Hkind Hes. rewrite length_app. cbn [length].
    split; [lia|]. rewrite <- app_assoc. cbn [app].
    replace (length h + 1) with (S (length h)) by lia.
    destruct (compound_twins computeHash h kind kind es Hwf Hkind Hkind Hes)
      as (Hwf2 & c & c' & E1 & E2 & Hc).
    rewrite <- (Hc eq_refl) in E2.
    unfold Equals, Ref, EnsureRef.
    rewrite (proj2 (encodeType_VType _ _ _ Hwf2) (ex_intro _ _ (conj E1 eq_refl))).
    rewrite (proj2 (encodeType_VType _ _ _ Hwf2) (ex_intro _ _ (conj E2 eq_refl))).
    cbn. now rewrite bool_decide_eq_true_2. }
  cbv zeta. unfold MakeListType, MakeSetType, MakeMapType, MakeRefType, buildType.
  cbn [fst snd].
  split; [apply Htw; [done|now repeat constructor]|].
  split; [apply Htw; [done|now repeat constructor]|].
  split; [apply Htw; [done|now repeat constructor]|].
  split; [apply Htw; [done|now repeat constructor]|].
  destruct (compound_twins computeHash h ListKind SetKind [e] Hwf eq_refl eq_refl
              ltac:(now repeat constructor)) as (Hwf2 & c & c' & E1 & E2 & _).
  rewrite <- app_assoc, length_app. cbn [app length].
  replace (length h + 1) with (S (length h)) by lia.
  rewrite E1, E2. split; [eauto|]. intros [=].
Qed.

Lemma compound_types_equal_by_structure_witness :
  wf_heap test_heap = true /\ 9 < length test_heap
  /\ NumberType < length test_heap /\ 16 < length test_heap
  /\ (MakeListType 9 test_heap).1 <> (MakeListType 9 (MakeListType 9 test_heap).2).1
  /\ Equals exampleHash (MakeListType 9 (MakeListType 9 test_heap).2).2
       (MakeListType 9 test_heap).1
       (Some (VType (MakeListType 9 (MakeListType 9 test_heap).2).1)) = Some true.
Proof.
  assert (Hwf : wf_heap test_heap = true) by (vm_compute; reflexivity).
  assert (H9 : 9 < length test_heap) by (vm_compute; lia).
  assert (H1 : NumberType < length test_heap) by (vm_compute; lia).
  assert (H16 : 16 < length test_heap) by (vm_compute; lia).
  split; [exact Hwf|]. split; [exact H9|]. split; [exact H1|]. split; [exact H16|].
  exact (proj1 (compound_types_equal_by_structure exampleHash test_heap 9
                  NumberType 16 Hwf H9 H1 H16)).
Defined.

(** X11.  The type of every type is the one object [typeForType]; it is
    not the object [TypeType], but it has the same description and it
    [Equals] it, as [TestTypeType] expects of [BoolType.Type()]. *)
Theorem Type_of_a_type_Equals_TypeType (computeHash : list token -> string)
    (h : TypeHeap) (t : nat) :
  wf_heap h = true ->
  Type_ t = typeOf (VType t)
  /\ Type_ t <> TypeType
  /\ h !! Type_ t = Some (PrimitiveDesc TypeKind)
  /\ h !! TypeType = Some (PrimitiveDesc TypeKind)
  /\ Equals computeHash h (Type_ t) (Some (VType TypeType)) = Some true
  /\ Equals computeHash h TypeType (Some (VType (Type_ t))) = Some true.
Proof.
  intros Hwf.
  destruct (encodeType_global h typeForType TypeKind Hwf eq_refl) as [E1 L1].
  destruct (encodeType_global h TypeType TypeKind Hwf eq_refl) as [E2 L2].
  split; [done|]. split; [done|]. split; [done|]. split; [done|].
  unfold Type_, Equals, Ref, EnsureRef.
  rewrite (proj2 (encodeType_VType _ _ _ Hwf) (ex_intro _ _ (conj E1 eq_refl))).
  rewrite (proj2 (encodeType_VType _ _ _ Hwf) (ex_intro _ _ (conj E2 eq_refl))).
  cbn. now rewrite bool_decide_eq_true_2.
Qed.

Lemma Type_of_a_type_Equals_TypeType_witness :
  wf_heap test_heap = true
  /\ Type_ BoolType <> TypeType
  /\ Equals exampleHash test_heap (Type_ BoolType) (Some (VType TypeType)) = Some true.
Proof.
  assert (Hwf : wf_heap test_heap = true) by (vm_compute; reflexivity).
  split; [exact Hwf|].
  destruct (Type_of_a_type_Equals_TypeType exampleHash test_heap BoolType Hwf)
    as (_ & Hne & _ & _ & Heq & _).
  split; [exact Hne|exact Heq].
Defined.

(** X12.  A union of no type and a union of one type are union types like
    any other: [MakeUnionType] returns a new type of kind Union whose
    encoding is the kind, the number of members and the encodings of the
    members, so the union of one type is not that type. *)
Theorem MakeUnionType_of_one_type (computeHash : list token -> string)
    (Less : string -> string -> bool)
    (sortSlice : (nat -> nat -> bool) -> list nat -> list nat)
    (h : TypeHeap) (t : nat) :
  wf_heap h = true -> t < length h ->
  exists c,
    encodeType h t = Some c
    /\ (let h1 := h ++ [CompoundDesc UnionKind [t]] in
        MakeUnionType computeHash Less sortSlice [t] h = Some (length h, h1)
        /\ encodeType h1 (length h) = Some (uint8 UnionKind :: uint32 1 :: c)
        /\ encodeType h1 (length h) <> encodeType h1 t)
    /\ (let h0 := h ++ [CompoundDesc UnionKind []] in
        MakeUnionType computeHash Less sortSlice [] h = Some (length h, h0)
        /\ encodeType h0 (length h) = Some [uint8 UnionKind; uint32 0]).
Proof.
  intros Hwf Ht. destruct (encodeType_total h t Hwf Ht) as [c Hc]. exists c.
  split; [done|]. split.
  - cbv zeta.
    assert (Hwf1 : wf_heap (h ++ [CompoundDesc UnionKind [t]]) = true).
    { apply wf_heap_compound_app; [done|done|]. now repeat constructor. }
    pose proof (encodeType_frame h [CompoundDesc UnionKind [t]] t c Hwf Hwf1 Hc) as Hc1.
    assert (E : encodeType (h ++ [CompoundDesc UnionKind [t]]) (length h)
                = Some (uint8 UnionKind :: uint32 1 :: c)).
    { rewrite (compound_encoding _ (length h) UnionKind [t] [c] Hwf1).
      - cbn. now rewrite app_nil_r.
      - now rewrite list_lookup_middle.
      - now repeat constructor. }
    split; [done|]. split; [done|]. rewrite E, Hc1. intros [= Heq].
    apply (f_equal length) in Heq. cbn in Heq. lia.
  - cbv zeta. split; [done|].
    assert (Hwf0 : wf_heap (h ++ [CompoundDesc UnionKind []]) = true).
    { apply wf_heap_compound_app; [done|done|constructor]. }
    rewrite (compound_encoding _ (length h) UnionKind [] [] Hwf0); [done| |constructor].
    now rewrite list_lookup_middle.
Qed.

Lemma MakeUnionType_of_one_type_witness :
  wf_heap test_heap = true /\ 9 < length test_heap
  /\ exists c,
       encodeType test_heap 9 = Some c
       /\ encodeType (test_heap ++ [CompoundDesc UnionKind [9]]) (length test_heap)
          = Some (uint8 UnionKind :: uint32 1 :: c).
Proof.
  assert (Hwf : wf_heap test_heap = true) by (vm_compute; reflexivity).
  assert (H9 : 9 < length test_heap) by (vm_compute; lia).
  split; [exact Hwf|]. split; [exact H9|].
  destruct (MakeUnionType_of_one_type exampleHash exampleLess insertionSort
              test_heap 9 Hwf H9) as (c & Hc & (_ & E & _) & _).
  exists c. split; [exact Hc|exact E].
Defined.

(** ** The batch store *)

Lemma scheduleAll_cs {S : Type} `{ChunkStore S}
    (puts : list (Chunk * Hints)) (lbs : BatchStoreAdaptor S) :
  cs (scheduleAll puts lbs) = fold_left (fun s p => cs_Put p.1 s) puts (cs lbs).
Proof.
  unfold scheduleAll. revert lbs.
  induction puts as [|[c hs] puts IH]; intros lbs; [done|].
  cbn [fold_left]. now rewrite IH.
Qed.

Lemma Close_eq {S : Type} `{ChunkStore S} (lbs : BatchStoreAdaptor S) :
  Close lbs = ((cs_Close (cs lbs)).1, NewBatchStoreAdaptor (cs_Close (cs lbs)).2).
Proof. unfold Close, Flush. now destruct (cs_Close (cs lbs)). Qed.

(** X13.  [Get] is answered by the store behind the adaptor, as it is at
    that moment: a chunk that was scheduled is seen by [Get] without any
    [Flush], and [Flush] changes no answer.  With a store that keeps chunks
    by address, [Get] after [SchedulePut] returns the chunk scheduled, the
    last one if several have the address, and [EmptyChunk] for an address
    that was never put. *)
Theorem BatchStoreAdaptor_Get_reads_through {S : Type} `{ChunkStore S}
    (lbs : BatchStoreAdaptor S) (puts : list (Chunk * Hints)) (r : string)
    (ms : MemoryStore) (c c' : Chunk) (hints hints' : Hints) :
  Get r (scheduleAll puts lbs)
  = cs_Get r (fold_left (fun s p => cs_Put p.1 s) puts (cs lbs))
  /\ Get r (Flush (scheduleAll puts lbs)) = Get r (scheduleAll puts lbs)
  /\ Get r (scheduleAll puts (Flush lbs)) = Get r (scheduleAll puts lbs)
  /\ Get (chunk_ref c) (SchedulePut c hints (NewBatchStoreAdaptor ms)) = c
  /\ (chunk_ref c' = chunk_ref c ->
      Get (chunk_ref c)
        (SchedulePut c' hints' (SchedulePut c hints (NewBatchStoreAdaptor ms))) = c')
  /\ (chunk_ref c' <> chunk_ref c ->
      Get (chunk_ref c)
        (SchedulePut c' hints' (SchedulePut c hints (NewBatchStoreAdaptor ms))) = c)
  /\ (ms_data ms !! r = None -> Forall (fun p => chunk_ref p.1 <> r) puts ->
      Get r (scheduleAll puts (NewBatchStoreAdaptor ms)) = EmptyChunk).
Proof.
  split; [unfold Get; now rewrite scheduleAll_cs|].
  split; [done|]. split; [done|].
  split; [unfold Get; cbn; now rewrite lookup_insert_eq|].
  split; [intros E; unfold Get; cbn; now rewrite <- E, lookup_insert_eq|].
  split.
  { intros E. unfold Get. cbn. rewrite lookup_insert_ne by done.
    now rewrite lookup_insert_eq. }
  intros Hr Hputs. unfold Get. rewrite scheduleAll_cs. cbn [cs].
  revert ms Hr. induction Hputs as [|[c0 hs] puts Hc0 _ IH]; intros ms Hr.
  - cbn. now rewrite Hr.
  - cbn [fold_left]. apply IH. cbn. now rewrite lookup_insert_ne.
Qed.

(** X14.  The adaptor keeps no state of its own: the error of [Close] is
    the error of the store; after [Close] a chunk scheduled is still put
    to the store, and a second [Close] closes the store again. *)
Theorem BatchStoreAdaptor_keeps_no_state {S : Type} `{ChunkStore S}
    (lbs : BatchStoreAdaptor S) (c : Chunk) (hints : Hints) (ms : MemoryStore) :
  (Close lbs).1 = (cs_Close (cs lbs)).1
  /\ cs (SchedulePut c hints (Close lbs).2) = cs_Put c (cs_Close (cs lbs)).2
  /\ Close (Close lbs).2
     = ((cs_Close (cs_Close (cs lbs)).2).1,
        NewBatchStoreAdaptor (cs_Close (cs_Close (cs lbs)).2).2)
  /\ ms_calls (cs (Close (SchedulePut c hints
                             (Close (NewBatchStoreAdaptor ms)).2)).2)
     = ms_calls ms ++ [CallClose; CallPut c; CallClose].
Proof.
  rewrite !Close_eq. cbn [fst snd cs]. split; [done|]. split; [done|].
  split; [done|]. cbn. repeat rewrite <- app_assoc. reflexivity.
Qed.

(** ** The writer and the reader of the test-suite *)

Lemma written_items (items : list token) (a : TestWriter.t) :
  fold_left (fun w v => writeItem v w) items a = a ++ items.
Proof.
  revert a. induction items as [|v items IH]; intros a; cbn [fold_left].
  - now rewrite app_nil_r.
  - rewrite IH. replace (writeItem v a) with (a ++ [v]) by now destruct v.
    now rewrite <- app_assoc.
Qed.

Lemma readItem_cons (expected v : token) (r : TestReader.t) :
  readItem expected (v :: r) = if same_sort expected v then Some (v, r) else None.
Proof. destruct expected, v; reflexivity. Qed.

(** X15.  What the writer writes, the reader reads: the array of a writer
    holds the items written, in the order they were written, and reading
    it with the readers of the same sorts returns the items and leaves the
    reader at the end.  A read returns the next item exactly when it is of
    the sort asked for, so a number of one width is not read as a number of
    another, and fails at the end of the array. *)
Theorem TestReader_reads_what_TestWriter_wrote (items : list token) :
  let a := TestWriter.toArray (fold_left (fun w v => writeItem v w) items []) in
  a = items
  /\ (exists r, readItems items a = Some (items, r) /\ TestReader.atEnd r = true)
  /\ (forall expected v r,
        readItem expected (v :: r)
        = if same_sort expected v then Some (v, r) else None)
  /\ (forall expected, readItem expected [] = None)
  /\ (forall r, TestReader.atEnd r = true <-> TestReader.read r = None).
Proof.
  cbv zeta. unfold TestWriter.toArray. rewrite written_items. cbn [app].
  split; [done|]. split.
  - exists []. split; [|done].
    induction items as [|v items IH]; [done|].
    cbn [readItems]. rewrite readItem_cons.
    replace (same_sort v v) with true by now destruct v.
    cbn. now rewrite IH.
  - split; [apply readItem_cons|]. split; [now intros []|].
    now intros [|v r].
Qed.

(** ** [assertEncoding] *)



(** ** The empty struct *)

(** X17.  A struct type may have no field, and its name is not checked:
    [MakeStructType] with an empty field map returns for every name, the
    empty one or one that is no field name; the struct value of that type
    is written as the kind, the name and a count of zero, and is read back
    as a struct with no field whose type has that name. *)
Theorem empty_struct (name : string) (h : TypeHeap) :
  wf_heap h = true ->
  let h1 := h ++ [StructDesc name ∅] in
  MakeStructType name ∅ h = Ok (length h, h1)
  /\ newStruct name [] h = Ok (VStruct (length h) [], h1)
  /\ wf_heap h1 = true
  /\ encodeValue (VStruct (length h) []) h1
     = Some [uint8 StructKind; Tstring name; uint32 0]
  /\ exists t' h2 d,
       decodeValue [uint8 StructKind; Tstring name; uint32 0] h1
       = Some (VStruct t' [], h2)
       /\ h2 !! t' = Some d /\ Name d = Ok name /\ ChildValues d = [].
Proof.
  intros Hwf h1.
  assert (Hmk : MakeStructType name ∅ h = Ok (length h, h1)) by reflexivity.
  assert (Hnew : newStruct name [] h = Ok (VStruct (length h) [], h1)) by reflexivity.
  assert (Hwf1 : wf_heap h1 = true).
  { apply wf_heap_struct_app; [done|]. intros n p Hn. now rewrite lookup_empty in Hn. }
  assert (Hd1 : h1 !! length h = Some (StructDesc name ∅))
    by (unfold h1; now rewrite list_lookup_middle).
  assert (Hit : IterFields (∅ : gmap string nat) = []) by reflexivity.
  assert (Hhdr : encodeType h1 (length h)
                 = Some [uint8 StructKind; Tstring name; uint32 0]).
  { apply encodeType_Encodes; [done|].
    pose proof (Encodes_struct h1 [] (length h) name ∅ [] Hd1 (not_elem_of_nil _)) as E.
    rewrite Hit in E. apply E. constructor. }
  assert (Henc : encodeValue (VStruct (length h) []) h1
                 = Some [uint8 StructKind; Tstring name; uint32 0]).
  { unfold encodeValue. rewrite writeValue_VStruct.
    rewrite <- (app_nil_r [uint8 StructKind; Tstring name; uint32 0]).
    apply with_type_intro with (StructDesc name ∅); [done|done|].
    now rewrite Hit. }
  split; [done|]. split; [done|]. split; [done|]. split; [done|].
  destruct (decodeValue_struct h1 (length h) name ∅ [] _ Hwf1 Hd1 Henc)
    as (t2 & fields2 & vs & l & Hdec & Hlen & Hwfl & Hd2 & Hnames).
  rewrite Hit in Hdec, Hlen, Hnames. cbn in Hdec, Hlen.
  exists t2, (h1 ++ l), (StructDesc name fields2).
  split; [exact Hdec|]. split; [exact Hd2|]. split; [done|].
  cbn [ChildValues]. apply fmap_nil_inv in Hnames. now rewrite Hnames.
Qed.

Lemma empty_struct_witness :
  wf_heap init_heap = true
  /\ MakeStructType "" ∅ init_heap = Ok (7, init_heap ++ [StructDesc "" ∅])
  /\ encodeValue (VStruct 7 []) (init_heap ++ [StructDesc "" ∅])
     = Some [uint8 StructKind; Tstring ""; uint32 0].
Proof.
  assert (Hwf : wf_heap init_heap = true) by (vm_compute; reflexivity).
  split; [exact Hwf|].
  destruct (empty_struct "" init_heap Hwf) as (Hmk & _ & _ & Henc & _).
  split; [exact Hmk|exact Henc].
Defined.

(** ** Allocation and content addresses *)

(** X18.  Building a type changes nothing for the types and values there
    were: every constructor allocates with [buildType], and after it every
    type of the heap has the encoding and the content address it had, two
    types are [Equals] exactly if they were, and a well-formed value has
    the encoding it had. *)
Theorem buildType_keeps_content_addresses (computeHash : list token -> string)
    (h : TypeHeap) (d : TypeDesc) (t u : nat) (v : Value) :
  wf_heap h = true -> wf_heap (buildType d h).2 = true ->
  t < length h -> u < length h -> wf_value h v = true ->
  (buildType d h).1 = length h
  /\ encodeType (buildType d h).2 t = encodeType h t
  /\ Ref computeHash (buildType d h).2 t = Ref computeHash h t
  /\ Equals computeHash (buildType d h).2 t (Some (VType u))
     = Equals computeHash h t (Some (VType u))
  /\ encodeValue v (buildType d h).2 = encodeValue v h
  /\ is_Some (encodeValue v h).
Proof.
  intros Hwf Hwf' Ht Hu Hv. cbn [buildType fst snd] in *.
  split; [done|].
  destruct (encodeType_total h t Hwf Ht) as [c Hc].
  split; [rewrite Hc; now apply encodeType_frame|].
  pose proof (Ref_frame computeHash h [d] t Hwf Hwf' Ht) as Rt.
  pose proof (Ref_frame computeHash h [d] u Hwf Hwf' Hu) as Ru.
  split; [done|]. split.
  { unfold Equals. fold (Ref computeHash (h ++ [d]) t) (Ref computeHash (h ++ [d]) u)
                        (Ref computeHash h t) (Ref computeHash h u).
    now rewrite Rt, Ru. }
  destruct (writeValue_total h Hwf v Hv) as [x Hx]. unfold encodeValue.
  rewrite Hx. split; [now apply writeValue_frame|eauto].
Qed.

Lemma buildType_keeps_content_addresses_witness :
  wf_heap test_heap = true
  /\ wf_heap (buildType (CompoundDesc MapKind [StringType; 16]) test_heap).2 = true
  /\ 16 < length test_heap /\ 9 < length test_heap
  /\ wf_value test_heap test_value = true
  /\ Ref exampleHash (buildType (CompoundDesc MapKind [StringType; 16]) test_heap).2 16
     = Ref exampleHash test_heap 16
  /\ encodeValue test_value (buildType (CompoundDesc MapKind [StringType; 16]) test_heap).2
     = encodeValue test_value test_heap.
Proof.
  assert (Hwf : wf_heap test_heap = true) by (vm_compute; reflexivity).
  assert (Hwf' : wf_heap (buildType (CompoundDesc MapKind [StringType; 16]) test_heap).2
                 = true) by (vm_compute; reflexivity).
  assert (H16 : 16 < length test_heap) by (vm_compute; lia).
  assert (H9 : 9 < length test_heap) by (vm_compute; lia).
  assert (Hv : wf_value test_heap test_value = true) by (vm_compute; reflexivity).
  split; [exact Hwf|]. split; [exact Hwf'|]. split; [exact H16|]. split; [exact H9|].
  split; [exact Hv|].
  destruct (buildType_keeps_content_addresses exampleHash test_heap
              (CompoundDesc MapKind [StringType; 16]) 16 9 test_value
              Hwf Hwf' H16 H9 Hv) as (_ & _ & HR & _ & HE & _).
  split; [exact HR|exact HE].
Defined.
